(** * The telemetry handler of the model-predictive-control pipeline

    A shallow embedding of [src/main.cpp]: the payload detector [hasData],
    [polyeval], [polyfit] and the [onMessage] callback that [main] registers
    (frame guard, JSON decoding, world-to-vehicle transform, fit, tracking
    errors, optimizer call, reply assembly, latency sleep, send).

    - A C++ [double] is a binary64 number: Rocq's primitive [float], whose
      operations are specified by [SpecFloat] (round to nearest, ties to even).
    - What the program calls but does not define (libm, Eigen's QR solver,
      the JSON library's parser and printer, the optimizer [MPC::Solve]) is
      an interface ([Libm], [Externals]); the program is written against it.
    - The callback runs in a small monad: it threads the optimizer object and
      a log of steps, and stops at the first failure (an uncaught exception,
      a failed [assert], a fault).
    - [operator[]] on a [std::vector] is not checked. A read past the end
      has no meaning in the language; the compiled program reads what the
      memory holds there and goes on, or the access faults. Which of the
      two, and the value read, is left to the environment. *)

From Stdlib Require Import ZArith Lia Bool List Ascii String.
From Stdlib Require Import Uint63 Floats DecimalString.
From Stdlib Require Reals.
Import ListNotations.

#[local] Set Warnings "-inexact-float,-register-all".

Local Open Scope list_scope.
Local Open Scope string_scope.

(* ===================================================================== *)
(** ** Doubles *)
(* ===================================================================== *)

Definition double : Set := float.

(** Conversion of a (small, non-negative) C [int] to [double], as in
    [pow(x, i)] and [d*i]. *)
Definition double_of_nat (n : nat) : double :=
  PrimFloat.of_uint63 (Uint63.of_Z (Z.of_nat n)).

(** Neither an infinity nor a NaN. *)
Definition is_finite (x : double) : bool :=
  match Prim2SF x with
  | S754_zero _ | S754_finite _ _ _ => true
  | S754_infinity _ | S754_nan => false
  end.

Definition is_zero (x : double) : bool :=
  match Prim2SF x with
  | S754_zero _ => true
  | _ => false
  end.

Definition is_nan (x : double) : bool :=
  match Prim2SF x with
  | S754_nan => true
  | _ => false
  end.

(** The comparison [x == y] of C on doubles. *)
Definition double_eq (x y : double) : bool := PrimFloat.eqb x y.

(** [fabs (x - y) <= tol], the usual reading of "x is y within tol". *)
Definition within (tol x y : double) : bool :=
  PrimFloat.leb (PrimFloat.abs (x - y)%float) tol.

(* ===================================================================== *)
(** ** Strings: the [std::string] operations the program uses *)
(* ===================================================================== *)

(** The double quote character, and a quoted word. *)
Definition dquote : string := String (ascii_of_nat 34) EmptyString.
Definition quoted (s : string) : string := dquote ++ s ++ dquote.

(** [string(data)]: the characters before the first NUL byte. *)
Fixpoint c_string (data : string) : string :=
  match data with
  | EmptyString => EmptyString
  | String c rest =>
      if Ascii.eqb c Ascii.zero then EmptyString else String c (c_string rest)
  end.

(** [s.substr(pos, count)] for [pos <= s.size()]; [count] is a [size_t], so
    it is taken modulo 2^64, and the result stops at the end of [s]. *)
Definition size_t (z : Z) : Z := z mod 2 ^ 64.

Definition substr (s : string) (pos : nat) (count : Z) : string :=
  let avail := Z.of_nat (String.length s - pos) in
  String.substring pos (Z.to_nat (Z.min (size_t count) avail)) s.

(** [s.find(pat)] and [s.find_first_of(c)] for a one-character [c]: the
    first position where [pat] occurs; [None] stands for [string::npos]. *)
Definition find (pat s : string) : option nat := String.index 0 pat s.

(** [s.rfind(pat)]: the last position where [pat] occurs. *)
Fixpoint rfind_from (pat s : string) (i : nat) : option nat :=
  let here := if String.prefix pat s then Some i else None in
  match s with
  | EmptyString => here
  | String _ rest =>
      match rfind_from pat rest (S i) with
      | Some k => Some k
      | None => here
      end
  end.

Definition rfind (pat s : string) : option nat := rfind_from pat s 0.

(** [pat] occurs in [s] at position [m]. *)
Definition occurs_at (pat s : string) (m : nat) : Prop :=
  String.substring m (String.length pat) s = pat.

Definition contains (pat s : string) : Prop := exists m, occurs_at pat s m.

(** ** [hasData] (main.cpp, lines 23-33) *)
Definition hasData (s : string) : string :=
  let found_null := find "null" s in
  let b1 := find "[" s in
  let b2 := rfind "}]" s in
  match found_null with
  | Some _ => ""
  | None =>
      match b1, b2 with
      | Some b1, Some b2 =>
          substr s b1 (Z.of_nat b2 - Z.of_nat b1 + 2)
      | _, _ => ""
      end
  end.

(** The guard [sdata.size() > 2 && sdata[0] == '4' && sdata[1] == '2']. *)
Definition is_event_frame (sdata : string) : bool :=
  (2 <? String.length sdata)%nat &&
  match sdata with
  | String c0 (String c1 _) => Ascii.eqb c0 "4"%char && Ascii.eqb c1 "2"%char
  | _ => false
  end.

(** The text of the manual-driving reply, [42["manual",{}]]. *)
Definition manual_msg : string := "42[" ++ quoted "manual" ++ ",{}]".

(* ===================================================================== *)
(** ** JSON values and the accessors of the JSON library *)
(* ===================================================================== *)

(** A value of [nlohmann::json]. A number is kept as the [double] it
    converts to; an object is its key/value pairs in key order. *)
Inductive json : Type :=
| JNull
| JBool (b : bool)
| JNumber (d : double)
| JString (s : string)
| JArray (items : list json)
| JObject (members : list (string * json)).

(** The exceptions of the JSON library: [parse_error] is what
    [json::parse] throws on a text that is not JSON, [type_error] what an
    accessor or a conversion throws on a value of the wrong type (the
    library's versions differ in the classes they throw, not in when). *)
Inductive exn : Type :=
| parse_error
| type_error.

(** How a run of the callback can stop early. Nothing in [main.cpp] catches
    an exception, so one thrown inside the callback leaves it; a failed
    [assert] (the program is read as written, with assertions on) calls
    [abort()] and ends the process; a memory access that faults (a read
    past the end of a vector that lands on no memory of the process) ends
    the process too. *)
Inductive failure : Type :=
| Uncaught (e : exn)
| AssertFailed (condition : string)
| Fault (what : string).

Inductive outcome (A : Type) : Type :=
| Ok (a : A)
| Fail (f : failure).
Arguments Ok {A} a.
Arguments Fail {A} f.

Definition obind {A B} (r : outcome A) (k : A -> outcome B) : outcome B :=
  match r with
  | Ok a => k a
  | Fail f => Fail f
  end.

Declare Scope outcome_scope.
Delimit Scope outcome_scope with outcome.
Notation "x <-? r ;; k" := (obind r (fun x => k))
  (at level 61, r at next level, right associativity) : outcome_scope.

(** [j[idx]] on a non-const value: an array gives its element (a position
    past the end is filled with null), null behaves as an empty array, and
    anything else throws [type_error]. *)
Definition json_at (j : json) (idx : nat) : outcome json :=
  match j with
  | JArray items => Ok (nth idx items JNull)
  | JNull => Ok JNull
  | _ => Fail (Uncaught type_error)
  end.

Fixpoint assoc (key : string) (members : list (string * json)) : json :=
  match members with
  | [] => JNull
  | (k, v) :: rest => if String.eqb k key then v else assoc key rest
  end.

(** [j[key]] on a non-const value: an object gives the member (a missing
    key is inserted with value null), null behaves as an empty object, and
    anything else throws [type_error]. *)
Definition json_field (j : json) (key : string) : outcome json :=
  match j with
  | JObject members => Ok (assoc key members)
  | JNull => Ok JNull
  | _ => Fail (Uncaught type_error)
  end.

(** [j.get<string>()]: [type_error] unless [j] is a string. *)
Definition get_string (j : json) : outcome string :=
  match j with
  | JString s => Ok s
  | _ => Fail (Uncaught type_error)
  end.

(** The implicit conversion [double d = j]: [type_error] unless [j] is
    a number. *)
Definition get_double (j : json) : outcome double :=
  match j with
  | JNumber d => Ok d
  | _ => Fail (Uncaught type_error)
  end.

Fixpoint get_doubles (items : list json) : outcome (list double) :=
  match items with
  | [] => Ok []
  | j :: rest =>
      (d <-? get_double j ;;
       ds <-? get_doubles rest ;;
       Ok (d :: ds))%outcome
  end.

(** The implicit conversion [vector<double> v = j]: [type_error] unless
    [j] is an array of numbers. *)
Definition get_vector (j : json) : outcome (list double) :=
  match j with
  | JArray items => get_doubles items
  | _ => Fail (Uncaught type_error)
  end.

(** [j.size()]: 0 for null, the number of elements of an array or object,
    1 for any other value. *)
Definition json_size (j : json) : nat :=
  match j with
  | JNull => 0
  | JArray items => List.length items
  | JObject members => List.length members
  | _ => 1
  end.

(** [msgJson[key] = v] on an object kept in key order (a [std::map]). *)
Fixpoint obj_set (key : string) (v : json) (members : list (string * json))
  : list (string * json) :=
  match members with
  | [] => [(key, v)]
  | (k, w) :: rest =>
      if String.eqb k key then (key, v) :: rest
      else if String.ltb key k then (key, v) :: (k, w) :: rest
      else (k, w) :: obj_set key v rest
  end.

(** The conversion of a [vector<double>] to a JSON array. *)
Definition json_of_vector (v : list double) : json := JArray (map JNumber v).

(* ===================================================================== *)
(** ** What the program calls but does not define *)
(* ===================================================================== *)

(** The functions of [<math.h>] the program calls. The laws are special
    values C fixes (C11 F.10.1.5, F.10.1.6, F.10.4.4): [cos(+-0)] is 1,
    [sin(+-0)] is [+-0], [pow(x, 0)] is 1 for every [x], and [pow(+0, y)]
    is [+0] for [y > 0]. *)
Class Libm : Type := {
  cos : double -> double;
  sin : double -> double;
  atan : double -> double;
  pow : double -> double -> double;
  cos_pos_zero : cos 0%float = 1%float;
  cos_neg_zero : cos (- 0)%float = 1%float;
  sin_pos_zero : sin 0%float = 0%float;
  sin_neg_zero : sin (- 0)%float = (- 0)%float;
  pow_zero_exponent : forall x, pow x 0%float = 1%float;
  pow_zero_base :
    forall y, PrimFloat.ltb 0%float y = true -> pow 0%float y = 0%float
}.

(** The other collaborators: [json::parse] ([None] when it throws
    [parse_error]) and [json::dump]; Eigen's
    [A.householderQr().solve(b)], whose result has one entry per column of
    [A]; and the optimizer object with [MPC::Solve], which may update the
    object and returns a sequence of doubles.

    [stray_read what vec i] is what the read [vec[i]] at the place [what]
    of the program finds when [i] is not below [vec.size()]: the double the
    memory holds there, or [None] when the access faults. The source does
    not determine it, and two reads of the same position at different
    places need not agree. *)
Class Externals : Type := {
  json_parse : string -> option json;
  json_dump : json -> string;
  householderQr_solve : list (list double) -> list double -> list double;
  householderQr_solve_size : forall A b,
    List.length (householderQr_solve A b) = List.length (hd [] A);
  MPC : Type;
  Solve : MPC -> list double -> list double -> list double * MPC;
  stray_read : string -> list double -> nat -> option double
}.

(* ===================================================================== *)
(** ** The program *)
(* ===================================================================== *)

(** What a run of the callback does, in order. [Ws_send], [Cout] and
    [Sleep_for] are the program's outputs and its one blocking call;
    the [Call_*] and [Loop_transform] entries mark the pipeline stages a
    run reaches. *)
Inductive event : Type :=
| Call_parse (s : string)
| Loop_transform (n : nat)
| Call_polyfit (n : nat) (order : Z)
| Call_Solve (state coeffs : list double)
| Cout (label : string) (value : double)
| Sleep_for (milliseconds : Z)
| Ws_send (msg : string).

(** The fields the callback reads from the payload [j[1]] (lines 90-101). *)
Record telemetry : Type := {
  px : double;
  py : double;
  psi : double;
  v : double;
  delta : double;
  a : double;
  ptsize : nat;
  ptsx : list double;
  ptsy : list double
}.

Section Program.

Context {libm : Libm} {ext : Externals}.

Local Open Scope float_scope.

(** *** [polyeval] (lines 36-42) *)
Fixpoint polyeval_loop (i : nat) (coeffs : list double) (x result : double)
  : double :=
  match coeffs with
  | [] => result
  | c :: rest =>
      polyeval_loop (S i) rest x (result + c * pow x (double_of_nat i))
  end.

Definition polyeval (coeffs : list double) (x : double) : double :=
  polyeval_loop 0 coeffs x 0.

(** *** [polyfit] (lines 47-65)

    Row [j] of the matrix [A]: [A(j,0) = 1] and [A(j,i+1) = A(j,i) * xvals(j)]
    for [i < order]. *)
Fixpoint monomials (order : nat) (aji xj : double) : list double :=
  aji :: match order with
         | O => []
         | S k => monomials k (aji * xj) xj
         end.

Definition size_assertion : string := "xvals.size() == yvals.size()".

Definition order_assertion : string :=
  "order >= 1 && order <= xvals.size() - 1".

Definition polyfit (xvals yvals : list double) (order : Z)
  : outcome (list double) :=
  if negb (List.length xvals =? List.length yvals)%nat then
    Fail (AssertFailed size_assertion)
  else if negb ((1 <=? order)%Z
                && (order <=? Z.of_nat (List.length xvals) - 1)%Z) then
    Fail (AssertFailed order_assertion)
  else
    let A := map (monomials (Z.to_nat order) 1) xvals in
    Ok (householderQr_solve A yvals).

(** *** The callback's monad: the optimizer object and the log *)
Record world : Type := mkWorld { optimizer : MPC; log : list event }.

Definition M (A : Type) : Type := world -> outcome A * world.

Definition ret {A} (x : A) : M A := fun w => (Ok x, w).

Definition bind {A B} (m : M A) (k : A -> M B) : M B :=
  fun w =>
    match m w with
    | (Ok x, w') => k x w'
    | (Fail f, w') => (Fail f, w')
    end.

Definition lift {A} (r : outcome A) : M A := fun w => (r, w).

Definition emit (e : event) : M unit :=
  fun w => (Ok tt, mkWorld (optimizer w) (log w ++ [e])%list).

Definition call_Solve (state coeffs : list double) : M (list double) :=
  fun w =>
    let '(res, mpc') := Solve (optimizer w) state coeffs in
    (Ok res, mkWorld mpc' (log w ++ [Call_Solve state coeffs])%list).

Notation "x <- m ;; k" := (bind m (fun x => k))
  (at level 61, m at next level, right associativity).
Notation "m ;;; k" := (bind m (fun _ => k))
  (at level 61, right associativity).

(** *** The pieces of the callback *)

(** [json::parse(s)] (line 84). *)
Definition parse (s : string) : outcome json :=
  match json_parse s with
  | Some j => Ok j
  | None => Fail (Uncaught parse_error)
  end.

(** [j[0].get<string>()] (line 85). *)
Definition event_name (j : json) : outcome string :=
  (j0 <-? json_at j 0 ;; get_string j0)%outcome.

(** [double d = j[1][key]]. *)
Definition number_field (j : json) (key : string) : outcome double :=
  (j1 <-? json_at j 1 ;; f <-? json_field j1 key ;; get_double f)%outcome.

(** [vector<double> v = j[1][key]]. *)
Definition vector_field (j : json) (key : string) : outcome (list double) :=
  (j1 <-? json_at j 1 ;; f <-? json_field j1 key ;; get_vector f)%outcome.

(** Lines 90-101, in the order of the source. *)
Definition read_telemetry (j : json) : outcome telemetry :=
  (px <-? number_field j "x" ;;
   py <-? number_field j "y" ;;
   psi <-? number_field j "psi" ;;
   v <-? number_field j "speed" ;;
   delta <-? number_field j "steering_angle" ;;
   a <-? number_field j "throttle" ;;
   j1 <-? json_at j 1 ;;
   f <-? json_field j1 "ptsx" ;;
   let ptsize := json_size f in
   ptsx <-? vector_field j "ptsx" ;;
   ptsy <-? vector_field j "ptsy" ;;
   Ok {| px := px; py := py; psi := psi; v := v; delta := delta; a := a;
         ptsize := ptsize; ptsx := ptsx; ptsy := ptsy |})%outcome.

(** The body of the loop of lines 110-116 for one waypoint: shift by the
    position of the car, then rotate by [-psi]. *)
Definition car_point (px py psi : double) (wx wy : double) : double * double :=
  let x := wx - px in
  let y := wy - py in
  (x * cos (- psi) - y * sin (- psi), x * sin (- psi) + y * cos (- psi)).

(** [vec[i]] on a [std::vector], at the place [what] of the program: the
    element when there is one; past the end, whatever the read finds. *)
Definition vector_at (what : string) (vec : list double) (i : nat)
  : outcome double :=
  match nth_error vec i with
  | Some x => Ok x
  | None =>
      match stray_read what vec i with
      | Some x => Ok x
      | None => Fail (Fault what)
      end
  end.

(** The loop of lines 110-116 from index [i] on: it runs over the waypoints
    of [ptsx] (of which [rest] are left) and reads [ptsy[i]] unchecked. *)
Fixpoint car_loop (px py psi : double) (i : nat) (rest ptsy : list double)
  : outcome (list double * list double) :=
  match rest with
  | [] => Ok ([], [])
  | wx :: rest' =>
      (wy <-? vector_at "ptsy[i]" ptsy i ;;
       let p := car_point px py psi wx wy in
       more <-? car_loop px py psi (S i) rest' ptsy ;;
       Ok (fst p :: fst more, snd p :: snd more))%outcome
  end.

Definition car_coordinates (px py psi : double) (ptsx ptsy : list double)
  : outcome (list double * list double) :=
  car_loop px py psi 0 ptsx ptsy.

(** Lines 127-137: the tracking errors and the state vector. *)
Definition cte_of (coeffs : list double) : double := polyeval coeffs 0.

Definition epsi_of (coeffs : list double) : double := - atan (nth 1 coeffs 0).

Definition state_vector (coeffs : list double) (v : double) : list double :=
  [0; 0; 0; v; cte_of coeffs; epsi_of coeffs].

(** Lines 157-162: the reference line, [num = 25] points [d = 2.5] apart. *)
Definition next_x_vals : list double :=
  map (fun i => 2.5 * double_of_nat i) (seq 0 25).

Definition next_y_vals (coeffs : list double) : list double :=
  map (fun i => polyeval coeffs (2.5 * double_of_nat i)) (seq 0 25).

(** Lines 164-171: the loop over [result] from index 2; an even index
    appends to [mpc_x_vals], an odd one to [mpc_y_vals]. *)
Fixpoint mpc_loop (i : nat) (rest : list double) (xs ys : list double)
  : list double * list double :=
  match rest with
  | [] => (xs, ys)
  | r :: rest' =>
      if Nat.even i then mpc_loop (S i) rest' (xs ++ [r])%list ys
      else mpc_loop (S i) rest' xs (ys ++ [r])%list
  end.

Definition mpc_vals (result : list double) : list double * list double :=
  mpc_loop 2 (skipn 2 result) [] [].

(** Lines 142-177: the payload of the reply. *)
Definition steer_json (coeffs result : list double) : outcome json :=
  (steer_value <-? vector_at "steer_value = result[0]" result 0 ;;
   throttle_value <-? vector_at "throttle_value = result[1]" result 1 ;;
   let msgJson := obj_set "steering_angle" (JNumber steer_value) [] in
   let msgJson := obj_set "throttle" (JNumber throttle_value) msgJson in
   let mpc_x_vals := fst (mpc_vals result) in
   let mpc_y_vals := snd (mpc_vals result) in
   let msgJson := obj_set "mpc_x" (json_of_vector mpc_x_vals) msgJson in
   let msgJson := obj_set "mpc_y" (json_of_vector mpc_y_vals) msgJson in
   let msgJson := obj_set "next_x" (json_of_vector next_x_vals) msgJson in
   let msgJson :=
     obj_set "next_y" (json_of_vector (next_y_vals coeffs)) msgJson in
   Ok (JObject msgJson))%outcome.

(** Line 179. *)
Definition steer_msg (msgJson : json) : string :=
  "42[" ++ quoted "steer" ++ "," ++ json_dump msgJson ++ "]".

(** Lines 87-194: the branch of the [telemetry] event. *)
Definition on_telemetry (j : json) : M unit :=
  t <- lift (read_telemetry j) ;;
  emit (Loop_transform (ptsize t)) ;;;
  car <- lift (car_coordinates (px t) (py t) (psi t) (ptsx t) (ptsy t)) ;;
  let '(ptsx_car, ptsy_car) := car in
  emit (Call_polyfit (List.length ptsx_car) 3) ;;;
  coeffs <- lift (polyfit ptsx_car ptsy_car 3) ;;
  let state := state_vector coeffs (v t) in
  result <- call_Solve state coeffs ;;
  msgJson <- lift (steer_json coeffs result) ;;
  let msg := steer_msg msgJson in
  angle <- lift (vector_at "cout << result[0]" result 0) ;;
  emit (Cout "Angle: " angle) ;;;
  acc <- lift (vector_at "cout << result[1]" result 1) ;;
  emit (Cout "Acc: " acc) ;;;
  emit (Sleep_for 100) ;;;
  emit (Ws_send msg).

(** Lines 82-201: a frame that passed the guard. *)
Definition on_event_frame (sdata : string) : M unit :=
  let s := hasData sdata in
  if negb (String.eqb s "") then
    emit (Call_parse s) ;;;
    j <- lift (parse s) ;;
    event <- lift (event_name j) ;;
    if String.eqb event "telemetry" then on_telemetry j else ret tt
  else
    emit (Ws_send manual_msg).

(** *** [onMessage] (lines 73-205): one run of the callback on the frame
    [data] (its [length] is the length of [data]), from the optimizer
    object [mpc]. The result is how the run ended, the optimizer object
    after it, and the log. *)
Definition sdata_of (data : string) : string :=
  substr (c_string data) 0 (Z.of_nat (String.length data)).

Definition onMessage (mpc : MPC) (data : string)
  : outcome unit * MPC * list event :=
  let sdata := sdata_of data in
  let '(r, w) :=
    (if is_event_frame sdata then on_event_frame sdata else ret tt)
      (mkWorld mpc [])
  in (r, optimizer w, log w).

End Program.

(* ===================================================================== *)
(** ** The way back from the car's frame *)
(* ===================================================================== *)

Section Inverse.

Context {libm : Libm}.

Local Open Scope float_scope.

(** Modelled from the spec: the inverse transform [transformToWorld], which
    the program does not have: rotate by [psi], then translate by
    [(px, py)], computed in doubles as the transform of lines 111-115 is. *)
Definition transformToWorld (px py psi : double) (cx cy : double)
  : double * double :=
  (cx * cos psi - cy * sin psi + px, cx * sin psi + cy * cos psi + py).

(** The round trip of a point through the car's frame and back. *)
Definition round_trip (px py psi : double) (wx wy : double)
  : double * double :=
  let c := car_point px py psi wx wy in
  transformToWorld px py psi (fst c) (snd c).

End Inverse.

(* ===================================================================== *)
(** ** The real number a double stands for *)
(* ===================================================================== *)

Module RealValue.

Import Rdefinitions Rbasic_fun.

Local Open Scope R_scope.

(** [2^e] for an integer [e]. *)
Definition bpow (e : Z) : R := Rfunctions.powerRZ 2 e.

(** The value of a finite binary64 number [(-1)^s * m * 2^e]; 0 for the
    zeros (and for the infinities and NaN, which have no value: see
    [is_finite]). *)
Definition SF2R (x : spec_float) : R :=
  match x with
  | S754_finite s m e => (if s then -1 else 1) * (IZR (Z.pos m) * bpow e)
  | _ => 0
  end.

Definition B2R (x : double) : R := SF2R (Prim2SF x).

Definition SF_is_finite (x : spec_float) : bool :=
  match x with
  | S754_zero _ | S754_finite _ _ _ => true
  | _ => false
  end.

(** The bounds of the rounding error of one operation: relative, [2^-52],
    and absolute, [2^-1074], the smallest positive double; and a magnitude,
    [2^100], below which no operation overflows. *)
Definition eps : R := / 4503599627370496.

Definition eta : R := bpow (-1074).

Definition huge : R := 1267650600228229401496703205376.

(** A bound of [eta] that is easier to write, [2^-100], and the unit of
    the error bounds of the round trip, [2^-36]. *)
Definition tiny : R := / 1267650600228229401496703205376.

Definition u : R := / 68719476736.

(** The double [f] stands for the real number [r] up to [d], and [r] is at
    most [M] in magnitude. *)
Definition approx (f : double) (r d M : R) : Prop :=
  is_finite f = true /\ Rabs (B2R f - r) <= d /\ Rabs r <= M.

(** [x] is [y] within [tol], as real numbers. *)
Definition within_R (tol : R) (x y : double) : Prop :=
  is_finite x = true /\ Rabs (B2R x - B2R y) <= tol.

(** A coordinate of magnitude at most 32768. *)
Definition in_range (x : double) : Prop :=
  is_finite x = true /\ Rabs (B2R x) <= 32768.

(** What the round trip needs of [cos] and [sin] at the heading [psi]: the
    four values it uses are finite, at most 1 in magnitude, and the
    rotation by [psi] undoes the rotation by [-psi] up to [2^-50]. With
    [c = cos(-psi)], [s = sin(-psi)], [c' = cos(psi)], [s' = sin(psi)],
    the product of the two rotations has the entries [c c' - s s'] and
    [s c' + c s'], which are 1 and 0 for the exact cosine and sine. *)
Definition accurate_at {libm : Libm} (psi : double) : Prop :=
  let c := cos (- psi)%float in
  let s := sin (- psi)%float in
  let c' := cos psi in
  let s' := sin psi in
  (is_finite c = true /\ is_finite s = true
   /\ is_finite c' = true /\ is_finite s' = true)
  /\ (Rabs (B2R c) <= 1 /\ Rabs (B2R s) <= 1
      /\ Rabs (B2R c') <= 1 /\ Rabs (B2R s') <= 1)
  /\ Rabs (B2R c * B2R c' - B2R s * B2R s' - 1) <= / 1125899906842624
  /\ Rabs (B2R s * B2R c' + B2R c * B2R s') <= / 1125899906842624.

End RealValue.

(* ===================================================================== *)
(** ** A reference environment

    Stand-ins for the collaborators, so that the program can be run on
    concrete frames: a JSON reader and printer after RFC 8259, a [libm]
    that has the special values C fixes and short series elsewhere, and a
    solver and an optimizer that return what they are told to.  The
    theorems about the program hold for every environment; this one serves
    the concrete runs. *)
(* ===================================================================== *)

Module Sample.

Local Open Scope char_scope.

(** *** Decimal numerals to doubles, correctly rounded *)

Definition double_of_Z (z : Z) : double :=
  SF2Prim (binary_normalize prec emax z 0 false).

(** The double nearest to [digits * 10^exp10], negated when [negative]. *)
Definition double_of_decimal (negative : bool) (digits exp10 : Z) : double :=
  let signed (m : Z) := if negative then (- m)%Z else m in
  if (digits =? 0)%Z then (if negative then (- 0)%float else 0%float)
  else if (0 <=? exp10)%Z then double_of_Z (signed (digits * 10 ^ exp10)%Z)
  else
    let den := (10 ^ (- exp10))%Z in
    let s := Z.max 0 (66 + Z.log2 den - Z.log2 digits) in
    let num := (digits * 2 ^ s)%Z in
    let sticky := if (num mod den =? 0)%Z then 0%Z else 1%Z in
    SF2Prim (binary_normalize prec emax
               (signed (2 * (num / den) + sticky)%Z) (- s - 1) false).

(** *** Reading JSON text *)

Definition is_ws (c : ascii) : bool :=
  match nat_of_ascii c with
  | 32 | 9 | 10 | 13 => true
  | _ => false
  end.

Fixpoint skip_ws (cs : list ascii) : list ascii :=
  match cs with
  | c :: rest => if is_ws c then skip_ws rest else cs
  | [] => []
  end.

Definition digit_of (c : ascii) : option Z :=
  let n := nat_of_ascii c in
  if (48 <=? n)%nat && (n <=? 57)%nat then Some (Z.of_nat (n - 48)) else None.

Definition hex_of (c : ascii) : option N :=
  let n := N_of_ascii c in
  if (48 <=? n)%N && (n <=? 57)%N then Some (n - 48)%N
  else if (65 <=? n)%N && (n <=? 70)%N then Some (n - 55)%N
  else if (97 <=? n)%N && (n <=? 102)%N then Some (n - 87)%N
  else None.

(** A run of digits, appended to [acc]; the count of digits read. *)
Fixpoint read_digits (cs : list ascii) (acc : Z) (count : nat)
  : Z * nat * list ascii :=
  match cs with
  | c :: rest =>
      match digit_of c with
      | Some d => read_digits rest (10 * acc + d)%Z (S count)
      | None => (acc, count, cs)
      end
  | [] => (acc, count, [])
  end.

(** [-? int frac? exp?]; an integer literal is read as an integer (so
    [-0] is [+0.0]), anything else as a decimal. *)
Definition read_number (cs : list ascii) : option (double * list ascii) :=
  let '(negative, cs0) :=
    match cs with
    | "-" :: rest => (true, rest)
    | _ => (false, cs)
    end in
  let '(int_part, n_int, cs1) := read_digits cs0 0 0 in
  let leading_zero :=
    match cs0 with
    | "0" :: _ => true
    | _ => false
    end in
  if (n_int =? 0)%nat || (leading_zero && (1 <? n_int)%nat) then None
  else
    let frac :=
      match cs1 with
      | "." :: rest =>
          let '(m, k, cs2) := read_digits rest int_part 0 in
          if (k =? 0)%nat then None else Some (m, k, cs2, true)
      | _ => Some (int_part, O, cs1, false)
      end in
    match frac with
    | None => None
    | Some (mant, n_frac, cs2, has_frac) =>
        let expo :=
          match cs2 with
          | c :: rest =>
              if Ascii.eqb c "e" || Ascii.eqb c "E" then
                let '(eneg, rest') :=
                  match rest with
                  | "-" :: r => (true, r)
                  | "+" :: r => (false, r)
                  | _ => (false, rest)
                  end in
                let '(e, k, cs3) := read_digits rest' 0 0 in
                if (k =? 0)%nat then None
                else Some (if eneg then (- e)%Z else e, cs3, true)
              else Some (0%Z, cs2, false)
          | [] => Some (0%Z, cs2, false)
          end in
        match expo with
        | None => None
        | Some (e, cs3, has_exp) =>
            if has_frac || has_exp then
              Some (double_of_decimal negative mant (e - Z.of_nat n_frac), cs3)
            else
              Some (double_of_Z (if negative then (- mant)%Z else mant), cs3)
        end
    end.

(** The UTF-8 bytes of a code point of the basic plane (no surrogates). *)
Definition utf8 (cp : N) : option (list ascii) :=
  if (cp <? 128)%N then Some [ascii_of_N cp]
  else if (cp <? 2048)%N then
    Some [ascii_of_N (192 + cp / 64); ascii_of_N (128 + cp mod 64)]
  else if (55296 <=? cp)%N && (cp <=? 57343)%N then None
  else
    Some [ascii_of_N (224 + cp / 4096);
          ascii_of_N (128 + (cp / 64) mod 64);
          ascii_of_N (128 + cp mod 64)].

Definition unescape (c : ascii) : option ascii :=
  match c with
  | "034" => Some "034"
  | "\" => Some "\"
  | "/" => Some "/"
  | "b" => Some "008"
  | "f" => Some "012"
  | "n" => Some "010"
  | "r" => Some "013"
  | "t" => Some "009"
  | _ => None
  end.

(** The characters of a string literal after its opening quote. *)
Fixpoint read_chars (cs : list ascii) (acc : list ascii)
  : option (string * list ascii) :=
  match cs with
  | [] => None
  | c :: rest =>
      if Ascii.eqb c "034" then Some (string_of_list_ascii (rev acc), rest)
      else if Ascii.eqb c "\" then
        match rest with
        | "u" :: h1 :: h2 :: h3 :: h4 :: rest' =>
            match hex_of h1, hex_of h2, hex_of h3, hex_of h4 with
            | Some a, Some b, Some c', Some d =>
                match utf8 (((a * 16 + b) * 16 + c') * 16 + d)%N with
                | Some bytes => read_chars rest' (rev bytes ++ acc)%list
                | None => None
                end
            | _, _, _, _ => None
            end
        | e :: rest' =>
            match unescape e with
            | Some c' => read_chars rest' (c' :: acc)
            | None => None
            end
        | [] => None
        end
      else if (nat_of_ascii c <? 32)%nat then None
      else read_chars rest (c :: acc)
  end.

Fixpoint read_value (fuel : nat) (cs : list ascii) {struct fuel}
  : option (json * list ascii) :=
  match fuel with
  | O => None
  | S fuel' =>
      match skip_ws cs with
      | "n" :: "u" :: "l" :: "l" :: rest => Some (JNull, rest)
      | "t" :: "r" :: "u" :: "e" :: rest => Some (JBool true, rest)
      | "f" :: "a" :: "l" :: "s" :: "e" :: rest => Some (JBool false, rest)
      | "034" :: rest =>
          match read_chars rest [] with
          | Some (s, rest') => Some (JString s, rest')
          | None => None
          end
      | "[" :: rest =>
          match skip_ws rest with
          | "]" :: rest' => Some (JArray [], rest')
          | rest0 => read_elements fuel' rest0 []
          end
      | "{" :: rest =>
          match skip_ws rest with
          | "}" :: rest' => Some (JObject [], rest')
          | rest0 => read_members fuel' rest0 []
          end
      | cs' =>
          match read_number cs' with
          | Some (d, rest) => Some (JNumber d, rest)
          | None => None
          end
      end
  end

with read_elements (fuel : nat) (cs : list ascii) (acc : list json)
  {struct fuel} : option (json * list ascii) :=
  match fuel with
  | O => None
  | S fuel' =>
      match read_value fuel' cs with
      | None => None
      | Some (item, rest) =>
          match skip_ws rest with
          | "," :: rest' => read_elements fuel' rest' (acc ++ [item])%list
          | "]" :: rest' => Some (JArray (acc ++ [item])%list, rest')
          | _ => None
          end
      end
  end

with read_members (fuel : nat) (cs : list ascii)
  (acc : list (string * json)) {struct fuel} : option (json * list ascii) :=
  match fuel with
  | O => None
  | S fuel' =>
      match skip_ws cs with
      | "034" :: rest =>
          match read_chars rest [] with
          | None => None
          | Some (key, rest1) =>
              match skip_ws rest1 with
              | ":" :: rest2 =>
                  match read_value fuel' rest2 with
                  | None => None
                  | Some (item, rest3) =>
                      let acc' := obj_set key item acc in
                      match skip_ws rest3 with
                      | "," :: rest4 => read_members fuel' rest4 acc'
                      | "}" :: rest4 => Some (JObject acc', rest4)
                      | _ => None
                      end
                  end
              | _ => None
              end
          end
      | _ => None
      end
  end.

(** A whole text: one value, then nothing but blanks. *)
Definition read_json (s : string) : option json :=
  let cs := list_ascii_of_string s in
  match read_value (2 * List.length cs + 2) cs with
  | Some (j, rest) =>
      match skip_ws rest with
      | [] => Some j
      | _ => None
      end
  | None => None
  end.

(** *** Printing JSON text *)

Definition decimal_of_N (n : N) : string :=
  NilZero.string_of_uint (N.to_uint n).

Fixpoint strip_zeros (rev_digits : list ascii) : list ascii :=
  match rev_digits with
  | "0" :: rest => strip_zeros rest
  | _ => rev_digits
  end.

(** [n / 10^k] written out in full. *)
Definition decimal_fraction (n : N) (k : nat) : string :=
  let digits := list_ascii_of_string (decimal_of_N n) in
  let padded := (repeat "0" (S k - List.length digits) ++ digits)%list in
  let int_len := (List.length padded - k)%nat in
  let frac := rev (strip_zeros (rev (skipn int_len padded))) in
  let frac := match frac with [] => ["0"] | _ => frac end in
  (string_of_list_ascii (firstn int_len padded) ++ "."
   ++ string_of_list_ascii frac)%string.

(** A finite double in full decimal expansion; [null] otherwise. *)
Definition write_double (d : double) : string :=
  match Prim2SF d with
  | S754_zero false => "0.0"%string
  | S754_zero true => "-0.0"%string
  | S754_finite negative m e =>
      ((if negative then "-" else "")
       ++ match e with
          | Zneg k => decimal_fraction (Npos m * 5 ^ Npos k) (Pos.to_nat k)
          | _ => decimal_of_N (Npos m * 2 ^ Z.to_N e) ++ ".0"
          end)%string
  | _ => "null"%string
  end.

Fixpoint write_chars (s : string) : string :=
  match s with
  | EmptyString => EmptyString
  | String c rest =>
      if Ascii.eqb c "034" || Ascii.eqb c "\"
      then String "\" (String c (write_chars rest))
      else String c (write_chars rest)
  end.

Fixpoint write_json (j : json) : string :=
  match j with
  | JNull => "null"
  | JBool true => "true"
  | JBool false => "false"
  | JNumber d => write_double d
  | JString s => quoted (write_chars s)
  | JArray items =>
      let fix go (l : list json) : string :=
        match l with
        | [] => ""
        | [x] => write_json x
        | x :: rest => write_json x ++ "," ++ go rest
        end in
      "[" ++ go items ++ "]"
  | JObject members =>
      let fix go (l : list (string * json)) : string :=
        match l with
        | [] => ""
        | [(k, x)] => quoted (write_chars k) ++ ":" ++ write_json x
        | (k, x) :: rest =>
            quoted (write_chars k) ++ ":" ++ write_json x ++ "," ++ go rest
        end in
      "{" ++ go members ++ "}"
  end%string.

(** *** A small [libm] *)

Local Open Scope float_scope.

Definition is_pos_zero (x : double) : bool :=
  match Prim2SF x with
  | S754_zero false => true
  | _ => false
  end.

(** The integer a double is, when it is one of moderate size. *)
Definition integer_of (y : double) : option Z :=
  match Prim2SF y with
  | S754_zero _ => Some 0%Z
  | S754_finite negative m e =>
      let signed (z : Z) := if negative then (- z)%Z else z in
      match e with
      | Zneg k =>
          if (Zpos m mod 2 ^ Zpos k =? 0)%Z
          then Some (signed (Zpos m / 2 ^ Zpos k)%Z)
          else None
      | _ => None
      end
  | _ => None
  end.

(** [x] multiplied [n] times into 1. *)
Definition power (x : double) (n : positive) : double :=
  Pos.iter (fun r => r * x) 1 n.

(** [pow]: the special values of C11 F.10.4.4 that the laws of [Libm] name,
    repeated multiplication for the other integer exponents, and NaN for
    an exponent that is not an integer (the program raises to the
    exponents 0, 1, 2, ... only). *)
Definition sample_pow (x y : double) : double :=
  match Prim2SF y with
  | S754_zero _ => 1
  | _ =>
      if is_pos_zero x && (0 <? y) then 0
      else
        match integer_of y with
        | Some (Zpos n) => power x n
        | Some (Zneg n) => 1 / power x n
        | _ => nan
        end
  end.

(** Short series around 0: exact at [+0] and [-0] (1 for [cos], the
    argument itself for [sin] and [atan]), approximate elsewhere. *)
Definition sample_cos (x : double) : double :=
  let x2 := x * x in
  1 - x2 / 2 + x2 * x2 / 24 - x2 * x2 * x2 / 720.

Definition sample_sin (x : double) : double :=
  let x2 := x * x in
  x * (1 - x2 / 6 + x2 * x2 / 120 - x2 * x2 * x2 / 5040).

Definition sample_atan (x : double) : double :=
  let x2 := x * x in
  x * (1 - x2 / 3 + x2 * x2 / 5 - x2 * x2 * x2 / 7).

Lemma sample_pow_zero_exponent (x : double) : sample_pow x 0 = 1.
Proof. reflexivity. Qed.

Lemma sample_pow_zero_base (y : double) :
  (0 <? y) = true -> sample_pow 0 y = 0.
Proof.
  intros Hy. unfold sample_pow.
  assert (Hlt := Hy). rewrite ltb_spec in Hlt.
  destruct (Prim2SF y) eqn:Ey; try (now rewrite Hy).
  now destruct s.
Qed.

#[export] Instance libm : Libm := {|
  cos := sample_cos;
  sin := sample_sin;
  atan := sample_atan;
  pow := sample_pow;
  cos_pos_zero := eq_refl;
  cos_neg_zero := eq_refl;
  sin_pos_zero := eq_refl;
  sin_neg_zero := eq_refl;
  pow_zero_exponent := sample_pow_zero_exponent;
  pow_zero_base := sample_pow_zero_base
|}.

(** *** A solver and an optimizer that answer as told *)

(** [fit], cut or padded with zeros to one entry per column of [A]. *)
Definition told_fit (fit : list double) (A : list (list double))
  (b : list double) : list double :=
  let n := List.length (hd [] A) in
  firstn n (fit ++ repeat 0 n)%list.

Lemma told_fit_size fit A b :
  List.length (told_fit fit A b) = List.length (hd [] A).
Proof.
  unfold told_fit. rewrite length_firstn, length_app, repeat_length. lia.
Qed.

(** The memory past the end of a vector: an empty vector has no storage,
    so a read from it faults; past the end of a non-empty one the memory
    holds zeros. *)
Definition sample_stray (what : string) (vec : list double) (i : nat)
  : option double :=
  match vec with
  | [] => None
  | _ :: _ => Some 0%float
  end.

(** The environment in which the solver returns [fit] and the optimizer,
    which counts its calls, returns [result]. *)
Definition externals (fit result : list double) : Externals := {|
  json_parse := read_json;
  json_dump := write_json;
  householderQr_solve := told_fit fit;
  householderQr_solve_size := told_fit_size fit;
  MPC := nat;
  Solve := fun calls _ _ => (result, S calls);
  stray_read := sample_stray
|}.

(** *** Frames *)

Local Open Scope string_scope.

Fixpoint commas (items : list string) : string :=
  match items with
  | [] => ""
  | [x] => x
  | x :: rest => x ++ "," ++ commas rest
  end.

(** The text of a [telemetry] frame with the given numerals; [extra] is
    more members, each followed by a comma. *)
Definition telemetry_frame (extra : string) (ptsx ptsy : list string)
  (psi x y steering_angle throttle speed : string) : string :=
  "42[" ++ quoted "telemetry" ++ ",{" ++ extra
  ++ quoted "ptsx" ++ ":[" ++ commas ptsx ++ "],"
  ++ quoted "ptsy" ++ ":[" ++ commas ptsy ++ "],"
  ++ quoted "psi" ++ ":" ++ psi ++ ","
  ++ quoted "x" ++ ":" ++ x ++ ","
  ++ quoted "y" ++ ":" ++ y ++ ","
  ++ quoted "steering_angle" ++ ":" ++ steering_angle ++ ","
  ++ quoted "throttle" ++ ":" ++ throttle ++ ","
  ++ quoted "speed" ++ ":" ++ speed ++ "}]".

(** Four waypoints on the line [y = 0.5], seen from the origin with
    heading 0; the best cubic through them is the constant 0.5. *)
Definition frame4 : string :=
  telemetry_frame "" ["0"; "1"; "2"; "3"] ["0.5"; "0.5"; "0.5"; "0.5"]
    "0" "0" "0" "0.01" "0.3" "12.5".

Definition fit4 : list double := [0.5; 0; 0; 0]%float.


(** What the callback reads from [frame4]. *)
Definition telemetry4 : telemetry := {|
  px := 0; py := 0; psi := 0; v := 12.5; delta := 0.01; a := 0.3;
  ptsize := 4;
  ptsx := [0; 1; 2; 3];
  ptsy := [0.5; 0.5; 0.5; 0.5]
|}%float.

(** The same with three waypoints only. *)
Definition frame3 : string :=
  telemetry_frame "" ["0"; "1"; "2"] ["0.5"; "0.5"; "0.5"]
    "0" "0" "0" "0.01" "0.3" "12.5".

(** [frame4] with one more member, a string in which [null] occurs. *)
Definition frame4_tagged : string :=
  telemetry_frame (quoted "tag" ++ ":" ++ quoted "nullable" ++ ",")
    ["0"; "1"; "2"; "3"] ["0.5"; "0.5"; "0.5"; "0.5"]
    "0" "0" "0" "0.01" "0.3" "12.5".


(** A telemetry frame whose payload has no member. *)
Definition frame_empty : string := "42[" ++ quoted "telemetry" ++ ",{}]".

End Sample.


(* ===================================================================== *)
(** ** More frames *)
(* ===================================================================== *)

Module Frames.

(** A frame that names another event. *)
Definition other_event : string := "42[" ++ quoted "steer" ++ ",{}]".

(** [frame4] followed by a NUL byte and more characters. *)
Definition with_nul : string :=
  Sample.frame4 ++ String Ascii.zero (quoted "null" ++ "}]").

(** A text whose last ["}]"] comes before its first ['['], and one where
    the two touch. *)
Definition wrapped : string := "42}]x[abc".

Definition adjacent : string := "42}][".

End Frames.

(* ===================================================================== *)
(** ** The rest of [main.cpp] *)
(* ===================================================================== *)

(** [pi()] (line 16): the constant [M_PI] of [<math.h>]. *)
Definition pi : double := 3.14159265358979323846%float.

(** [deg2rad] and [rad2deg] (lines 17-18); [180] is converted to double,
    and the operations associate to the left. *)
Definition deg2rad (x : double) : double := (x * pi / 180)%float.

Definition rad2deg (x : double) : double := (x * 180 / pi)%float.

(** The callback of [onHttpRequest] (lines 210-219): what [res->end] is
    given for a request whose URL is [url]. *)
Definition hello_page : string := "<h1>Hello world!</h1>".

Definition onHttpRequest (url : string) : string :=
  if (String.length url =? 1)%nat then hello_page else "".

(* ===================================================================== *)
(** ** The vocabulary of the statements *)
(* ===================================================================== *)

(** The members the callback reads from the payload. *)
Definition required_fields : list string :=
  ["x"; "y"; "psi"; "speed"; "steering_angle"; "throttle"; "ptsx"; "ptsy"].

(** The elements of [result] at the even indices from 2 on, in order, and
    those at the odd indices from 3 on. *)
Definition even_slots (result : list double) : list double :=
  map (fun k => nth (2 + 2 * k) result 0%float)
      (seq 0 ((List.length result - 1) / 2)).

Definition odd_slots (result : list double) : list double :=
  map (fun k => nth (3 + 2 * k) result 0%float)
      (seq 0 ((List.length result - 2) / 2)).

(** A list dealt out in turns to two lists. *)
Fixpoint deal (l : list double) : list double * list double :=
  match l with
  | [] => ([], [])
  | [x] => ([x], [])
  | x :: y :: rest => (x :: fst (deal rest), y :: snd (deal rest))
  end.

(** Two lists taken in turns, the first one first; when one runs out, what
    is left of the other. *)
Fixpoint interleave (xs ys : list double) : list double :=
  match xs, ys with
  | x :: xs', y :: ys' => x :: y :: interleave xs' ys'
  | _, _ => (xs ++ ys)%list
  end.

(** The number of messages a log sends, and of optimizer calls in it. *)
Definition is_send (e : event) : bool :=
  match e with
  | Ws_send _ => true
  | _ => false
  end.

Definition is_Solve (e : event) : bool :=
  match e with
  | Call_Solve _ _ => true
  | _ => false
  end.

Definition count (p : event -> bool) (log : list event) : nat :=
  List.length (filter p log).

(** The abscissas 0, 2.5, 5.0, ..., 60.0. *)
Definition reference_xs : list double :=
  [0; 2.5; 5; 7.5; 10; 12.5; 15; 17.5; 20; 22.5; 25; 27.5; 30; 32.5; 35;
   37.5; 40; 42.5; 45; 47.5; 50; 52.5; 55; 57.5; 60]%float.

(** The time at which a run first sends, counted from its start, when
    the step [e] takes [dur e]. *)
Fixpoint send_time (dur : event -> Z) (log : list event) : option Z :=
  match log with
  | [] => None
  | Ws_send _ :: _ => Some 0%Z
  | e :: rest =>
      match send_time dur rest with
      | Some tm => Some (dur e + tm)%Z
      | None => None
      end
  end.

(** [pat] occurs in [s] at [m] and nowhere before, or nowhere after. *)
Definition first_occurrence (pat s : string) (m : nat) : Prop :=
  occurs_at pat s m /\ forall k, (k < m)%nat -> ~ occurs_at pat s k.

Definition last_occurrence (pat s : string) (m : nat) : Prop :=
  occurs_at pat s m /\ forall k, (m < k)%nat -> ~ occurs_at pat s k.

Section Vocabulary.

Context {libm : Libm} {ext : Externals}.

(** The log of a run that answers a telemetry event. *)
Definition steer_log (s : string) (t : telemetry) (n : nat)
  (coeffs result : list double) (msg : string) : list event :=
  [Call_parse s; Loop_transform (ptsize t); Call_polyfit n 3;
   Call_Solve (state_vector coeffs (v t)) coeffs;
   Cout "Angle: " (nth 0 result 0%float); Cout "Acc: " (nth 1 result 0%float);
   Sleep_for 100; Ws_send msg].

(** The same with the two printed values named, for the runs in which the
    optimizer's answer is too short to hold them. *)
Definition reply_log (s : string) (t : telemetry) (n : nat)
  (coeffs : list double) (angle acc : double) (msg : string) : list event :=
  [Call_parse s; Loop_transform (ptsize t); Call_polyfit n 3;
   Call_Solve (state_vector coeffs (v t)) coeffs;
   Cout "Angle: " angle; Cout "Acc: " acc;
   Sleep_for 100; Ws_send msg].


(** A frame the callback takes for a telemetry event and decodes to [t]. *)
Definition decodes_to (data : string) (s : string) (t : telemetry) : Prop :=
  is_event_frame (sdata_of data) = true /\
  hasData (sdata_of data) = s /\ s <> "" /\
  exists j, json_parse s = Some j /\
            event_name j = Ok "telemetry" /\
            read_telemetry j = Ok t.

(** The steps of a run up to the optimizer's answer. *)
Definition fits_to (t : telemetry) (n : nat) (coeffs : list double) : Prop :=
  exists car,
    car_coordinates (px t) (py t) (psi t) (ptsx t) (ptsy t) = Ok car /\
    n = List.length (fst car) /\
    polyfit (fst car) (snd car) 3 = Ok coeffs.

(** The shapes a run can have, by the step it stops at. *)
Inductive run_shape (mpc : MPC) (data : string)
  : outcome unit -> MPC -> list event -> Prop :=
| Run_ignored :
    is_event_frame (sdata_of data) = false ->
    run_shape mpc data (Ok tt) mpc []
| Run_manual :
    is_event_frame (sdata_of data) = true ->
    hasData (sdata_of data) = "" ->
    run_shape mpc data (Ok tt) mpc [Ws_send manual_msg]
| Run_not_read (s : string) (f : failure) :
    is_event_frame (sdata_of data) = true ->
    hasData (sdata_of data) = s -> s <> "" ->
    run_shape mpc data (Fail f) mpc [Call_parse s]
| Run_other_event (s : string) :
    is_event_frame (sdata_of data) = true ->
    hasData (sdata_of data) = s -> s <> "" ->
    run_shape mpc data (Ok tt) mpc [Call_parse s]
| Run_not_transformed (s : string) (t : telemetry) (f : failure) :
    decodes_to data s t ->
    run_shape mpc data (Fail f) mpc
      [Call_parse s; Loop_transform (ptsize t)]
| Run_not_fitted (s : string) (t : telemetry) (n : nat) (f : failure) :
    decodes_to data s t ->
    run_shape mpc data (Fail f) mpc
      [Call_parse s; Loop_transform (ptsize t); Call_polyfit n 3]
| Run_not_answered (s : string) (t : telemetry) (n : nat)
    (coeffs result : list double) (mpc' : MPC) (f : failure) :
    decodes_to data s t -> fits_to t n coeffs ->
    Solve mpc (state_vector coeffs (v t)) coeffs = (result, mpc') ->
    run_shape mpc data (Fail f) mpc'
      [Call_parse s; Loop_transform (ptsize t); Call_polyfit n 3;
       Call_Solve (state_vector coeffs (v t)) coeffs]
| Run_half_printed (s : string) (t : telemetry) (n : nat)
    (coeffs result : list double) (mpc' : MPC) (payload : json)
    (angle : double) (f : failure) :
    decodes_to data s t -> fits_to t n coeffs ->
    Solve mpc (state_vector coeffs (v t)) coeffs = (result, mpc') ->
    steer_json coeffs result = Ok payload ->
    run_shape mpc data (Fail f) mpc'
      [Call_parse s; Loop_transform (ptsize t); Call_polyfit n 3;
       Call_Solve (state_vector coeffs (v t)) coeffs; Cout "Angle: " angle]
| Run_steer (s : string) (t : telemetry) (n : nat)
    (coeffs result : list double) (mpc' : MPC) (payload : json)
    (angle acc : double) :
    decodes_to data s t -> fits_to t n coeffs ->
    Solve mpc (state_vector coeffs (v t)) coeffs = (result, mpc') ->
    steer_json coeffs result = Ok payload ->
    ((2 <= List.length result)%nat ->
     angle = nth 0 result 0%float /\ acc = nth 1 result 0%float) ->
    run_shape mpc data (Ok tt) mpc'
      (reply_log s t n coeffs angle acc (steer_msg payload)).

End Vocabulary.

(* ===================================================================== *)
(** ** Facts about doubles *)
(* ===================================================================== *)

Section DoubleFacts.

Local Open Scope float_scope.

Lemma Prim2SF_zero : Prim2SF 0 = S754_zero false.
Proof. reflexivity. Qed.

Lemma Prim2SF_one : Prim2SF 1 = S754_finite false 4503599627370496 (-52).
Proof. reflexivity. Qed.

(** Appending 52 zero bits to a mantissa adds 52 to its number of digits. *)
Lemma digits2_shift52 (m : positive) :
  Z.pos (digits2_pos (Pos.mul 4503599627370496 m))
  = (Z.pos (digits2_pos m) + 52)%Z.
Proof.
  cbn [Pos.mul digits2_pos].
  rewrite !Pos2Z.inj_succ. lia.
Qed.

(** Multiplying a binary64 number by 1 rounds nothing away. *)
Lemma SF64mul_one_r (x : spec_float) :
  valid_binary x = true ->
  SF64mul x (S754_finite false 4503599627370496 (-52)) = x.
Proof.
  destruct x as [s | s | | s m e]; intros Hv; try reflexivity.
  - cbn. now destruct s.
  - cbn. now destruct s.
  - unfold SF64mul, SFmul.
    rewrite xorb_false_r, Pos.mul_comm.
    unfold valid_binary, SpecFloat.valid_binary, bounded, canonical_mantissa in Hv.
    apply andb_true_iff in Hv. destruct Hv as [Hc Hb].
    apply Z.eqb_eq in Hc.
    unfold binary_round_aux, shr_fexp.
    unfold Zdigits2 at 1. rewrite digits2_shift52.
    replace (Z.pos (digits2_pos m) + 52 + (e + -52))%Z
      with (Z.pos (digits2_pos m) + e)%Z by lia.
    rewrite Hc.
    replace (e - (e + -52))%Z with 52%Z by lia.
    cbn [shr shr_record_of_loc Pos.mul iter_pos shr_1 orb shr_m
         loc_of_shr_record round_nearest_even].
    replace (e + -52 + 52)%Z with e by lia.
    cbn [Zdigits2]. rewrite Hc, Z.sub_diag. cbn [shr shr_m].
    now rewrite Hb.
Qed.

Lemma mul_one_r (x : double) : x * 1 = x.
Proof.
  apply Prim2SF_inj. rewrite mul_spec, Prim2SF_one.
  apply SF64mul_one_r, Prim2SF_valid.
Qed.

Lemma mul_zero_r (x : double) : is_finite x = true -> is_zero (x * 0) = true.
Proof.
  unfold is_finite, is_zero. rewrite mul_spec, Prim2SF_zero.
  destruct (Prim2SF x); try discriminate; reflexivity.
Qed.

Lemma add_zero_l (x : double) : 0 + x = if is_zero x then 0 else x.
Proof.
  apply Prim2SF_inj. unfold is_zero. rewrite add_spec, Prim2SF_zero.
  destruct (Prim2SF x) as [s | s | | s m e] eqn:Ex;
    rewrite ?Prim2SF_zero, ?Ex; try reflexivity.
  now destruct s.
Qed.

Lemma add_zero_r (x z : double) :
  is_zero x = false -> is_zero z = true -> x + z = x.
Proof.
  unfold is_zero. intros Hx Hz. apply Prim2SF_inj. rewrite add_spec.
  destruct (Prim2SF z); try discriminate.
  destruct (Prim2SF x); try discriminate; reflexivity.
Qed.

Lemma double_eq_zero (x : double) : is_zero x = true -> double_eq 0 x = true.
Proof.
  unfold is_zero, double_eq. rewrite eqb_spec, Prim2SF_zero.
  destruct (Prim2SF x); try discriminate. reflexivity.
Qed.

Lemma double_eq_refl (x : double) : is_nan x = false -> double_eq x x = true.
Proof.
  unfold is_nan, double_eq. rewrite eqb_spec.
  destruct (Prim2SF x) as [s | s | | s m e]; try discriminate; intros _.
  - reflexivity.
  - now destruct s.
  - unfold SFeqb, SFcompare.
    change (PosDef.Pos.compare_cont Eq m m) with (Pos.compare m m).
    destruct s; rewrite Z.compare_refl, Pos.compare_refl; reflexivity.
Qed.

End DoubleFacts.

(* ===================================================================== *)
(** ** Facts about the string operations *)
(* ===================================================================== *)

Section StringFacts.

Lemma find_none_iff (pat s : string) :
  pat <> "" -> (find pat s = None <-> ~ contains pat s).
Proof.
  intros Hpat. unfold find, contains, occurs_at. split.
  - intros Hnone [m Hm].
    exact (index_correct3 0 m pat s Hnone Hpat (Nat.le_0_l m) Hm).
  - intros Hno. destruct (index 0 pat s) as [m |] eqn:E; [| reflexivity].
    exfalso. apply Hno. exists m. exact (index_correct1 _ _ _ _ E).
Qed.

Lemma substring_tail (c : ascii) (s : string) (m n : nat) :
  substring (S m) n (String c s) = substring m n s.
Proof. reflexivity. Qed.

Lemma rfind_from_occurs (pat s : string) (i k : nat) :
  rfind_from pat s i = Some k -> exists m, k = i + m /\ occurs_at pat s m.
Proof.
  revert i k. induction s as [| c s IH]; intros i k; cbn [rfind_from].
  - destruct (prefix pat "") eqn:P; [| discriminate].
    intros [= <-]. exists 0. split; [lia |]. now apply prefix_correct.
  - destruct (rfind_from pat s (S i)) as [k' |] eqn:E.
    + intros [= <-]. destruct (IH _ _ E) as (m & -> & Hm).
      exists (S m). split; [lia |]. exact Hm.
    + destruct (prefix pat (String c s)) eqn:P; [| discriminate].
      intros [= <-]. exists 0. split; [lia |]. now apply prefix_correct.
Qed.

Lemma rfind_none (pat s : string) : ~ contains pat s -> rfind pat s = None.
Proof.
  intros Hno. unfold rfind. destruct (rfind_from pat s 0) as [k |] eqn:E.
  - exfalso. apply Hno. destruct (rfind_from_occurs _ _ _ _ E) as (m & _ & Hm).
    now exists m.
  - reflexivity.
Qed.

(** What [hasData] takes for "no payload". *)
Lemma hasData_sniff (s : string) :
  contains "null" s \/ ~ contains "[" s \/ ~ contains "}]" s ->
  hasData s = "".
Proof.
  unfold hasData. intros H.
  destruct (find "null" s) eqn:Enull; [reflexivity |].
  destruct H as [H | [H | H]].
  - apply find_none_iff in Enull; [contradiction | discriminate].
  - apply find_none_iff in H; [| discriminate]. now rewrite H.
  - apply rfind_none in H. rewrite H. now destruct (find "[" s).
Qed.

(** The prefix [42] holds none of the characters [hasData] looks for. *)
Lemma contains_after_42 (pat rest : string) :
  contains pat rest -> contains pat ("42" ++ rest).
Proof. intros [m Hm]. exists (S (S m)). exact Hm. Qed.

Lemma lacks_bracket_after_42 (rest : string) :
  ~ contains "[" rest -> ~ contains "[" ("42" ++ rest).
Proof.
  intros Hno [m Hm]. unfold occurs_at in Hm.
  destruct m as [| [| m]].
  - destruct rest; discriminate.
  - destruct rest; discriminate.
  - apply Hno. now exists m.
Qed.

Lemma lacks_close_after_42 (rest : string) :
  ~ contains "}]" rest -> ~ contains "}]" ("42" ++ rest).
Proof.
  intros Hno [m Hm]. unfold occurs_at in Hm.
  destruct m as [| [| m]].
  - destruct rest; discriminate.
  - destruct rest as [| c [| c' rest]]; discriminate.
  - apply Hno. now exists m.
Qed.

Lemma substring_whole (s : string) : substring 0 (String.length s) s = s.
Proof. induction s as [| c s IH]; cbn; [reflexivity | now rewrite IH]. Qed.

(** A frame without a NUL byte is read as it is. *)
Lemma sdata_of_plain (data : string) :
  c_string data = data ->
  (Z.of_nat (String.length data) < 2 ^ 64)%Z ->
  sdata_of data = data.
Proof.
  intros Hc Hlen. unfold sdata_of, substr, size_t. rewrite Hc.
  rewrite Z.mod_small by lia.
  rewrite Nat.sub_0_r, Z.min_id, Nat2Z.id. apply substring_whole.
Qed.

Lemma is_event_frame_42 (rest : string) :
  rest <> "" -> is_event_frame ("42" ++ rest) = true.
Proof. destruct rest; [congruence | reflexivity]. Qed.

Lemma is_event_frame_inv (sdata : string) :
  is_event_frame sdata = true ->
  exists rest, sdata = "42" ++ rest /\ rest <> "".
Proof.
  unfold is_event_frame.
  destruct sdata as [| c0 [| c1 [| c2 rest]]]; try discriminate.
  cbn. intros H. apply andb_true_iff in H. destruct H as [H0 H1].
  apply Ascii.eqb_eq in H0, H1. subst.
  exists (String c2 rest). split; [reflexivity | discriminate].
Qed.

Lemma substring_nothing (m : nat) (s : string) : substring m 0 s = "".
Proof.
  revert m. induction s as [| c s IH]; intros [| m]; cbn; auto.
Qed.

Lemma substring_length_le (m n : nat) (s : string) :
  (String.length (substring m n s) <= String.length s - m)%nat.
Proof.
  revert m n. induction s as [| c s IH]; intros m n.
  - destruct m, n; cbn; lia.
  - destruct m as [| m]; cbn.
    + destruct n as [| n]; cbn; [lia |]. specialize (IH 0%nat n). lia.
    + apply IH.
Qed.

Lemma substring_length (m n : nat) (s : string) :
  (m + n <= String.length s)%nat -> String.length (substring m n s) = n.
Proof.
  revert m n. induction s as [| c s IH]; intros m n Hlen; cbn in Hlen.
  - destruct m, n; cbn; lia.
  - destruct m as [| m]; cbn.
    + destruct n as [| n]; cbn; [reflexivity |]. rewrite IH; lia.
    + apply IH. lia.
Qed.

Lemma substring_substring (m n i k : nat) (s : string) :
  (i + k <= n)%nat ->
  substring i k (substring m n s) = substring (m + i) k s.
Proof.
  revert m n i k. induction s as [| c s IH]; intros m n i k Hik.
  - destruct m, n, i, k; reflexivity.
  - destruct m as [| m].
    + destruct n as [| n].
      * assert (i = 0 /\ k = 0)%nat as [-> ->] by lia. reflexivity.
      * cbn [substring Nat.add]. destruct i as [| i].
        -- destruct k as [| k]; [reflexivity |]. cbn [substring].
           f_equal. rewrite IH by lia. reflexivity.
        -- cbn [substring]. rewrite IH by lia. reflexivity.
    + cbn [substring Nat.add]. apply IH. exact Hik.
Qed.

Lemma occurs_within (pat s : string) (m : nat) :
  pat <> "" -> occurs_at pat s m ->
  (m + String.length pat <= String.length s)%nat.
Proof.
  intros Hpat Hocc. unfold occurs_at in Hocc.
  pose proof (substring_length_le m (String.length pat) s) as Hle.
  rewrite Hocc in Hle.
  destruct pat; [congruence |]. cbn in *. lia.
Qed.

Lemma find_first (pat s : string) (m : nat) :
  pat <> "" -> (find pat s = Some m <-> first_occurrence pat s m).
Proof.
  intros Hpat. unfold find, first_occurrence, occurs_at. split.
  - intros H. split; [exact (index_correct1 _ _ _ _ H) |].
    intros k Hk. exact (index_correct2 _ _ _ _ H k (Nat.le_0_l k) Hk).
  - intros [Hocc Hfirst].
    destruct (index 0 pat s) as [m' |] eqn:E.
    + f_equal. pose proof (index_correct1 _ _ _ _ E) as Hocc'.
      pose proof (index_correct2 _ _ _ _ E) as Hfirst'.
      destruct (Nat.lt_trichotomy m' m) as [Hlt | [Heq | Hgt]].
      * now destruct (Hfirst m' Hlt).
      * exact Heq.
      * now destruct (Hfirst' m (Nat.le_0_l m) Hgt).
    + now destruct (index_correct3 0 m pat s E Hpat (Nat.le_0_l m)).
Qed.

Lemma rfind_from_none (pat s : string) (i : nat) :
  rfind_from pat s i = None -> forall m, ~ occurs_at pat s m.
Proof.
  revert i. induction s as [| c s IH]; intros i; cbn [rfind_from].
  - destruct (prefix pat "") eqn:P; [discriminate |]. intros _ m Hm.
    unfold occurs_at in Hm.
    assert (pat = "") as -> by (destruct m, (String.length pat); now cbn in Hm).
    discriminate.
  - destruct (rfind_from pat s (S i)) eqn:E; [discriminate |].
    destruct (prefix pat (String c s)) eqn:P; [discriminate |].
    intros _ [| m] Hm.
    + apply prefix_correct in Hm. congruence.
    + exact (IH _ E m Hm).
Qed.

Lemma rfind_from_last (pat s : string) (i k : nat) :
  pat <> "" ->
  rfind_from pat s i = Some k ->
  forall m, occurs_at pat s m -> (i + m <= k)%nat.
Proof.
  intros Hpat. revert i k. induction s as [| c s IH]; intros i k H m Hm.
  - unfold occurs_at in Hm.
    assert (pat = "") by (destruct m, (String.length pat); now cbn in Hm).
    contradiction.
  - cbn [rfind_from] in H.
    destruct (rfind_from pat s (S i)) as [k' |] eqn:E.
    + injection H as <-. destruct m as [| m].
      * destruct (rfind_from_occurs _ _ _ _ E) as (m' & -> & _). lia.
      * specialize (IH _ _ E m Hm). lia.
    + destruct m as [| m].
      * destruct (prefix pat (String c s)); [| discriminate].
        injection H as <-. lia.
      * now destruct (rfind_from_none _ _ _ E m).
Qed.

Lemma rfind_last (pat s : string) (m : nat) :
  pat <> "" -> (rfind pat s = Some m <-> last_occurrence pat s m).
Proof.
  intros Hpat. unfold rfind, last_occurrence. split.
  - intros H. destruct (rfind_from_occurs _ _ _ _ H) as (m' & -> & Hocc).
    split; [exact Hocc |]. intros k Hk Hk'.
    pose proof (rfind_from_last _ _ _ _ Hpat H k Hk'). lia.
  - intros [Hocc Hlast].
    destruct (rfind_from pat s 0) as [m' |] eqn:E.
    + f_equal. destruct (rfind_from_occurs _ _ _ _ E) as (m'' & -> & Hocc').
      pose proof (rfind_from_last _ _ _ _ Hpat E m Hocc) as Hle.
      destruct (Nat.lt_trichotomy m'' m) as [Hlt | [Heq | Hgt]];
        [lia | exact Heq | now destruct (Hlast m'' Hgt)].
    + now destruct (rfind_from_none _ _ _ E m).
Qed.

(** What [hasData] returns once [null] is not in the text and both marks
    are. *)
Lemma hasData_marks (s : string) (b1 b2 : nat) :
  ~ contains "null" s ->
  first_occurrence "[" s b1 -> last_occurrence "}]" s b2 ->
  hasData s = substr s b1 (Z.of_nat b2 - Z.of_nat b1 + 2).
Proof.
  intros Hnull H1 H2. unfold hasData.
  apply find_none_iff in Hnull; [| discriminate]. rewrite Hnull.
  apply find_first in H1; [| discriminate]. rewrite H1.
  apply rfind_last in H2; [| discriminate]. now rewrite H2.
Qed.

Lemma hasData_tail (s : string) (b1 b2 : nat) :
  (Z.of_nat (String.length s) < 2 ^ 64)%Z ->
  ~ contains "null" s ->
  first_occurrence "[" s b1 -> last_occurrence "}]" s b2 ->
  (b2 + 2 < b1)%nat ->
  hasData s = substring b1 (String.length s - b1) s
  /\ String.length (hasData s) = (String.length s - b1)%nat
  /\ (1 <= String.length s - b1)%nat.
Proof.
  intros Hlen Hnull H1 H2 Hlt.
  pose proof (occurs_within "[" s b1 ltac:(discriminate) (proj1 H1)) as Hb1.
  cbn [String.length] in Hb1.
  assert (E : hasData s = substring b1 (String.length s - b1) s).
  { rewrite (hasData_marks s b1 b2 Hnull H1 H2). unfold substr, size_t.
    replace (Z.of_nat b2 - Z.of_nat b1 + 2)%Z
      with (Z.of_nat b2 - Z.of_nat b1 + 2 + 2 ^ 64 + (-1) * 2 ^ 64)%Z by lia.
    rewrite Z.mod_add by lia. rewrite Z.mod_small by lia.
    rewrite Z.min_r by lia. now rewrite Nat2Z.id. }
  split; [exact E |]. split; [| lia].
  rewrite E. apply substring_length. lia.
Qed.

(** When [hasData] returns the empty string. *)
Lemma hasData_empty_cases (s : string) :
  (Z.of_nat (String.length s) < 2 ^ 64)%Z ->
  hasData s = "" <->
  (contains "null" s \/ ~ contains "[" s \/ ~ contains "}]" s
   \/ exists b, first_occurrence "[" s (b + 2) /\ last_occurrence "}]" s b).
Proof.
  intros Hlen. split.
  - intros Hempty.
    destruct (find "null" s) as [m |] eqn:Enull.
    { left. exists m. exact (index_correct1 _ _ _ _ Enull). }
    apply find_none_iff in Enull; [| discriminate].
    destruct (find "[" s) as [b1 |] eqn:E1.
    2:{ right; left. now apply find_none_iff in E1. }
    destruct (rfind "}]" s) as [b2 |] eqn:E2.
    2:{ right; right; left. intros [m Hm].
        exact (rfind_from_none _ _ _ E2 m Hm). }
    apply find_first in E1; [| discriminate].
    apply rfind_last in E2; [| discriminate].
    right; right; right.
    destruct (Nat.lt_trichotomy (b2 + 2) b1) as [Hlt | [Heq | Hgt]].
    + exfalso.
      destruct (hasData_tail s b1 b2 Hlen Enull E1 E2 Hlt) as (_ & L & Hpos).
      rewrite Hempty in L. cbn in L. lia.
    + exists b2. now rewrite Heq.
    + exfalso.
      pose proof (occurs_within "}]" s b2 ltac:(discriminate) (proj1 E2)) as Hb2.
      cbn [String.length] in Hb2.
      assert (b1 <> S b2).
      { intros ->. destruct E1 as [E1 _], E2 as [E2 _]. unfold occurs_at in *.
        cbn [String.length] in *.
        pose proof (substring_substring b2 2 1 1 s ltac:(lia)) as Hc.
        rewrite E2 in Hc. replace (b2 + 1)%nat with (S b2) in Hc by lia.
        rewrite E1 in Hc. discriminate. }
      assert (L : String.length (hasData s) = (b2 + 2 - b1)%nat).
      { rewrite (hasData_marks s b1 b2 Enull E1 E2). unfold substr, size_t.
        rewrite Z.mod_small by lia. rewrite Z.min_l by lia.
        rewrite substring_length by lia. lia. }
      rewrite Hempty in L. cbn in L. lia.
  - intros [H | [H | [H | (b & H1 & H2)]]].
    + apply hasData_sniff. now left.
    + apply hasData_sniff. right. now left.
    + apply hasData_sniff. right. now right.
    + destruct (find "null" s) as [m |] eqn:Enull.
      { unfold hasData. now rewrite Enull. }
      apply find_none_iff in Enull; [| discriminate].
      rewrite (hasData_marks s (b + 2) b Enull H1 H2). unfold substr, size_t.
      replace (Z.of_nat b - Z.of_nat (b + 2) + 2)%Z with 0%Z by lia.
      rewrite Z.mod_0_l by lia.
      rewrite Z.min_l by lia. apply substring_nothing.
Qed.








(** *** The envelopes [42[ev,null]] and [42[ev]] *)






End StringFacts.

(* ===================================================================== *)
(** ** Runs of the callback *)
(* ===================================================================== *)

Section Runs.

Context {libm : Libm} {ext : Externals}.

(** A read within the vector gives the element, whatever the place. *)
Lemma vector_at_nth (what : string) (vec : list double) (i : nat) :
  (i < List.length vec)%nat -> vector_at what vec i = Ok (nth i vec 0%float).
Proof.
  intros Hi. unfold vector_at.
  destruct (nth_error vec i) as [x |] eqn:E.
  - now rewrite (nth_error_nth _ _ _ E).
  - apply nth_error_None in E. lia.
Qed.

(** A read that yields a value yields the element when there is one. *)
Lemma vector_at_ok (what : string) (vec : list double) (i : nat) (x : double) :
  vector_at what vec i = Ok x ->
  (i < List.length vec)%nat -> x = nth i vec 0%float.
Proof.
  intros H Hi. rewrite (vector_at_nth what vec i Hi) in H. now injection H.
Qed.

(** The run on a frame that [hasData] finds empty. *)
Lemma manual_run (mpc : MPC) (data : string) :
  is_event_frame (sdata_of data) = true ->
  hasData (sdata_of data) = "" ->
  onMessage mpc data = (Ok tt, mpc, [Ws_send manual_msg]).
Proof.
  intros Hg Hs. unfold onMessage, on_event_frame. rewrite Hg, Hs. reflexivity.
Qed.

(** The run on a frame that fails the guard. *)
Lemma ignored_run (mpc : MPC) (data : string) :
  is_event_frame (sdata_of data) = false ->
  onMessage mpc data = (Ok tt, mpc, []).
Proof. intros Hg. unfold onMessage. rewrite Hg. reflexivity. Qed.

Lemma nonempty_eqb (s : string) : s <> "" -> negb (String.eqb s "") = true.
Proof. intros H. apply negb_true_iff. now apply String.eqb_neq. Qed.

(** The run on a frame whose text [json::parse] rejects. *)
Lemma parse_error_run (mpc : MPC) (data s : string) :
  is_event_frame (sdata_of data) = true ->
  hasData (sdata_of data) = s -> s <> "" ->
  json_parse s = None ->
  onMessage mpc data = (Fail (Uncaught parse_error), mpc, [Call_parse s]).
Proof.
  intros Hg Hs Hne Hp. unfold onMessage, on_event_frame.
  rewrite Hg, Hs, (nonempty_eqb s Hne).
  unfold bind, emit, lift, parse. cbn. rewrite Hp. reflexivity.
Qed.

(** The run on a telemetry frame whose payload cannot be read. *)
Lemma read_error_run (mpc : MPC) (data s : string) (j : json) (f : failure) :
  is_event_frame (sdata_of data) = true ->
  hasData (sdata_of data) = s -> s <> "" ->
  json_parse s = Some j ->
  event_name j = Ok "telemetry" ->
  read_telemetry j = Fail f ->
  onMessage mpc data = (Fail f, mpc, [Call_parse s]).
Proof.
  intros Hg Hs Hne Hp He Hr. unfold onMessage, on_event_frame.
  rewrite Hg, Hs, (nonempty_eqb s Hne).
  unfold bind, emit, lift, parse, on_telemetry. cbn.
  rewrite Hp, He. cbn. unfold bind, lift. rewrite Hr. reflexivity.
Qed.

(** The run on a telemetry frame whose fit fails. *)
Lemma fit_error_run (mpc : MPC) (data s : string) (t : telemetry)
  (car : list double * list double) (f : failure) :
  decodes_to data s t ->
  car_coordinates (px t) (py t) (psi t) (ptsx t) (ptsy t) = Ok car ->
  polyfit (fst car) (snd car) 3 = Fail f ->
  onMessage mpc data
  = (Fail f, mpc,
     [Call_parse s; Loop_transform (ptsize t);
      Call_polyfit (List.length (fst car)) 3]).
Proof.
  intros (Hg & Hs & Hne & j & Hp & He & Hr) Hc Hf.
  unfold onMessage, on_event_frame.
  rewrite Hg, Hs, (nonempty_eqb s Hne).
  unfold bind, emit, lift, parse, on_telemetry. cbn.
  rewrite Hp, He. cbn. unfold bind, lift, emit. rewrite Hr. cbn.
  rewrite Hc. destruct car as [xs ys]. cbn in *. rewrite Hf. reflexivity.
Qed.

(** The run that answers a telemetry event: the reply is made and the two
    reads for the printout yield [angle] and [acc]. *)
Lemma reply_run (mpc mpc' : MPC) (data s : string) (t : telemetry) (n : nat)
  (coeffs result : list double) (payload : json) (angle acc : double) :
  decodes_to data s t ->
  fits_to t n coeffs ->
  Solve mpc (state_vector coeffs (v t)) coeffs = (result, mpc') ->
  steer_json coeffs result = Ok payload ->
  vector_at "cout << result[0]" result 0 = Ok angle ->
  vector_at "cout << result[1]" result 1 = Ok acc ->
  onMessage mpc data
  = (Ok tt, mpc', reply_log s t n coeffs angle acc (steer_msg payload)).
Proof.
  intros (Hg & Hs & Hne & j & Hp & He & Hr) (car & Hc & -> & Hf) Hsolve Hj
    Hangle Hacc.
  unfold onMessage, on_event_frame.
  rewrite Hg, Hs, (nonempty_eqb s Hne).
  unfold bind, emit, lift, parse, on_telemetry. cbn.
  rewrite Hp, He. cbn. unfold bind, lift, emit, call_Solve. rewrite Hr. cbn.
  rewrite Hc. destruct car as [xs ys]. cbn in *. rewrite Hf. cbn.
  rewrite Hsolve. cbn. rewrite Hj, Hangle. cbn. rewrite Hacc. reflexivity.
Qed.

(** The same when the optimizer's answer holds the two commands. *)
Lemma steer_run (mpc mpc' : MPC) (data s : string) (t : telemetry) (n : nat)
  (coeffs result : list double) (payload : json) :
  decodes_to data s t ->
  fits_to t n coeffs ->
  Solve mpc (state_vector coeffs (v t)) coeffs = (result, mpc') ->
  (2 <= List.length result)%nat ->
  steer_json coeffs result = Ok payload ->
  onMessage mpc data
  = (Ok tt, mpc', steer_log s t n coeffs result (steer_msg payload)).
Proof.
  intros Hdec Hfit Hsolve Hlen Hj.
  apply (reply_run mpc mpc' data s t n coeffs result payload _ _
           Hdec Hfit Hsolve Hj); apply vector_at_nth; lia.
Qed.

(** The runs that stop between the optimizer's answer and the reply. *)
Lemma unanswered_run (mpc mpc' : MPC) (data s : string) (t : telemetry)
  (n : nat) (coeffs result : list double) (f : failure) :
  decodes_to data s t ->
  fits_to t n coeffs ->
  Solve mpc (state_vector coeffs (v t)) coeffs = (result, mpc') ->
  steer_json coeffs result = Fail f
  \/ ((exists payload, steer_json coeffs result = Ok payload)
      /\ vector_at "cout << result[0]" result 0 = Fail f) ->
  onMessage mpc data
  = (Fail f, mpc',
     [Call_parse s; Loop_transform (ptsize t); Call_polyfit n 3;
      Call_Solve (state_vector coeffs (v t)) coeffs]).
Proof.
  intros (Hg & Hs & Hne & j & Hp & He & Hr) (car & Hc & -> & Hf) Hsolve Hj.
  unfold onMessage, on_event_frame.
  rewrite Hg, Hs, (nonempty_eqb s Hne).
  unfold bind, emit, lift, parse, on_telemetry. cbn.
  rewrite Hp, He. cbn. unfold bind, lift, emit, call_Solve. rewrite Hr. cbn.
  rewrite Hc. destruct car as [xs ys]. cbn in *. rewrite Hf. cbn.
  rewrite Hsolve. cbn.
  destruct Hj as [Hj | [(payload & Hj) Hangle]].
  - rewrite Hj. reflexivity.
  - rewrite Hj, Hangle. reflexivity.
Qed.

Lemma half_printed_run (mpc mpc' : MPC) (data s : string) (t : telemetry)
  (n : nat) (coeffs result : list double) (payload : json) (angle : double)
  (f : failure) :
  decodes_to data s t ->
  fits_to t n coeffs ->
  Solve mpc (state_vector coeffs (v t)) coeffs = (result, mpc') ->
  steer_json coeffs result = Ok payload ->
  vector_at "cout << result[0]" result 0 = Ok angle ->
  vector_at "cout << result[1]" result 1 = Fail f ->
  onMessage mpc data
  = (Fail f, mpc',
     [Call_parse s; Loop_transform (ptsize t); Call_polyfit n 3;
      Call_Solve (state_vector coeffs (v t)) coeffs; Cout "Angle: " angle]).
Proof.
  intros (Hg & Hs & Hne & j & Hp & He & Hr) (car & Hc & -> & Hf) Hsolve Hj
    Hangle Hacc.
  unfold onMessage, on_event_frame.
  rewrite Hg, Hs, (nonempty_eqb s Hne).
  unfold bind, emit, lift, parse, on_telemetry. cbn.
  rewrite Hp, He. cbn. unfold bind, lift, emit, call_Solve. rewrite Hr. cbn.
  rewrite Hc. destruct car as [xs ys]. cbn in *. rewrite Hf. cbn.
  rewrite Hsolve. cbn. rewrite Hj, Hangle. cbn. rewrite Hacc. reflexivity.
Qed.

(** The run in which the waypoint loop faults. *)
Lemma transform_error_run (mpc : MPC) (data s : string) (t : telemetry)
  (f : failure) :
  decodes_to data s t ->
  car_coordinates (px t) (py t) (psi t) (ptsx t) (ptsy t) = Fail f ->
  onMessage mpc data
  = (Fail f, mpc, [Call_parse s; Loop_transform (ptsize t)]).
Proof.
  intros (Hg & Hs & Hne & j & Hp & He & Hr) Hc.
  unfold onMessage, on_event_frame.
  rewrite Hg, Hs, (nonempty_eqb s Hne).
  unfold bind, emit, lift, parse, on_telemetry. cbn.
  rewrite Hp, He. cbn. unfold bind, lift, emit. rewrite Hr. cbn.
  rewrite Hc. reflexivity.
Qed.

(** The run on a frame whose first element is no string. *)
Lemma event_error_run (mpc : MPC) (data s : string) (j : json) (f : failure) :
  is_event_frame (sdata_of data) = true ->
  hasData (sdata_of data) = s -> s <> "" ->
  json_parse s = Some j ->
  event_name j = Fail f ->
  onMessage mpc data = (Fail f, mpc, [Call_parse s]).
Proof.
  intros Hg Hs Hne Hp He. unfold onMessage, on_event_frame.
  rewrite Hg, Hs, (nonempty_eqb s Hne).
  unfold bind, emit, lift, parse. cbn. rewrite Hp, He. reflexivity.
Qed.

(** The run on a frame that names another event. *)
Lemma unknown_event_run (mpc : MPC) (data s ev : string) (j : json) :
  is_event_frame (sdata_of data) = true ->
  hasData (sdata_of data) = s -> s <> "" ->
  json_parse s = Some j ->
  event_name j = Ok ev -> ev <> "telemetry" ->
  onMessage mpc data = (Ok tt, mpc, [Call_parse s]).
Proof.
  intros Hg Hs Hne Hp He Hev. unfold onMessage, on_event_frame.
  rewrite Hg, Hs, (nonempty_eqb s Hne).
  unfold bind, emit, lift, parse. cbn. rewrite Hp, He. cbn.
  apply String.eqb_neq in Hev. rewrite Hev. reflexivity.
Qed.

Lemma run_cases (mpc : MPC) (data : string) :
  exists r mpc' log,
    onMessage mpc data = (r, mpc', log) /\ run_shape mpc data r mpc' log.
Proof.
  destruct (is_event_frame (sdata_of data)) eqn:Hg.
  2:{ do 3 eexists. split; [now apply ignored_run | now constructor]. }
  destruct (String.eqb_spec (hasData (sdata_of data)) "") as [Hs | Hne].
  { do 3 eexists. split; [now apply manual_run | now constructor]. }
  set (s := hasData (sdata_of data)) in *.
  destruct (json_parse s) as [j |] eqn:Hp.
  2:{ do 3 eexists. split;
        [now apply (parse_error_run mpc data s) | now apply Run_not_read]. }
  destruct (event_name j) as [ev | f] eqn:He.
  2:{ do 3 eexists. split;
        [now apply (event_error_run mpc data s j f) | now apply Run_not_read]. }
  destruct (String.eqb_spec ev "telemetry") as [-> | Hev].
  2:{ do 3 eexists. split;
        [now apply (unknown_event_run mpc data s ev j)
        | now apply Run_other_event]. }
  destruct (read_telemetry j) as [t | f] eqn:Hr.
  2:{ do 3 eexists. split;
        [now apply (read_error_run mpc data s j f) | now apply Run_not_read]. }
  assert (Hdec : decodes_to data s t).
  { split; [exact Hg |]. split; [reflexivity |]. split; [exact Hne |].
    exists j. auto. }
  destruct (car_coordinates (px t) (py t) (psi t) (ptsx t) (ptsy t))
    as [car | f] eqn:Hc.
  2:{ do 3 eexists. split;
        [now apply (transform_error_run mpc data s t f)
        | now apply Run_not_transformed]. }
  destruct (polyfit (fst car) (snd car) 3) as [coeffs | f] eqn:Hf.
  2:{ do 3 eexists. split;
        [now apply (fit_error_run mpc data s t car f)
        | now apply Run_not_fitted]. }
  assert (Hfit : fits_to t (List.length (fst car)) coeffs).
  { exists car. auto. }
  destruct (Solve mpc (state_vector coeffs (v t)) coeffs)
    as [result mpc1] eqn:Hsolve.
  destruct (steer_json coeffs result) as [payload | f] eqn:Hj.
  2:{ do 3 eexists. split;
        [apply (unanswered_run mpc mpc1 data s t (List.length (fst car))
                  coeffs result f Hdec Hfit Hsolve); now left
        | now apply (Run_not_answered mpc data s t (List.length (fst car))
                       coeffs result mpc1 f)]. }
  destruct (vector_at "cout << result[0]" result 0) as [angle | f] eqn:Ha.
  2:{ do 3 eexists. split;
        [apply (unanswered_run mpc mpc1 data s t (List.length (fst car))
                  coeffs result f Hdec Hfit Hsolve); right; eauto
        | now apply (Run_not_answered mpc data s t (List.length (fst car))
                       coeffs result mpc1 f)]. }
  destruct (vector_at "cout << result[1]" result 1) as [acc | f] eqn:Hb.
  2:{ do 3 eexists. split;
        [now apply (half_printed_run mpc mpc1 data s t
                      (List.length (fst car)) coeffs result payload angle f)
        | now apply (Run_half_printed mpc data s t (List.length (fst car))
                       coeffs result mpc1 payload angle f)]. }
  do 3 eexists. split;
    [now apply (reply_run mpc mpc1 data s t (List.length (fst car))
                  coeffs result payload angle acc)
    | apply (Run_steer mpc data s t (List.length (fst car))
               coeffs result mpc1 payload angle acc Hdec Hfit Hsolve Hj)].
  intros Hlen. split.
  - apply (vector_at_ok _ _ _ _ Ha). lia.
  - apply (vector_at_ok _ _ _ _ Hb). lia.
Qed.

Lemma run_has_shape (mpc mpc' : MPC) (data : string) (r : outcome unit)
  (log : list event) :
  onMessage mpc data = (r, mpc', log) -> run_shape mpc data r mpc' log.
Proof.
  intros Hrun. destruct (run_cases mpc data) as (r0 & m0 & l0 & E & Hshape).
  rewrite E in Hrun. now injection Hrun as <- <- <-.
Qed.


(** Every message a run sends is the manual reply of [manual_run] or the
    steer reply of [reply_run]. *)
Lemma sends_inv (mpc mpc' : MPC) (data : string) (r : outcome unit)
  (log : list event) (msg : string) :
  onMessage mpc data = (r, mpc', log) ->
  In (Ws_send msg) log ->
  (hasData (sdata_of data) = "" /\ msg = manual_msg /\
   r = Ok tt /\ mpc' = mpc /\ log = [Ws_send manual_msg])
  \/
  (exists s t n coeffs result payload angle acc,
      decodes_to data s t /\ fits_to t n coeffs /\
      Solve mpc (state_vector coeffs (v t)) coeffs = (result, mpc') /\
      steer_json coeffs result = Ok payload /\
      msg = steer_msg payload /\
      r = Ok tt /\ log = reply_log s t n coeffs angle acc msg).
Proof.
  intros Hrun Hin. apply run_has_shape in Hrun.
  destruct Hrun as
    [Hg | Hg Hs | s f Hg Hs Hne | s Hg Hs Hne | s t f Hdec | s t n f Hdec
     | s t n coeffs result mpc' f Hdec Hfit Hsolve
     | s t n coeffs result mpc' payload angle f Hdec Hfit Hsolve Hj
     | s t n coeffs result mpc' payload angle acc Hdec Hfit Hsolve Hj Hread];
    try (exfalso; cbn in Hin;
         repeat (destruct Hin as [Hin | Hin]; [discriminate |]);
         exact Hin).
  - left. destruct Hin as [[= <-] | []]. repeat split; auto.
  - right. unfold reply_log in Hin. cbn in Hin.
    repeat (destruct Hin as [Hin | Hin]; [try discriminate |]);
      [injection Hin as <- | destruct Hin].
    exists s, t, n, coeffs, result, payload, angle, acc.
    exact (conj Hdec (conj Hfit (conj Hsolve (conj Hj
             (conj eq_refl (conj eq_refl eq_refl)))))).
Qed.

End Runs.

(* ===================================================================== *)
(** ** The manual reply *)
(* ===================================================================== *)

Section ManualReply.

Context {libm : Libm} {ext : Externals}.


(** C10, as the code has it. For every frame that the callback reads as
    [42] followed by a non-empty text, if that text contains the four
    characters [null] anywhere, or has no ['['], or has no ["}]"], the run
    sends the manual reply and nothing else, whatever the text is
    otherwise. *)
Theorem sniffed_frame_gets_manual_reply (mpc : MPC) (data rest : string) :
  sdata_of data = "42" ++ rest ->
  rest <> "" ->
  contains "null" rest \/ ~ contains "[" rest \/ ~ contains "}]" rest ->
  onMessage mpc data = (Ok tt, mpc, [Ws_send manual_msg]).
Proof.
  intros Hd Hrest Hsniff. apply manual_run.
  - rewrite Hd. now apply is_event_frame_42.
  - rewrite Hd. apply hasData_sniff.
    destruct Hsniff as [H | [H | H]].
    + left. now apply contains_after_42.
    + right; left. now apply lacks_bracket_after_42.
    + right; right. now apply lacks_close_after_42.
Qed.

End ManualReply.



(** [frame4_tagged] names the telemetry event and carries a payload the
    callback could read, and gets the manual reply because [null] occurs in
    it. *)
Lemma sniffed_frame_gets_manual_reply_witness :
  let rest := substring 2 (String.length Sample.frame4_tagged)
                Sample.frame4_tagged in
  sdata_of Sample.frame4_tagged = "42" ++ rest
  /\ rest <> ""
  /\ contains "null" rest
  /\ (exists j t, Sample.read_json rest = Some j
                  /\ event_name j = Ok "telemetry"
                  /\ read_telemetry j = Ok t)
  /\ @onMessage Sample.libm (Sample.externals [] []) 0%nat
       Sample.frame4_tagged
     = (Ok tt, 0%nat, [Ws_send manual_msg]).
Proof.
  cbv zeta.
  assert (Hc : contains "null"
                 (substring 2 (String.length Sample.frame4_tagged)
                    Sample.frame4_tagged)).
  { exists 21. reflexivity. }
  split; [reflexivity |]. split; [discriminate |]. split; [exact Hc |].
  split.
  - eexists. exists Sample.telemetry4. split; [vm_compute; reflexivity |].
    split; reflexivity.
  - apply (@sniffed_frame_gets_manual_reply Sample.libm
             (Sample.externals [] []) 0%nat Sample.frame4_tagged _
             eq_refl); [discriminate | left; exact Hc].
Defined.

(** With nothing after the prefix there is no ['['] in the rest of the
    frame, and no reply either. *)
Lemma empty_rest_gets_no_reply :
  sdata_of "42" = "42" ++ ""
  /\ ~ contains "[" ""
  /\ @onMessage Sample.libm (Sample.externals [] []) 0%nat "42"
     = (Ok tt, 0%nat, []).
Proof.
  split; [reflexivity |]. split; [| reflexivity].
  intros [m Hm]. destruct m; discriminate.
Qed.

(* ===================================================================== *)
(** ** Malformed frames *)
(* ===================================================================== *)

Section Malformed.

Context {libm : Libm} {ext : Externals}.

Lemma get_doubles_fail (items : list json) (f : failure) :
  get_doubles items = Fail f -> f = Uncaught type_error.
Proof.
  induction items as [| j items IH]; cbn; [discriminate |].
  destruct j; cbn; try (now intros [= <-]).
  destruct (get_doubles items); cbn; [discriminate |].
  intros [= <-]. now apply IH.
Qed.

Lemma get_vector_fail (j : json) (f : failure) :
  get_vector j = Fail f -> f = Uncaught type_error.
Proof.
  destruct j; cbn; try (now intros [= <-]). apply get_doubles_fail.
Qed.

(** Reading the payload of an envelope [[e, {members}]] either succeeds,
    and then every required member is there, or throws [type_error]. *)
Lemma read_telemetry_envelope (e : json) (members : list (string * json)) :
  (exists t, read_telemetry (JArray [e; JObject members]) = Ok t
             /\ forall key, In key required_fields ->
                            assoc key members <> JNull)
  \/ read_telemetry (JArray [e; JObject members])
     = Fail (Uncaught type_error).
Proof.
  unfold read_telemetry, number_field, vector_field. cbn [json_at nth json_field obind].
  destruct (assoc "x" members) eqn:Ex; cbn; try (now right).
  destruct (assoc "y" members) eqn:Ey; cbn; try (now right).
  destruct (assoc "psi" members) eqn:Epsi; cbn; try (now right).
  destruct (assoc "speed" members) eqn:Ev; cbn; try (now right).
  destruct (assoc "steering_angle" members) eqn:Ed; cbn; try (now right).
  destruct (assoc "throttle" members) eqn:Ea; cbn; try (now right).
  destruct (get_vector (assoc "ptsx" members)) as [xs | f] eqn:Exs; cbn.
  2:{ right. now rewrite (get_vector_fail _ _ Exs). }
  destruct (get_vector (assoc "ptsy" members)) as [ys | f] eqn:Eys; cbn.
  2:{ right. now rewrite (get_vector_fail _ _ Eys). }
  left. eexists. split; [reflexivity |].
  intros key Hkey Hnull. unfold required_fields in Hkey. cbn in Hkey.
  repeat (destruct Hkey as [<- | Hkey]; [congruence |]);
    try (destruct Hkey as [<- | Hkey]).
  - rewrite Hnull in Exs. discriminate.
  - destruct Hkey as [<- | []]. rewrite Hnull in Eys. discriminate.
Qed.

Lemma read_telemetry_missing (e : json) (members : list (string * json))
  (key : string) :
  In key required_fields -> assoc key members = JNull ->
  read_telemetry (JArray [e; JObject members])
  = Fail (Uncaught type_error).
Proof.
  intros Hkey Hnull.
  destruct (read_telemetry_envelope e members) as [(t & _ & Hall) | H];
    [| exact H].
  now destruct (Hall key Hkey).
Qed.

(** C3, as the code has it. For a frame that the callback reads as more
    than two characters starting with [42]:
    - if [hasData] finds no payload in it (so also when there is no ['[']
      or no ["}]"] in it), the callback sends the manual reply;
    - if [json::parse] rejects the text [hasData] extracts, the callback
      sends nothing and [parse_error] leaves it uncaught;
    - if that text is a telemetry envelope whose payload lacks one of the
      required members, the callback sends nothing and [type_error]
      leaves it uncaught.
    The callback catches nothing, so in the last two cases the run ends in
    the exception, with only the parse step in its log. *)
Theorem malformed_frame_runs (mpc : MPC) (data s : string) :
  is_event_frame (sdata_of data) = true ->
  hasData (sdata_of data) = s ->
  (s = "" -> onMessage mpc data = (Ok tt, mpc, [Ws_send manual_msg]))
  /\ (s <> "" -> json_parse s = None ->
      onMessage mpc data
      = (Fail (Uncaught parse_error), mpc, [Call_parse s]))
  /\ (s <> "" ->
      forall members key,
        json_parse s = Some (JArray [JString "telemetry"; JObject members]) ->
        In key required_fields -> assoc key members = JNull ->
        onMessage mpc data
        = (Fail (Uncaught type_error), mpc, [Call_parse s])).
Proof.
  intros Hg Hs. split; [| split].
  - intros ->. now apply manual_run.
  - intros Hne Hp. now apply parse_error_run.
  - intros Hne members key Hp Hkey Hnull.
    apply (read_error_run mpc data s _ _ Hg Hs Hne Hp eq_refl).
    now apply (read_telemetry_missing _ members key).
Qed.

End Malformed.

(** The three cases on frames: [42abc], [42[}]] and a telemetry frame with
    an empty payload. *)
Lemma malformed_frame_runs_witness :
  @onMessage Sample.libm (Sample.externals [] []) 0%nat "42abc"
  = (Ok tt, 0%nat, [Ws_send manual_msg])
  /\ @onMessage Sample.libm (Sample.externals [] []) 0%nat "42[}]"
     = (Fail (Uncaught parse_error), 0%nat, [Call_parse "[}]"])
  /\ @onMessage Sample.libm (Sample.externals [] []) 0%nat Sample.frame_empty
     = (Fail (Uncaught type_error), 0%nat,
        [Call_parse (hasData Sample.frame_empty)]).
Proof.
  split; [| split].
  - apply (proj1 (@malformed_frame_runs Sample.libm (Sample.externals [] [])
                    0%nat "42abc" "" eq_refl eq_refl) eq_refl).
  - refine (proj1 (proj2 (@malformed_frame_runs Sample.libm
                            (Sample.externals [] []) 0%nat "42[}]" "[}]"
                            eq_refl eq_refl)) _ eq_refl).
    discriminate.
  - refine (proj2 (proj2 (@malformed_frame_runs Sample.libm
                            (Sample.externals [] []) 0%nat Sample.frame_empty
                            (hasData Sample.frame_empty) eq_refl eq_refl))
              _ [] "x" eq_refl _ eq_refl).
    + discriminate.
    + left. reflexivity.
Defined.

(** A frame that is no envelope gets a reply, and one that does not parse
    ends the callback with an exception. *)
Lemma malformed_frame_replied_or_thrown :
  @onMessage Sample.libm (Sample.externals [] []) 0%nat "42abc"
  = (Ok tt, 0%nat, [Ws_send manual_msg])
  /\ Sample.read_json "abc" = None
  /\ @onMessage Sample.libm (Sample.externals [] []) 0%nat "42[}]"
     = (Fail (Uncaught parse_error), 0%nat, [Call_parse "[}]"]).
Proof. repeat split. Qed.

(* ===================================================================== *)
(** ** The fit and its assertions *)
(* ===================================================================== *)

Section Fit.

Context {libm : Libm} {ext : Externals}.

(** The loop of lines 110-116 yields one point per waypoint of [ptsx]. *)
Lemma car_loop_length (px py psi : double) (rest : list double) :
  forall (i : nat) (ptsy : list double) (car : list double * list double),
    car_loop px py psi i rest ptsy = Ok car ->
    List.length (fst car) = List.length rest
    /\ List.length (snd car) = List.length rest.
Proof.
  induction rest as [| wx rest IH]; intros i ptsy car; cbn.
  - now intros [= <-].
  - destruct (vector_at "ptsy[i]" ptsy i) as [wy | f]; cbn; [| discriminate].
    destruct (car_loop px py psi (S i) rest ptsy) as [more | f] eqn:E;
      cbn; [| discriminate].
    intros [= <-]. cbn. destruct (IH _ _ _ E) as [-> ->]. now split.
Qed.

(** It reads within [ptsy] when [ptsy] is at least as long as [ptsx], and
    then runs to its end. *)
Lemma car_loop_ok (px py psi : double) (rest : list double) :
  forall (i : nat) (ptsy : list double),
    (i + List.length rest <= List.length ptsy)%nat ->
    exists car, car_loop px py psi i rest ptsy = Ok car.
Proof.
  induction rest as [| wx rest IH]; intros i ptsy Hlen; cbn in *.
  - now exists ([], []).
  - rewrite vector_at_nth by lia. cbn.
    destruct (IH (S i) ptsy) as [more ->]; [lia |].
    cbn. now eexists.
Qed.

(** The point it yields for a waypoint is the transform of that waypoint
    and of what the read of [ptsy] at its index gave. *)
Lemma car_loop_nth (px py psi : double) (rest : list double) :
  forall (i : nat) (ptsy : list double) (car : list double * list double),
    car_loop px py psi i rest ptsy = Ok car ->
    forall k, (k < List.length rest)%nat ->
      exists wy,
        vector_at "ptsy[i]" ptsy (i + k) = Ok wy
        /\ (nth k (fst car) 0%float, nth k (snd car) 0%float)
           = car_point px py psi (nth k rest 0%float) wy.
Proof.
  induction rest as [| wx rest IH]; intros i ptsy car; cbn.
  - intros _ k Hk. lia.
  - destruct (vector_at "ptsy[i]" ptsy i) as [wy | f] eqn:Ey; cbn;
      [| discriminate].
    destruct (car_loop px py psi (S i) rest ptsy) as [more | f] eqn:E;
      cbn; [| discriminate].
    intros [= <-] [| k] Hk; cbn [fst snd nth].
    + rewrite Nat.add_0_r. exists wy. split; [exact Ey |].
      symmetry. apply surjective_pairing.
    + replace (i + S k)%nat with (S i + k)%nat by lia.
      apply (IH _ _ _ E). lia.
Qed.

(** Cutting [ptsy] after the last position the loop reads changes
    nothing. *)
Lemma car_loop_firstn (px py psi : double) (rest : list double) :
  forall (i n : nat) (ptsy : list double),
    (i + List.length rest <= n)%nat -> (n <= List.length ptsy)%nat ->
    car_loop px py psi i rest ptsy
    = car_loop px py psi i rest (firstn n ptsy).
Proof.
  induction rest as [| wx rest IH]; intros i n ptsy Hin Hn; cbn in *.
  - reflexivity.
  - rewrite !vector_at_nth by (rewrite ?length_firstn; lia).
    rewrite nth_firstn.
    destruct (Nat.ltb_spec i n) as [_ | Hge]; [| lia].
    cbn. now rewrite <- (IH (S i) n ptsy) by lia.
Qed.

Lemma car_coordinates_ok (px py psi : double) (ptsx ptsy : list double) :
  (List.length ptsx <= List.length ptsy)%nat ->
  exists car,
    car_coordinates px py psi ptsx ptsy = Ok car
    /\ List.length (fst car) = List.length ptsx
    /\ List.length (snd car) = List.length ptsx.
Proof.
  intros Hlen. unfold car_coordinates.
  destruct (car_loop_ok px py psi ptsx 0 ptsy Hlen) as [car E].
  exists car. split; [exact E |]. exact (car_loop_length _ _ _ _ _ _ _ E).
Qed.

Lemma car_coordinates_length (px py psi : double) (ptsx ptsy : list double)
  (car : list double * list double) :
  car_coordinates px py psi ptsx ptsy = Ok car ->
  List.length (fst car) = List.length ptsx
  /\ List.length (snd car) = List.length ptsx.
Proof. apply car_loop_length. Qed.

Lemma monomials_length (order : nat) (aji xj : double) :
  List.length (monomials order aji xj) = S order.
Proof.
  revert aji. induction order as [| k IH]; intros aji; cbn; [reflexivity |].
  now rewrite IH.
Qed.

(** [polyfit] returns the solver's answer when both assertions hold, and
    stops at a failed assertion otherwise. *)
Lemma polyfit_spec (xvals yvals : list double) (order : Z) :
  (List.length xvals = List.length yvals /\ (1 <= order)%Z
   /\ (order + 1 <= Z.of_nat (List.length xvals))%Z
   /\ polyfit xvals yvals order
      = Ok (householderQr_solve
              (map (monomials (Z.to_nat order) 1%float) xvals) yvals))
  \/ (List.length xvals <> List.length yvals
      /\ polyfit xvals yvals order
         = Fail (AssertFailed size_assertion))
  \/ (List.length xvals = List.length yvals
      /\ ((order < 1)%Z \/ (Z.of_nat (List.length xvals) < order + 1)%Z)
      /\ polyfit xvals yvals order = Fail (AssertFailed order_assertion)).
Proof.
  unfold polyfit.
  destruct (Nat.eqb_spec (List.length xvals) (List.length yvals)) as [He | Hne];
    cbn [negb].
  2:{ right; left. now split. }
  destruct (Z.leb_spec 1 order) as [H1 | H1]; cbn [andb negb].
  2:{ right; right. split; [exact He |]. split; [now left | reflexivity]. }
  destruct (Z.leb_spec order (Z.of_nat (List.length xvals) - 1)) as [H2 | H2];
    cbn [negb].
  - left. repeat split; auto; lia.
  - right; right. split; [exact He |]. split; [right; lia | reflexivity].
Qed.

Lemma polyfit_ok_size (xvals yvals coeffs : list double) (order : Z) :
  polyfit xvals yvals order = Ok coeffs ->
  List.length coeffs = S (Z.to_nat order).
Proof.
  destruct (polyfit_spec xvals yvals order)
    as [(He & H1 & H2 & ->) | [(_ & ->) | (_ & _ & ->)]]; try discriminate.
  intros [= <-]. rewrite householderQr_solve_size.
  destruct xvals as [| x xvals]; cbn in H2; [lia |].
  cbn [map hd]. apply monomials_length.
Qed.

(** C1, as the code has it. [polyfit] checks its arguments with [assert]:
    when the two vectors have the same size and [order >= 1], the
    assertion on [order] fails exactly when there are fewer than
    [order + 1] points, and the call then ends in the failed assertion
    (which aborts the process), with no error value and no coefficients.
    The callback calls [polyfit] with order 3 on as many points as there
    are waypoints, without checking their number: with fewer than 4
    waypoints its run ends in the failed assertion right after the fit
    step, and nothing is sent; with 4 or more the fit returns 4
    coefficients. *)
Theorem polyfit_asserts_its_arguments :
  (forall (xvals yvals : list double) (order : Z),
      List.length xvals = List.length yvals -> (1 <= order)%Z ->
      ((Z.of_nat (List.length xvals) < order + 1)%Z <->
       polyfit xvals yvals order = Fail (AssertFailed order_assertion))
      /\ ((order + 1 <= Z.of_nat (List.length xvals))%Z <->
          exists coeffs, polyfit xvals yvals order = Ok coeffs))
  /\ (forall (mpc : MPC) (data s : string) (t : telemetry),
         decodes_to data s t ->
         (List.length (ptsx t) <= List.length (ptsy t))%nat ->
         ((List.length (ptsx t) < 4)%nat ->
          onMessage mpc data
          = (Fail (AssertFailed order_assertion), mpc,
             [Call_parse s; Loop_transform (ptsize t);
              Call_polyfit (List.length (ptsx t)) 3]))
         /\ ((4 <= List.length (ptsx t))%nat ->
             exists coeffs,
               fits_to t (List.length (ptsx t)) coeffs
               /\ List.length coeffs = 4%nat)).
Proof.
  split.
  - intros xvals yvals order He H1.
    destruct (polyfit_spec xvals yvals order)
      as [(_ & _ & H2 & E) | [(Hne & _) | (_ & [H | H] & E)]];
      try contradiction; try lia; rewrite E.
    + split; split; try lia; try discriminate. intros _. now eexists.
    + split; split; try lia; try reflexivity. now intros [c [=]].
  - intros mpc data s t Hdec Hlen.
    destruct (car_coordinates_ok (px t) (py t) (psi t) _ _ Hlen)
      as (car & Hc & Hx & Hy).
    destruct (polyfit_spec (fst car) (snd car) 3)
      as [(_ & _ & H2 & E) | [(Hne & _) | (_ & [H | H] & E)]];
      try lia; rewrite Hx in *.
    + split; [lia |]. intros _. eexists. split.
      * exists car. rewrite Hx. repeat split; [exact Hc | exact E].
      * rewrite householderQr_solve_size.
        destruct (fst car) as [| x xs]; cbn in Hx; [lia |]. reflexivity.
    + split; [| lia]. intros _.
      rewrite <- Hx. now apply (fit_error_run mpc data s t car).
Qed.

End Fit.

(** [frame3] is a telemetry frame with three waypoints: its run ends in the
    failed assertion. *)
Lemma polyfit_asserts_its_arguments_witness :
  decodes_to (ext := Sample.externals Sample.fit4 []) Sample.frame3
    (hasData Sample.frame3)
    {| px := 0; py := 0; psi := 0; v := 12.5; delta := 0.01; a := 0.3;
       ptsize := 3; ptsx := [0; 1; 2]; ptsy := [0.5; 0.5; 0.5] |}%float
  /\ @onMessage Sample.libm (Sample.externals Sample.fit4 []) 0%nat
       Sample.frame3
     = (Fail (AssertFailed order_assertion), 0%nat,
        [Call_parse (hasData Sample.frame3); Loop_transform 3;
         Call_polyfit 3 3]).
Proof.
  assert (Hdec : decodes_to (ext := Sample.externals Sample.fit4 [])
                   Sample.frame3 (hasData Sample.frame3)
                   {| px := 0; py := 0; psi := 0; v := 12.5; delta := 0.01;
                      a := 0.3; ptsize := 3; ptsx := [0; 1; 2];
                      ptsy := [0.5; 0.5; 0.5] |}%float).
  { split; [reflexivity |]. split; [reflexivity |]. split; [discriminate |].
    eexists. split; [vm_compute; reflexivity |]. split; reflexivity. }
  split; [exact Hdec |].
  refine (proj1 (proj2 (@polyfit_asserts_its_arguments Sample.libm
                          (Sample.externals Sample.fit4 []))
                   0%nat _ _ _ Hdec _) _); cbn; lia.
Defined.

(** The run on a telemetry frame with three waypoints is aborted by the
    assertion of [polyfit]; it ends in no error value. *)
Lemma three_waypoints_abort :
  @onMessage Sample.libm (Sample.externals Sample.fit4 []) 0%nat Sample.frame3
  = (Fail (AssertFailed order_assertion), 0%nat,
     [Call_parse (hasData Sample.frame3); Loop_transform 3;
      Call_polyfit 3 3])
  /\ polyfit (ext := Sample.externals Sample.fit4 [])
       [0; 1; 2]%float [0.5; 0.5; 0.5]%float 3
     = Fail (AssertFailed order_assertion).
Proof. split; reflexivity. Qed.

(* ===================================================================== *)
(** ** Decoding the optimizer's answer *)
(* ===================================================================== *)

Section Decoding.

Context {libm : Libm} {ext : Externals}.

Lemma mpc_loop_deal (n : nat) :
  forall (l : list double) (i : nat) (xs ys : list double),
    (List.length l <= n)%nat -> Nat.even i = true ->
    mpc_loop i l xs ys
    = ((xs ++ fst (deal l))%list, (ys ++ snd (deal l))%list).
Proof.
  induction n as [| n IH]; intros l i xs ys Hlen Hi.
  - destruct l; [| cbn in Hlen; lia]. cbn. now rewrite !app_nil_r.
  - destruct l as [| x [| y rest]].
    + cbn. now rewrite !app_nil_r.
    + cbn. rewrite Hi. cbn. now rewrite app_nil_r.
    + cbn [mpc_loop deal fst snd]. rewrite Hi.
      assert (Hodd : Nat.even (S i) = false).
      { rewrite Nat.even_succ. rewrite <- Nat.negb_even, Hi. reflexivity. }
      rewrite Hodd.
      assert (Hi' : Nat.even (S (S i)) = true) by exact Hi.
      destruct n as [| n]; [cbn in Hlen; lia |].
      assert (Hlen' : (List.length rest <= S n)%nat) by (cbn in Hlen; lia).
      rewrite (IH rest (S (S i)) _ _ Hlen' Hi').
      now rewrite <- !app_assoc.
Qed.

Lemma half_up_step (n : nat) : ((S (S n) + 1) / 2 = S ((n + 1) / 2))%nat.
Proof.
  replace (S (S n) + 1)%nat with (n + 1 + 1 * 2)%nat by lia.
  rewrite Nat.div_add by lia. lia.
Qed.

Lemma half_step (n : nat) : (S (S n) / 2 = S (n / 2))%nat.
Proof.
  replace (S (S n)) with (n + 1 * 2)%nat by lia.
  rewrite Nat.div_add by lia. lia.
Qed.

Lemma deal_slots (n : nat) :
  forall l : list double,
    (List.length l <= n)%nat ->
    fst (deal l)
    = map (fun k => nth (2 * k) l 0%float) (seq 0 ((List.length l + 1) / 2))
    /\ snd (deal l)
       = map (fun k => nth (1 + 2 * k) l 0%float) (seq 0 (List.length l / 2)).
Proof.
  induction n as [| n IH]; intros l Hlen.
  - destruct l; [| cbn in Hlen; lia]. now split.
  - destruct l as [| x [| y rest]]; [now split | now split |].
    destruct n as [| n]; [cbn in Hlen; lia |].
    assert (Hlen' : (List.length rest <= S n)%nat) by (cbn in Hlen; lia).
    destruct (IH rest Hlen') as [Hx Hy].
    cbn [deal fst snd List.length].
    rewrite half_up_step, half_step, Hx, Hy.
    cbn [seq map]. rewrite <- !seq_shift, !map_map. split.
    + f_equal. apply map_ext. intros k.
      replace (2 * S k)%nat with (S (S (2 * k))) by lia. reflexivity.
    + f_equal. apply map_ext. intros k.
      replace (1 + 2 * S k)%nat with (S (S (1 + 2 * k))) by lia. reflexivity.
Qed.

(** The loop of lines 164-171 puts the elements at the even indices from 2
    on into [mpc_x_vals] and the others into [mpc_y_vals], dropping none. *)
Lemma mpc_vals_slots (result : list double) :
  mpc_vals result = (even_slots result, odd_slots result).
Proof.
  unfold mpc_vals, even_slots, odd_slots.
  destruct result as [| r0 [| r1 l]]; [reflexivity | reflexivity |].
  cbn [skipn List.length].
  rewrite (mpc_loop_deal (List.length l) l 2 [] [] (le_n _) eq_refl).
  destruct (deal_slots (List.length l) l (le_n _)) as [-> ->].
  cbn [app]. f_equal.
  - replace (S (S (List.length l)) - 1)%nat with (List.length l + 1)%nat by lia.
    apply map_ext. intros k. reflexivity.
  - replace (S (S (List.length l)) - 2)%nat with (List.length l) by lia.
    apply map_ext. intros k. reflexivity.
Qed.

Lemma even_slots_length (result : list double) :
  List.length (even_slots result) = ((List.length result - 1) / 2)%nat.
Proof. unfold even_slots. now rewrite length_map, length_seq. Qed.

Lemma odd_slots_length (result : list double) :
  List.length (odd_slots result) = ((List.length result - 2) / 2)%nat.
Proof. unfold odd_slots. now rewrite length_map, length_seq. Qed.

(** The members of the payload that carry the optimizer's answer. *)
Lemma steer_json_command (coeffs result : list double) :
  (2 <= List.length result)%nat ->
  exists payload,
    steer_json coeffs result = Ok payload
    /\ json_field payload "steering_angle" = Ok (JNumber (nth 0 result 0%float))
    /\ json_field payload "throttle" = Ok (JNumber (nth 1 result 0%float))
    /\ json_field payload "mpc_x" = Ok (json_of_vector (even_slots result))
    /\ json_field payload "mpc_y" = Ok (json_of_vector (odd_slots result)).
Proof.
  intros Hlen. unfold steer_json.
  rewrite !vector_at_nth by lia. cbn [obind].
  rewrite mpc_vals_slots. cbn [fst snd].
  eexists. split; [reflexivity |]. repeat split.
Qed.


End Decoding.

(* ===================================================================== *)
(** ** The reply to a telemetry event *)
(* ===================================================================== *)

Section SteerReply.

Context {libm : Libm} {ext : Externals}.

Lemma last_nth (l : list double) (d : double) :
  last l d = nth (List.length l - 1) l d.
Proof.
  induction l as [| x [| y l] IH]; [reflexivity | reflexivity |].
  change (last (x :: y :: l) d) with (last (y :: l) d). rewrite IH.
  cbn [List.length]. replace (S (S (List.length l)) - 1)%nat
    with (S (S (List.length l) - 1)) by lia.
  reflexivity.
Qed.

Lemma even_slots_odd_tail (result : list double) :
  (2 <= List.length result)%nat ->
  Nat.odd (List.length result - 2) = true ->
  List.length (even_slots result) = S (List.length (odd_slots result))
  /\ last (even_slots result) 0%float = last result 0%float.
Proof.
  intros Hlen Hodd. apply Nat.odd_spec in Hodd. destruct Hodd as [m Hm].
  rewrite even_slots_length, odd_slots_length.
  assert (H1 : ((List.length result - 1) / 2 = S m)%nat).
  { replace (List.length result - 1)%nat with (0 + (S m) * 2)%nat by lia.
    now rewrite Nat.div_add by lia. }
  assert (H2 : ((List.length result - 2) / 2 = m)%nat).
  { replace (List.length result - 2)%nat with (1 + m * 2)%nat by lia.
    now rewrite Nat.div_add by lia. }
  split; [lia |].
  unfold even_slots. rewrite H1, seq_S, map_app. cbn [map].
  rewrite last_last, last_nth. f_equal. lia.
Qed.



(** C2, as the code has it. The callback does not check the shape of the
    optimizer's answer. Whenever the answer has at least two elements, the
    run returns normally and sends a steer reply in which every element
    after the first two is emitted: those at even indices in [mpc_x], those
    at odd indices in [mpc_y]. When their number is odd, [mpc_x] is one
    longer than [mpc_y] and ends with the last element of the answer. *)
Theorem result_shape_is_not_checked (mpc mpc' : MPC) (data s : string)
  (t : telemetry) (n : nat) (coeffs result : list double) :
  decodes_to data s t ->
  fits_to t n coeffs ->
  Solve mpc (state_vector coeffs (v t)) coeffs = (result, mpc') ->
  (2 <= List.length result)%nat ->
  exists payload,
    onMessage mpc data
    = (Ok tt, mpc', steer_log s t n coeffs result (steer_msg payload))
    /\ json_field payload "mpc_x" = Ok (json_of_vector (even_slots result))
    /\ json_field payload "mpc_y" = Ok (json_of_vector (odd_slots result))
    /\ (Nat.odd (List.length result - 2) = true ->
        List.length (even_slots result) = S (List.length (odd_slots result))
        /\ last (even_slots result) 0%float = last result 0%float).
Proof.
  intros Hdec Hfit Hsolve Hlen.
  destruct (steer_json_command coeffs result Hlen)
    as (payload & Hj & Hs & Ht & Hx & Hy).
  exists payload. split.
  - now apply (steer_run mpc mpc' data s t n coeffs result payload).
  - repeat split; try assumption; now apply even_slots_odd_tail.
Qed.

End SteerReply.

(** *** Runs on [frame4] in the reference environment *)

Lemma frame4_decodes (fit result : list double) :
  decodes_to (ext := Sample.externals fit result) Sample.frame4
    (hasData Sample.frame4) Sample.telemetry4.
Proof.
  split; [reflexivity |]. split; [reflexivity |]. split; [discriminate |].
  eexists. split; [vm_compute; reflexivity |]. split; reflexivity.
Qed.

Lemma frame4_fits (result : list double) :
  fits_to (libm := Sample.libm) (ext := Sample.externals Sample.fit4 result)
    Sample.telemetry4 4 Sample.fit4.
Proof.
  eexists. split; [vm_compute; reflexivity |]. split; reflexivity.
Qed.


(** The answer [0.1, 0.5, 10], with one trajectory element. *)
Lemma result_shape_is_not_checked_witness :
  exists payload,
    @onMessage Sample.libm
      (Sample.externals Sample.fit4 [0.1; 0.5; 10]%float)
      0%nat Sample.frame4
    = (Ok tt, 1%nat,
       steer_log (libm := Sample.libm) (hasData Sample.frame4)
         Sample.telemetry4 4 Sample.fit4 [0.1; 0.5; 10]%float
         (steer_msg (ext := Sample.externals Sample.fit4
                              [0.1; 0.5; 10]%float) payload))
    /\ json_field payload "mpc_x" = Ok (JArray [JNumber 10%float])
    /\ json_field payload "mpc_y" = Ok (JArray []).
Proof.
  destruct (@result_shape_is_not_checked Sample.libm
              (Sample.externals Sample.fit4 [0.1; 0.5; 10]%float)
              0%nat 1%nat Sample.frame4 _ _ 4%nat Sample.fit4
              [0.1; 0.5; 10]%float
              (frame4_decodes _ _) (frame4_fits _) eq_refl
              (le_S _ _ (le_n 2)))
    as (payload & Hrun & Hx & Hy & _).
  exists payload. repeat split; assumption.
Defined.

(** An answer whose trajectory part has odd length raises nothing: the run
    returns normally and sends a steer reply that carries the unpaired
    element. *)
Lemma odd_trajectory_is_sent :
  let payload :=
    JObject
      [("mpc_x", JArray [JNumber 10%float]);
       ("mpc_y", JArray []);
       ("next_x", json_of_vector next_x_vals);
       ("next_y", json_of_vector (next_y_vals (libm := Sample.libm) Sample.fit4));
       ("steering_angle", JNumber 0.1%float);
       ("throttle", JNumber 0.5%float)] in
  Nat.odd (List.length [0.1; 0.5; 10]%float - 2) = true
  /\ @onMessage Sample.libm
       (Sample.externals Sample.fit4 [0.1; 0.5; 10]%float)
       0%nat Sample.frame4
     = (Ok tt, 1%nat,
        [Call_parse (hasData Sample.frame4); Loop_transform 4;
         Call_polyfit 4 3;
         Call_Solve [0; 0; 0; 12.5; 0.5; -0]%float Sample.fit4;
         Cout "Angle: " 0.1%float; Cout "Acc: " 0.5%float;
         Sleep_for 100;
         Ws_send ("42[" ++ quoted "steer" ++ ","
                  ++ Sample.write_json payload ++ "]")]).
Proof. split; [reflexivity | vm_compute; reflexivity]. Qed.

(* ===================================================================== *)
(** ** The tracking errors *)
(* ===================================================================== *)

Section Tracking.

Context {libm : Libm}.

Local Open Scope float_scope.

(** [polyeval] of four coefficients at 0, with the values C fixes for
    [pow(0, i)]. *)
Lemma polyeval_at_zero (c0 c1 c2 c3 : double) :
  polyeval [c0; c1; c2; c3] 0 = 0 + c0 * 1 + c1 * 0 + c2 * 0 + c3 * 0.
Proof.
  unfold polyeval. cbn [polyeval_loop].
  change (double_of_nat 0) with 0.
  rewrite pow_zero_exponent.
  rewrite !pow_zero_base by reflexivity.
  reflexivity.
Qed.

(** Adding a zero to what the constant term gave leaves it as it is. *)
Lemma add_zero_term (c0 z : double) :
  is_zero z = true ->
  (if is_zero c0 then 0 else c0) + z = if is_zero c0 then 0 else c0.
Proof.
  intros Hz. destruct (is_zero c0) eqn:E0.
  - rewrite add_zero_l. now rewrite Hz.
  - now apply add_zero_r.
Qed.

(** An infinity or a NaN times zero is a NaN, and a sum with a NaN is a
    NaN. *)
Lemma mul_zero_nonfinite (x : double) :
  is_finite x = false -> is_nan (x * 0) = true.
Proof.
  unfold is_finite, is_nan. rewrite mul_spec, Prim2SF_zero.
  destruct (Prim2SF x); try discriminate; reflexivity.
Qed.

Lemma add_nan_l (x y : double) : is_nan x = true -> is_nan (x + y) = true.
Proof.
  unfold is_nan. rewrite add_spec.
  destruct (Prim2SF x); try discriminate. reflexivity.
Qed.

Lemma add_nan_r (x y : double) : is_nan y = true -> is_nan (x + y) = true.
Proof.
  unfold is_nan. rewrite add_spec.
  destruct (Prim2SF y); try discriminate.
  destruct (Prim2SF x); reflexivity.
Qed.

(** C6, as the code has it. For four coefficients and every speed [v], the
    state vector is [(0, 0, 0, v, cte, epsi)] where [cte] is the polynomial
    evaluated at 0 and [epsi] is [-atan(coefficients[1])]. When the
    coefficients after the first are finite, [cte] is [coefficients[0]]
    itself (but [+0.0] when that is [-0.0]), so it compares equal ([==])
    to it unless it is a NaN. When one of the coefficients after the first
    is an infinity or a NaN, [cte] is a NaN, whatever [coefficients[0]]
    is. *)
Theorem tracking_errors_of_model (c0 c1 c2 c3 v : double) :
  let coeffs := [c0; c1; c2; c3] in
  state_vector coeffs v = [0; 0; 0; v; cte_of coeffs; epsi_of coeffs]
  /\ cte_of coeffs = polyeval coeffs 0
  /\ epsi_of coeffs = - atan c1
  /\ (is_finite c1 = true -> is_finite c2 = true -> is_finite c3 = true ->
      cte_of coeffs = (if is_zero c0 then 0 else c0)
      /\ (is_nan c0 = false -> double_eq (cte_of coeffs) c0 = true))
  /\ (is_finite c1 = false \/ is_finite c2 = false \/ is_finite c3 = false ->
      is_nan (cte_of coeffs) = true).
Proof.
  intros coeffs.
  split; [reflexivity |]. split; [reflexivity |]. split; [reflexivity |].
  split.
  - intros H1 H2 H3.
    assert (Hcte : cte_of coeffs = if is_zero c0 then 0 else c0).
    { unfold cte_of, coeffs. rewrite polyeval_at_zero, mul_one_r, add_zero_l.
      rewrite !add_zero_term by now apply mul_zero_r.
      reflexivity. }
    split; [exact Hcte |]. intros H0.
    rewrite Hcte. destruct (is_zero c0) eqn:E0.
    + now apply double_eq_zero.
    + now apply double_eq_refl.
  - intros H. unfold cte_of, coeffs. rewrite polyeval_at_zero.
    destruct H as [H | [H | H]].
    + apply add_nan_l, add_nan_l, add_nan_r. now apply mul_zero_nonfinite.
    + apply add_nan_l, add_nan_r. now apply mul_zero_nonfinite.
    + apply add_nan_r. now apply mul_zero_nonfinite.
Qed.

(** With an infinite linear coefficient the polynomial evaluated at 0 is a
    NaN, whatever the [libm]. *)
Lemma nan_cte_of_infinite_slope :
  cte_of [1; infinity; 0; 0] = nan.
Proof. unfold cte_of. rewrite polyeval_at_zero. reflexivity. Qed.

End Tracking.

(** The model [0.5 + 0 x + 0 x^2 + 0 x^3] at speed 12.5, and a model with
    an infinite quadratic coefficient. *)
Lemma tracking_errors_of_model_witness :
  state_vector (libm := Sample.libm) Sample.fit4 12.5%float
  = [0; 0; 0; 12.5; 0.5; -0]%float
  /\ double_eq (cte_of (libm := Sample.libm) Sample.fit4) 0.5%float = true
  /\ is_nan (cte_of (libm := Sample.libm) [0.5; 0; infinity; 0]%float) = true.
Proof.
  destruct (@tracking_errors_of_model Sample.libm
              0.5%float 0%float 0%float 0%float 12.5%float)
    as (Hs & _ & _ & Hfin & _).
  destruct (Hfin eq_refl eq_refl eq_refl) as [_ He].
  split; [exact Hs |]. split; [exact (He eq_refl) |].
  refine (proj2 (proj2 (proj2 (proj2
            (@tracking_errors_of_model Sample.libm
               0.5%float 0%float infinity 0%float 12.5%float)))) _).
  right; left. reflexivity.
Defined.

(** With an infinite linear coefficient the polynomial evaluated at 0 is a
    NaN, which compares equal to nothing. *)
Lemma infinite_slope_gives_nan_cte :
  is_nan (cte_of (libm := Sample.libm) [1; infinity; 0; 0]%float) = true
  /\ double_eq (cte_of (libm := Sample.libm) [1; infinity; 0; 0]%float)
       1%float = false.
Proof. split; reflexivity. Qed.

(* ===================================================================== *)
(** ** The reference line and the latency *)
(* ===================================================================== *)

Section Reply.

Context {libm : Libm} {ext : Externals}.

Lemma next_x_vals_explicit : next_x_vals = reference_xs.
Proof. vm_compute. reflexivity. Qed.

Lemma next_y_vals_explicit (coeffs : list double) :
  next_y_vals coeffs = map (polyeval coeffs) reference_xs.
Proof.
  rewrite <- next_x_vals_explicit. unfold next_y_vals, next_x_vals.
  now rewrite map_map.
Qed.


Lemma manual_is_not_steer (payload : json) : steer_msg payload <> manual_msg.
Proof. unfold steer_msg, manual_msg. cbn. discriminate. Qed.




(** C9. In every run of the callback that sends a reply other than the
    manual one, the log ends with the 100 ms sleep immediately followed by
    the send, and nothing is sent before. So, if every step takes no
    negative time and a sleep at least as long as it asks for, the reply
    leaves at least 100 ms after the callback was entered with the
    telemetry. *)
Theorem latency_precedes_steer_reply (mpc mpc' : MPC) (data : string)
  (r : outcome unit) (log : list event) (msg : string) :
  onMessage mpc data = (r, mpc', log) ->
  In (Ws_send msg) log ->
  msg <> manual_msg ->
  exists before,
    log = (before ++ [Sleep_for 100; Ws_send msg])%list
    /\ (forall m, ~ In (Ws_send m) before)
    /\ forall dur : event -> Z,
         (forall e, (0 <= dur e)%Z) ->
         (forall ms, (ms <= dur (Sleep_for ms))%Z) ->
         exists tm, send_time dur log = Some tm /\ (100 <= tm)%Z.
Proof.
  intros Hrun Hin Hmsg.
  destruct (sends_inv mpc mpc' data r log msg Hrun Hin)
    as [(_ & Hm & _) | (s & t & n & coeffs & result & payload & angle & acc
                        & _ & _ & _ & _ & _ & _ & ->)];
    [contradiction |].
  unfold reply_log.
  eexists [_; _; _; _; _; _]. split; [reflexivity |]. split.
  - intros m Hm. cbn in Hm.
    repeat (destruct Hm as [Hm | Hm]; [discriminate |]). exact Hm.
  - intros dur Hpos Hsleep. cbn [send_time]. eexists. split; [reflexivity |].
    pose proof (Hsleep 100%Z).
    pose proof (Hpos (Call_parse s)).
    pose proof (Hpos (Loop_transform (ptsize t))).
    pose proof (Hpos (Call_polyfit n 3)).
    pose proof (Hpos (Call_Solve (state_vector coeffs (v t)) coeffs)).
    pose proof (Hpos (Cout "Angle: " angle)).
    pose proof (Hpos (Cout "Acc: " acc)).
    lia.
Qed.

End Reply.

(** The run on [frame4] with the answer [0.1, 0.5, 10, 1, 20, 2]. *)
Lemma frame4_run :
  exists msg,
    msg <> manual_msg
    /\ @onMessage Sample.libm
         (Sample.externals Sample.fit4 [0.1; 0.5; 10; 1; 20; 2]%float)
         0%nat Sample.frame4
       = (Ok tt, 1%nat,
          [Call_parse (hasData Sample.frame4); Loop_transform 4;
           Call_polyfit 4 3;
           Call_Solve [0; 0; 0; 12.5; 0.5; -0]%float Sample.fit4;
           Cout "Angle: " 0.1%float; Cout "Acc: " 0.5%float;
           Sleep_for 100; Ws_send msg]).
Proof.
  eexists. split; [| vm_compute; reflexivity]. discriminate.
Qed.



Lemma latency_precedes_steer_reply_witness :
  exists msg before tm,
    @onMessage Sample.libm
      (Sample.externals Sample.fit4 [0.1; 0.5; 10; 1; 20; 2]%float)
      0%nat Sample.frame4
    = (Ok tt, 1%nat, (before ++ [Sleep_for 100; Ws_send msg])%list)
    /\ msg <> manual_msg
    /\ send_time (fun e => match e with Sleep_for ms => Z.max 0 ms | _ => 0%Z end)
         (before ++ [Sleep_for 100; Ws_send msg])%list = Some tm
    /\ (100 <= tm)%Z.
Proof.
  destruct frame4_run as (msg & Hne & Hrun).
  destruct (@latency_precedes_steer_reply Sample.libm
              (Sample.externals Sample.fit4 [0.1; 0.5; 10; 1; 20; 2]%float)
              _ _ _ _ _ msg Hrun
              (or_intror (or_intror (or_intror (or_intror (or_intror
                 (or_intror (or_intror (or_introl eq_refl)))))))) Hne)
    as (before & Hlog & _ & Htime).
  destruct (Htime (fun e => match e with Sleep_for ms => Z.max 0 ms | _ => 0%Z end))
    as (tm & Htm & Hle).
  - intros []; lia.
  - intros ms. lia.
  - exists msg, before, tm. rewrite <- Hlog.
    split; [exact Hrun |]. split; [exact Hne |]. split; [exact Htm | exact Hle].
Defined.

(* ===================================================================== *)
(** ** Rounding to binary64 *)
(* ===================================================================== *)

Section Rounding.

Import FloatOps.

Local Open Scope Z_scope.

(** A positive number of [d] binary digits lies between [2^(d-1)] and
    [2^d]. *)
Lemma digits2_bounds (m : positive) :
  2 ^ (Z.pos (digits2_pos m) - 1) <= Z.pos m < 2 ^ Z.pos (digits2_pos m).
Proof.
  induction m as [m IH | m IH |]; cbn [digits2_pos].
  - rewrite Pos2Z.inj_succ. change (Z.pos m~1) with (2 * Z.pos m + 1).
    replace (Z.succ (Z.pos (digits2_pos m)) - 1)
      with (Z.succ (Z.pos (digits2_pos m) - 1)) by lia.
    rewrite !Z.pow_succ_r by lia.
    set (a := 2 ^ (Z.pos (digits2_pos m) - 1)) in *.
    set (b := 2 ^ Z.pos (digits2_pos m)) in *. clearbody a b. lia.
  - rewrite Pos2Z.inj_succ. change (Z.pos m~0) with (2 * Z.pos m).
    replace (Z.succ (Z.pos (digits2_pos m)) - 1)
      with (Z.succ (Z.pos (digits2_pos m) - 1)) by lia.
    rewrite !Z.pow_succ_r by lia.
    set (a := 2 ^ (Z.pos (digits2_pos m) - 1)) in *.
    set (b := 2 ^ Z.pos (digits2_pos m)) in *. clearbody a b. lia.
  - cbn. lia.
Qed.

Lemma shr_1_m (mrs : shr_record) :
  0 <= shr_m mrs -> shr_m (shr_1 mrs) = shr_m mrs / 2.
Proof.
  destruct mrs as [m r s]. cbn [shr_m shr_1]. intros Hm.
  rewrite <- Z.div2_div.
  destruct m as [| p | p]; [reflexivity | | lia].
  destruct p; reflexivity.
Qed.

Lemma iter_shr_m (p : positive) :
  forall mrs, 0 <= shr_m mrs ->
    shr_m (iter_pos shr_1 p mrs) = shr_m mrs / 2 ^ Z.pos p.
Proof.
  induction p as [p IH | p IH |]; intros mrs Hm; cbn [iter_pos].
  - assert (H1 : 0 <= shr_m (shr_1 mrs)).
    { rewrite shr_1_m by exact Hm. apply Z.div_pos; lia. }
    assert (H2 : 0 <= shr_m (iter_pos shr_1 p (shr_1 mrs))).
    { rewrite IH by exact H1. apply Z.div_pos; [exact H1 | lia]. }
    rewrite IH by exact H2. rewrite IH by exact H1. rewrite shr_1_m by exact Hm.
    rewrite !Z.div_div by lia.
    f_equal. change (Z.pos p~1) with (2 * Z.pos p + 1).
    rewrite Z.pow_add_r, Z.pow_mul_r by lia.
    change (2 ^ 2) with 4. change (2 ^ 1) with 2.
    replace 4 with (2 * 2) by lia. rewrite Z.pow_mul_l. lia.
  - assert (H2 : 0 <= shr_m (iter_pos shr_1 p mrs)).
    { rewrite IH by exact Hm. apply Z.div_pos; [exact Hm | lia]. }
    rewrite IH by exact H2. rewrite IH by exact Hm.
    rewrite !Z.div_div by lia.
    f_equal. change (Z.pos p~0) with (2 * Z.pos p).
    rewrite Z.pow_mul_r by lia.
    change (2 ^ 2) with 4.
    replace 4 with (2 * 2) by lia. rewrite Z.pow_mul_l. lia.
  - rewrite shr_1_m by exact Hm. reflexivity.
Qed.

Lemma round_nearest_even_range (m : Z) (l : location) :
  m <= round_nearest_even m l <= m + 1.
Proof.
  destruct l as [| []]; cbn; try lia. destruct (Z.even m); lia.
Qed.

Lemma fexp_eq (x : Z) : fexp prec emax x = Z.max (x - 53) (-1074).
Proof. reflexivity. Qed.

Lemma shr_spec (mrs : shr_record) (e n : Z) :
  0 <= shr_m mrs ->
  (n <= 0 /\ shr mrs e n = (mrs, e))
  \/ (0 < n /\ exists mrs', shr mrs e n = (mrs', e + n)
                          /\ shr_m mrs' = shr_m mrs / 2 ^ n).
Proof.
  intros Hm. destruct n as [| p | p]; cbn [shr].
  - left. split; [lia | reflexivity].
  - right. split; [lia |]. eexists. split; [reflexivity |].
    now apply iter_shr_m.
  - left. split; [lia | reflexivity].
Qed.

(** Rounding a positive integer mantissa. *)
Lemma round_aux_spec (s : bool) (m : positive) (e : Z) :
  Z.pos (digits2_pos m) + e <= 970 ->
  exists (m3 e3 : Z),
    binary_round_aux prec emax s (Z.pos m) e loc_Exact
    = match m3 with
      | Z0 => S754_zero s
      | Zpos p => S754_finite s p e3
      | Zneg _ => S754_nan
      end
    /\ 0 <= m3 /\ e <= e3
    /\ (m3 * 2 ^ (e3 - e) = Z.pos m
        \/ Z.abs (m3 * 2 ^ (e3 - e) - Z.pos m) * 2 ^ 52 <= Z.pos m
        \/ (e <= -1074
            /\ Z.abs (m3 * 2 ^ (e3 - e) - Z.pos m) <= 2 ^ (-1074 - e))).
Proof.
  intros Hsmall.
  pose proof (digits2_bounds m) as Hd.
  set (d := Z.pos (digits2_pos m)) in *.
  assert (Hd1 : 1 <= d) by (unfold d; lia).
  unfold binary_round_aux, shr_fexp.
  change (Zdigits2 (Z.pos m)) with d. rewrite fexp_eq.
  set (E := Z.max (d + e - 53) (-1074)).
  cbn [shr_record_of_loc].
  (* first shift *)
  destruct (shr_spec {| shr_m := Z.pos m; shr_r := false; shr_s := false |}
              e (E - e) ltac:(cbn; lia))
    as [[Hn1 ->] | [Hn1 (mrs' & -> & Hm1)]].
  - (* no shift: exact *)
    cbn [shr_m loc_of_shr_record round_nearest_even].
    change (Zdigits2 (Z.pos m)) with d. rewrite fexp_eq. fold E.
    destruct (shr_spec {| shr_m := Z.pos m; shr_r := false; shr_s := false |}
                e (E - e) ltac:(cbn; lia))
      as [[_ ->] | [Hn2 _]]; [| lia].
    cbn [shr_m].
    exists (Z.pos m), e. 
    assert (He : (e <=? emax - prec) = true) by (apply Z.leb_le; change (emax - prec) with 971; lia).
    rewrite He. split; [reflexivity |]. split; [lia |]. split; [lia |].
    left. rewrite Z.sub_diag. cbn. lia.
  - (* shifted by n1 = E - e > 0 *)
    cbn [shr_m] in Hm1.
    set (n1 := E - e) in *.
    set (m1 := shr_m mrs') in *.
    pose proof (round_nearest_even_range m1 (loc_of_shr_record mrs')) as Hm2.
    set (m2 := round_nearest_even m1 (loc_of_shr_record mrs')) in *.
    assert (H2n : 0 < 2 ^ n1) by (apply Z.pow_pos_nonneg; lia).
    assert (Hm1pos : 0 <= m1) by (rewrite Hm1; apply Z.div_pos; lia).
    assert (Hfloor : m1 * 2 ^ n1 <= Z.pos m < (m1 + 1) * 2 ^ n1).
    { rewrite Hm1. pose proof (Z.mul_div_le (Z.pos m) (2 ^ n1) H2n).
      pose proof (Z.mul_succ_div_gt (Z.pos m) (2 ^ n1) H2n). lia. }
    assert (Hm1lt : m1 < 2 ^ 53).
    { destruct (Z.le_gt_cases n1 d) as [Hle | Hgt].
      - rewrite Hm1. apply Z.div_lt_upper_bound; [lia |].
        rewrite <- Z.pow_add_r by lia.
        apply Z.lt_le_trans with (2 ^ d); [lia |].
        apply Z.pow_le_mono_r; lia.
      - rewrite Hm1. rewrite Z.div_small; [lia |].
        split; [lia |]. apply Z.lt_le_trans with (2 ^ d); [lia |].
        apply Z.pow_le_mono_r; lia. }
    assert (HE : e + n1 = E) by (unfold n1; lia).
    rewrite HE.
    (* second shift *)
    assert (Hdig2 : Zdigits2 m2 <= 54 /\ (Zdigits2 m2 = 54 -> m2 = 2 ^ 53)).
    { destruct m2 as [| p2 | p2] eqn:Ep2; cbn [Zdigits2]; [lia | | lia].
      pose proof (digits2_bounds p2) as Hd2.
      assert (Hle : Z.pos (digits2_pos p2) - 1 <= 53).
      { destruct (Z.le_gt_cases (Z.pos (digits2_pos p2) - 1) 53) as [H | H];
          [exact H |].
        exfalso.
        assert (2 ^ 54 <= 2 ^ (Z.pos (digits2_pos p2) - 1))
          by (apply Z.pow_le_mono_r; lia).
        assert (2 ^ 53 < 2 ^ 54) by (apply Z.pow_lt_mono_r; lia). lia. }
      split; [lia |]. intros H54. rewrite H54 in Hd2.
      change (54 - 1) with 53 in Hd2. lia. }
    rewrite fexp_eq.
    destruct (shr_spec {| shr_m := m2; shr_r := false; shr_s := false |}
                E (Z.max (Zdigits2 m2 + E - 53) (-1074) - E)
                ltac:(cbn; lia))
      as [[Hn2 ->] | [Hn2 (mrs'' & -> & Hm3)]].
    + (* no second shift *)
      cbn [shr_m].
      exists m2, E. split; [| split; [lia | split; [unfold E; lia |]]].
      * destruct m2 as [| p2 | p2]; [reflexivity | | lia].
        assert (He : (E <=? emax - prec) = true)
          by (apply Z.leb_le; change (emax - prec) with 971; unfold E; lia).
        now rewrite He.
      * replace (E - e) with n1 by (unfold n1; lia).
        assert (Herr : Z.abs (m2 * 2 ^ n1 - Z.pos m) <= 2 ^ n1) by nia.
        destruct (Z.max_spec (d + e - 53) (-1074)) as [[Hc HEq] | [Hc HEq]];
          fold E in HEq.
        -- right; right. split; [unfold n1 in *; lia |].
           replace (-1074 - e) with n1 by (unfold n1; lia). exact Herr.
        -- right; left.
           assert (Hn1d : n1 = d - 53) by (unfold n1; lia).
           assert (2 ^ n1 * 2 ^ 52 = 2 ^ (d - 1)).
           { rewrite <- Z.pow_add_r by lia. f_equal. lia. }
           nia.
    + (* second shift: the mantissa was rounded up to 2^53 *)
      cbn [shr_m] in Hm3.
      assert (Hn2eq : Z.max (Zdigits2 m2 + E - 53) (-1074) - E = 1)
        by (unfold E in *; lia).
      assert (Hm2eq : m2 = 2 ^ 53) by (apply Hdig2; unfold E in *; lia).
      rewrite Hn2eq in *. rewrite Hm2eq in Hm3.
      change (2 ^ 53 / 2 ^ 1) with (2 ^ 52) in Hm3.
      rewrite Hm3. change (2 ^ 52) with (Z.pos (2 ^ 52)%positive).
      cbv iota.
      exists (2 ^ 52), (E + 1).
      assert (He : (E + 1 <=? emax - prec) = true)
        by (apply Z.leb_le; change (emax - prec) with 971; unfold E; lia).
      rewrite He. split; [reflexivity |]. split; [lia |].
      split; [unfold E; lia |].
      replace (E + 1 - e) with (n1 + 1) by (unfold n1; lia).
      rewrite Z.pow_add_r by lia. change (2 ^ 1) with 2.
      assert (Herr : Z.abs (2 ^ 53 * 2 ^ n1 - Z.pos m) <= 2 ^ n1)
        by (rewrite <- Hm2eq; nia).
      replace (2 ^ 52 * (2 ^ n1 * 2)) with (2 ^ 53 * 2 ^ n1)
        by (change (2 ^ 53) with (2 * 2 ^ 52); ring).
      destruct (Z.max_spec (d + e - 53) (-1074)) as [[Hc HEq] | [Hc HEq]];
        fold E in HEq.
      * right; right. split; [unfold n1 in *; lia |].
        replace (-1074 - e) with n1 by (unfold n1; lia). exact Herr.
      * right; left.
        assert (Hn1d : n1 = d - 53) by (unfold n1; lia).
        assert (2 ^ n1 * 2 ^ 52 = 2 ^ (d - 1)).
        { rewrite <- Z.pow_add_r by lia. f_equal. lia. }
        nia.
Qed.

Lemma iter_xO (m d : positive) :
  Z.pos (Pos.iter xO m d) = (Z.pos m * 2 ^ Z.pos d)%Z.
Proof.
  induction d as [| d IH] using Pos.peano_ind.
  - cbn. lia.
  - rewrite Pos.iter_succ, Pos2Z.inj_succ, Z.pow_succ_r by lia.
    change (Z.pos (Pos.iter xO m d)~0) with (2 * Z.pos (Pos.iter xO m d))%Z.
    rewrite IH. ring.
Qed.

End Rounding.

Module RoundingError.

Import Reals Lra.
Import FloatOps.
Import RealValue.

Local Open Scope R_scope.

Lemma bpow_pos (e : Z) : 0 < bpow e.
Proof. apply powerRZ_lt. lra. Qed.

Lemma bpow_add (a b : Z) : bpow (a + b) = bpow a * bpow b.
Proof. apply powerRZ_add. lra. Qed.

Lemma bpow_nonneg (z : Z) : (0 <= z)%Z -> bpow z = IZR (2 ^ z).
Proof.
  intros Hz. unfold bpow. rewrite <- (Z2Nat.id z Hz).
  now rewrite <- pow_powerRZ, <- pow_IZR.
Qed.

Lemma bpow_le (a b : Z) : (a <= b)%Z -> bpow a <= bpow b.
Proof.
  intros Hab. replace b with (a + (b - a))%Z by lia.
  rewrite bpow_add, (bpow_nonneg (b - a)) by lia.
  pose proof (bpow_pos a) as Ha.
  assert (1 <= IZR (2 ^ (b - a))).
  { apply (IZR_le 1). pose proof (Z.pow_pos_nonneg 2 (b - a)). lia. }
  nra.
Qed.

Lemma eps_eq : eps = / IZR (2 ^ 52).
Proof. reflexivity. Qed.

Lemma eta_pos : 0 < eta.
Proof. apply bpow_pos. Qed.

Lemma eta_small : eta <= / 1267650600228229401496703205376.
Proof.
  unfold eta. apply Rle_trans with (bpow (-100)); [apply bpow_le; lia |].
  unfold bpow. change (-100)%Z with (Z.opp 100). rewrite powerRZ_neg'.
  change 100%Z with (Z.of_nat 100). rewrite <- pow_powerRZ, pow_IZR.
  apply Req_le. reflexivity.
Qed.

(** The value of a rounded mantissa. *)
Lemma round_aux_R (s : bool) (m : positive) (e : Z) :
  (Z.pos (digits2_pos m) + e <= 970)%Z ->
  let r := binary_round_aux prec emax s (Z.pos m) e loc_Exact in
  let v := (if s then -1 else 1) * (IZR (Z.pos m) * bpow e) in
  SF_is_finite r = true /\ Rabs (SF2R r - v) <= Rabs v * eps + eta.
Proof.
  intros Hsmall r v.
  destruct (round_aux_spec s m e Hsmall) as (m3 & e3 & Hr & Hm3 & He3 & Herr).
  fold r in Hr.
  assert (Hval : SF2R r
                 = (if s then -1 else 1) * (IZR (m3 * 2 ^ (e3 - e)) * bpow e)).
  { rewrite Hr. rewrite mult_IZR, <- bpow_nonneg by lia.
    replace (IZR m3 * bpow (e3 - e) * bpow e) with (IZR m3 * bpow e3).
    2:{ replace e3 with ((e3 - e) + e)%Z at 1 by lia. rewrite bpow_add. ring. }
    destruct m3 as [| p | p]; [cbn; lra | reflexivity | lia]. }
  split; [rewrite Hr; destruct m3; try reflexivity; lia |].
  pose proof (bpow_pos e) as Hbe. pose proof eta_pos as Heta.
  assert (Hm : 0 < IZR (Z.pos m)) by (apply (IZR_lt 0); lia).
  assert (Habsv : Rabs v = IZR (Z.pos m) * bpow e).
  { unfold v. destruct s.
    - rewrite Rabs_left by nra. ring.
    - rewrite Rabs_right by nra. ring. }
  assert (Hdiff : Rabs (SF2R r - v)
                  = IZR (Z.abs (m3 * 2 ^ (e3 - e) - Z.pos m)) * bpow e).
  { rewrite Hval. unfold v. rewrite abs_IZR, minus_IZR.
    set (a := IZR (m3 * 2 ^ (e3 - e))). set (b := IZR (Z.pos m)).
    replace ((if s then -1 else 1) * (a * bpow e)
             - (if s then -1 else 1) * (b * bpow e))
      with ((if s then -1 else 1) * ((a - b) * bpow e)) by ring.
    rewrite Rabs_mult, (Rabs_mult (a - b)), (Rabs_right (bpow e)) by lra.
    destruct s.
    - rewrite Rabs_left by lra. ring.
    - rewrite Rabs_right by lra. ring. }
  rewrite Hdiff, Habsv.
  assert (Heps : 0 < eps) by (unfold eps; lra).
  assert (Hv : 0 < IZR (Z.pos m) * bpow e) by (apply Rmult_lt_0_compat; lra).
  assert (Hve : 0 < IZR (Z.pos m) * bpow e * eps)
    by (apply Rmult_lt_0_compat; lra).
  destruct Herr as [Hex | [Hrel | [He Habs]]].
  - rewrite Hex, Z.sub_diag. cbn [Z.abs]. lra.
  - apply IZR_le in Hrel. rewrite mult_IZR in Hrel.
    set (k := IZR (Z.abs (m3 * 2 ^ (e3 - e) - Z.pos m))) in *.
    assert (k <= IZR (Z.pos m) * eps).
    { rewrite eps_eq. apply (Rmult_le_reg_r (IZR (2 ^ 52))).
      - apply (IZR_lt 0). reflexivity.
      - rewrite Rmult_assoc, Rinv_l; [lra |]. apply not_0_IZR. discriminate. }
    apply Rle_trans with (IZR (Z.pos m) * eps * bpow e); [| lra].
    apply Rmult_le_compat_r; lra.
  - apply IZR_le in Habs. rewrite <- bpow_nonneg in Habs by lia.
    set (k := IZR (Z.abs (m3 * 2 ^ (e3 - e) - Z.pos m))) in *.
    assert (k * bpow e <= eta).
    { unfold eta. replace (-1074)%Z with ((-1074 - e) + e)%Z by lia.
      rewrite bpow_add. apply Rmult_le_compat_r; lra. }
    lra.
Qed.

Lemma huge_eq : huge = bpow 100.
Proof. rewrite bpow_nonneg by lia. reflexivity. Qed.

(** A mantissa and exponent of a small value. *)
Lemma digits_small (m : positive) (e : Z) :
  IZR (Z.pos m) * bpow e <= huge ->
  (Z.pos (digits2_pos m) + e <= 970)%Z.
Proof.
  intros Hv. destruct (Z.le_gt_cases (Z.pos (digits2_pos m) + e) 970)
    as [H | H]; [exact H | exfalso].
  pose proof (digits2_bounds m) as [Hd _].
  apply IZR_le in Hd. rewrite <- bpow_nonneg in Hd by lia.
  pose proof (bpow_pos e) as He.
  assert (bpow (Z.pos (digits2_pos m) - 1 + e) <= IZR (Z.pos m) * bpow e).
  { rewrite bpow_add. apply Rmult_le_compat_r; lra. }
  assert (bpow 101 <= bpow (Z.pos (digits2_pos m) - 1 + e))
    by (apply bpow_le; lia).
  assert (bpow 101 = 2 * huge).
  { rewrite huge_eq. change 101%Z with (1 + 100)%Z. rewrite bpow_add.
    replace (bpow 1) with 2 by (symmetry; apply (powerRZ_1 2)).
    reflexivity. }
  pose proof (bpow_pos 100). rewrite <- huge_eq in *. lra.
Qed.

Lemma shl_align_value (m : positive) (e e' : Z) :
  IZR (Z.pos (fst (shl_align m e e'))) * bpow (snd (shl_align m e e'))
  = IZR (Z.pos m) * bpow e
  /\ ((e' <= e)%Z -> snd (shl_align m e e') = e').
Proof.
  unfold shl_align. destruct (e' - e)%Z as [| d | d] eqn:Hd; cbn [fst snd].
  - split; [reflexivity | lia].
  - split; [reflexivity | lia].
  - split; [| reflexivity].
    rewrite iter_xO, mult_IZR, <- bpow_nonneg by lia.
    assert (e = (Z.pos d + e')%Z) as -> by lia. rewrite bpow_add. ring.
Qed.

Lemma binary_round_R (s : bool) (m : positive) (e : Z) :
  IZR (Z.pos m) * bpow e <= huge ->
  let r := binary_round prec emax s m e in
  let v := (if s then -1 else 1) * (IZR (Z.pos m) * bpow e) in
  SF_is_finite r = true /\ Rabs (SF2R r - v) <= Rabs v * eps + eta.
Proof.
  intros Hv r v. unfold r, binary_round.
  destruct (shl_align_value m e
              (fexp prec emax (Z.pos (digits2_pos m) + e))) as [Hval _].
  destruct (shl_align m e (fexp prec emax (Z.pos (digits2_pos m) + e)))
    as [mz ez]. cbn [fst snd] in Hval.
  unfold v. rewrite <- Hval.
  apply round_aux_R. apply digits_small. now rewrite Hval.
Qed.

Lemma binary_normalize_R (m : Z) (e : Z) (sz : bool) :
  Rabs (IZR m * bpow e) <= huge ->
  let r := binary_normalize prec emax m e sz in
  SF_is_finite r = true
  /\ Rabs (SF2R r - IZR m * bpow e) <= Rabs (IZR m * bpow e) * eps + eta.
Proof.
  intros Hv r. unfold r, binary_normalize.
  pose proof (bpow_pos e) as He. pose proof eta_pos as Heta.
  destruct m as [| p | p].
  - cbn [SF_is_finite SF2R]. split; [reflexivity |].
    rewrite Rmult_0_l, Rminus_diag, Rabs_R0. lra.
  - assert (Hp : 0 < IZR (Z.pos p)) by (apply (IZR_lt 0); lia).
    rewrite Rabs_right in Hv by nra.
    pose proof (binary_round_R false p e Hv) as H. cbv zeta in H.
    now rewrite Rmult_1_l in H.
  - assert (Hp : 0 < IZR (Z.pos p)) by (apply (IZR_lt 0); lia).
    change (Z.neg p) with (- Z.pos p)%Z in *. rewrite opp_IZR in *.
    rewrite Rabs_left in Hv by nra.
    assert (Hv' : IZR (Z.pos p) * bpow e <= huge) by lra.
    pose proof (binary_round_R true p e Hv') as H. cbv zeta in H.
    replace (- IZR (Z.pos p) * bpow e)
      with (-1 * (IZR (Z.pos p) * bpow e)) by ring.
    exact H.
Qed.

Lemma SF2R_finite (s : bool) (m : positive) (e : Z) :
  SF2R (S754_finite s m e) = IZR (cond_Zopp s (Z.pos m)) * bpow e.
Proof. destruct s; cbn [SF2R cond_Zopp]; [| ring].
  change (- Z.pos m)%Z with (Z.neg m). change (Z.neg m) with (- Z.pos m)%Z.
  rewrite opp_IZR. ring. Qed.

Lemma aligned_value (s : bool) (m : positive) (e ez : Z) :
  (ez <= e)%Z ->
  IZR (cond_Zopp s (Z.pos (fst (shl_align m e ez)))) * bpow ez
  = SF2R (S754_finite s m e).
Proof.
  intros Hez. destruct (shl_align_value m e ez) as [Hval Hsnd].
  rewrite (Hsnd Hez) in Hval. rewrite SF2R_finite.
  destruct s; cbn [cond_Zopp].
  - change (- Z.pos (fst (shl_align m e ez)))%Z
      with (Z.opp (Z.pos (fst (shl_align m e ez)))).
    rewrite !opp_IZR. lra.
  - exact Hval.
Qed.

Lemma zero_err (v : R) : v = 0 -> Rabs (0 - v) <= Rabs v * eps + eta.
Proof.
  intros ->. rewrite Rminus_diag, Rabs_R0. pose proof eta_pos. lra.
Qed.

Lemma exact_err (v : R) : Rabs (v - v) <= Rabs v * eps + eta.
Proof.
  rewrite Rminus_diag, Rabs_R0. pose proof eta_pos.
  pose proof (Rabs_pos v). assert (0 < eps) by (unfold eps; lra). nra.
Qed.

Lemma SFadd_R (x y : spec_float) :
  SF_is_finite x = true -> SF_is_finite y = true ->
  Rabs (SF2R x + SF2R y) <= huge ->
  SF_is_finite (SFadd prec emax x y) = true
  /\ Rabs (SF2R (SFadd prec emax x y) - (SF2R x + SF2R y))
     <= Rabs (SF2R x + SF2R y) * eps + eta.
Proof.
  intros Hx Hy Hv.
  destruct x as [sx | sx | | sx mx ex]; try discriminate;
    destruct y as [sy | sy | | sy my ey]; try discriminate.
  - split; [now destruct sx, sy |].
    replace (SF2R (SFadd prec emax (S754_zero sx) (S754_zero sy))) with 0
      by now destruct sx, sy.
    apply zero_err. cbn. lra.
  - cbn [SFadd]. split; [reflexivity |].
    replace (SF2R (S754_zero sx) + SF2R (S754_finite sy my ey))
      with (SF2R (S754_finite sy my ey)) by (cbn; lra).
    apply exact_err.
  - cbn [SFadd]. split; [reflexivity |].
    replace (SF2R (S754_finite sx mx ex) + SF2R (S754_zero sy))
      with (SF2R (S754_finite sx mx ex)) by (cbn; lra).
    apply exact_err.
  - cbn [SFadd].
    set (ez := Z.min ex ey).
    set (m := (cond_Zopp sx (Z.pos (fst (shl_align mx ex ez)))
               + cond_Zopp sy (Z.pos (fst (shl_align my ey ez))))%Z).
    assert (Hm : IZR m * bpow ez
                 = SF2R (S754_finite sx mx ex) + SF2R (S754_finite sy my ey)).
    { unfold m. rewrite plus_IZR, Rmult_plus_distr_r.
      rewrite !aligned_value by (unfold ez; lia). reflexivity. }
    rewrite <- Hm in *. now apply binary_normalize_R.
Qed.

Lemma SFsub_R (x y : spec_float) :
  SF_is_finite x = true -> SF_is_finite y = true ->
  Rabs (SF2R x - SF2R y) <= huge ->
  SF_is_finite (SFsub prec emax x y) = true
  /\ Rabs (SF2R (SFsub prec emax x y) - (SF2R x - SF2R y))
     <= Rabs (SF2R x - SF2R y) * eps + eta.
Proof.
  intros Hx Hy Hv.
  destruct x as [sx | sx | | sx mx ex]; try discriminate;
    destruct y as [sy | sy | | sy my ey]; try discriminate.
  - split; [now destruct sx, sy |].
    replace (SF2R (SFsub prec emax (S754_zero sx) (S754_zero sy))) with 0
      by now destruct sx, sy.
    apply zero_err. cbn. lra.
  - cbn [SFsub]. split; [reflexivity |].
    replace (SF2R (S754_zero sx) - SF2R (S754_finite sy my ey))
      with (SF2R (S754_finite (negb sy) my ey))
      by (destruct sy; cbn; lra).
    apply exact_err.
  - cbn [SFsub]. split; [reflexivity |].
    replace (SF2R (S754_finite sx mx ex) - SF2R (S754_zero sy))
      with (SF2R (S754_finite sx mx ex)) by (cbn; lra).
    apply exact_err.
  - cbn [SFsub].
    set (ez := Z.min ex ey).
    set (m := (cond_Zopp sx (Z.pos (fst (shl_align mx ex ez)))
               - cond_Zopp sy (Z.pos (fst (shl_align my ey ez))))%Z).
    assert (Hm : IZR m * bpow ez
                 = SF2R (S754_finite sx mx ex) - SF2R (S754_finite sy my ey)).
    { unfold m. rewrite minus_IZR, Rmult_minus_distr_r.
      rewrite !aligned_value by (unfold ez; lia). reflexivity. }
    rewrite <- Hm in *. now apply binary_normalize_R.
Qed.

Lemma SFmul_R (x y : spec_float) :
  SF_is_finite x = true -> SF_is_finite y = true ->
  Rabs (SF2R x * SF2R y) <= huge ->
  SF_is_finite (SFmul prec emax x y) = true
  /\ Rabs (SF2R (SFmul prec emax x y) - SF2R x * SF2R y)
     <= Rabs (SF2R x * SF2R y) * eps + eta.
Proof.
  intros Hx Hy Hv.
  destruct x as [sx | sx | | sx mx ex]; try discriminate;
    destruct y as [sy | sy | | sy my ey]; try discriminate;
    try (cbn [SFmul SF_is_finite]; split; [reflexivity |];
         apply zero_err; cbn; lra).
  cbn [SFmul].
  assert (Hprod : SF2R (S754_finite sx mx ex) * SF2R (S754_finite sy my ey)
                  = (if xorb sx sy then -1 else 1)
                    * (IZR (Z.pos (mx * my)) * bpow (ex + ey))).
  { cbn [SF2R]. rewrite Pos2Z.inj_mul, mult_IZR, bpow_add.
    destruct sx, sy; cbn [xorb]; ring. }
  rewrite Hprod in *. apply round_aux_R. apply digits_small.
  pose proof (bpow_pos (ex + ey)).
  assert (0 < IZR (Z.pos (mx * my))) by (apply (IZR_lt 0); lia).
  destruct (xorb sx sy).
  - rewrite Rabs_left in Hv by nra. lra.
  - rewrite Rabs_right in Hv by nra. lra.
Qed.

(** The three operations on finite doubles of moderate size. *)
Lemma add_R (x y : float) :
  is_finite x = true -> is_finite y = true ->
  Rabs (B2R x + B2R y) <= huge ->
  is_finite (x + y)%float = true
  /\ Rabs (B2R (x + y)%float - (B2R x + B2R y))
     <= Rabs (B2R x + B2R y) * eps + eta.
Proof.
  unfold is_finite, B2R. rewrite add_spec. apply SFadd_R.
Qed.

Lemma sub_R (x y : float) :
  is_finite x = true -> is_finite y = true ->
  Rabs (B2R x - B2R y) <= huge ->
  is_finite (x - y)%float = true
  /\ Rabs (B2R (x - y)%float - (B2R x - B2R y))
     <= Rabs (B2R x - B2R y) * eps + eta.
Proof.
  unfold is_finite, B2R. rewrite sub_spec. apply SFsub_R.
Qed.

Lemma mul_R (x y : float) :
  is_finite x = true -> is_finite y = true ->
  Rabs (B2R x * B2R y) <= huge ->
  is_finite (x * y)%float = true
  /\ Rabs (B2R (x * y)%float - B2R x * B2R y)
     <= Rabs (B2R x * B2R y) * eps + eta.
Proof.
  unfold is_finite, B2R. rewrite mul_spec. apply SFmul_R.
Qed.

Lemma approx_exact (f : float) (M : R) :
  is_finite f = true -> Rabs (B2R f) <= M -> approx f (B2R f) 0 M.
Proof.
  intros Hf HM. split; [exact Hf |]. split; [| exact HM].
  rewrite Rminus_diag, Rabs_R0. lra.
Qed.

Lemma approx_weaken (f : float) (r d d' M M' : R) :
  approx f r d M -> d <= d' -> M <= M' -> approx f r d' M'.
Proof. intros (Hf & Hd & HM) Hdd HMM. repeat split; [exact Hf | lra | lra]. Qed.

Lemma Rabs_le_inv (x a : R) : Rabs x <= a -> - a <= x <= a.
Proof. unfold Rabs. destruct (Rcase_abs x); lra. Qed.

Lemma approx_sub (a b : float) (ra rb da db Ma Mb : R) :
  approx a ra da Ma -> approx b rb db Mb ->
  Ma + Mb + da + db <= huge ->
  approx (a - b)%float (ra - rb)
    (da + db + (Ma + Mb + da + db) * eps + tiny) (Ma + Mb).
Proof.
  intros (Ha & Hda & HMa) (Hb & Hdb & HMb) Hhuge.
  apply Rabs_le_inv in Hda, Hdb, HMa, HMb.
  assert (HD : Rabs (B2R a - B2R b) <= Ma + Mb + da + db)
    by (apply Rabs_le; lra).
  destruct (sub_R a b Ha Hb) as [Hfin Herr]; [lra |].
  split; [exact Hfin |]. split; [| apply Rabs_le; lra].
  pose proof eta_small as Heta. fold tiny in Heta.
  assert (Heps : 0 < eps) by (unfold eps; lra).
  assert (Rabs (B2R a - B2R b) * eps <= (Ma + Mb + da + db) * eps)
    by (apply Rmult_le_compat_r; lra).
  apply Rabs_le_inv in Herr. apply Rabs_le. lra.
Qed.

Lemma approx_add (a b : float) (ra rb da db Ma Mb : R) :
  approx a ra da Ma -> approx b rb db Mb ->
  Ma + Mb + da + db <= huge ->
  approx (a + b)%float (ra + rb)
    (da + db + (Ma + Mb + da + db) * eps + tiny) (Ma + Mb).
Proof.
  intros (Ha & Hda & HMa) (Hb & Hdb & HMb) Hhuge.
  apply Rabs_le_inv in Hda, Hdb, HMa, HMb.
  assert (HD : Rabs (B2R a + B2R b) <= Ma + Mb + da + db)
    by (apply Rabs_le; lra).
  destruct (add_R a b Ha Hb) as [Hfin Herr]; [lra |].
  split; [exact Hfin |]. split; [| apply Rabs_le; lra].
  pose proof eta_small as Heta. fold tiny in Heta.
  assert (Heps : 0 < eps) by (unfold eps; lra).
  assert (Rabs (B2R a + B2R b) * eps <= (Ma + Mb + da + db) * eps)
    by (apply Rmult_le_compat_r; lra).
  apply Rabs_le_inv in Herr. apply Rabs_le. lra.
Qed.

Lemma Rabs_mult_le (x y X Y : R) :
  Rabs x <= X -> Rabs y <= Y -> Rabs (x * y) <= X * Y.
Proof.
  intros Hx Hy. rewrite Rabs_mult.
  pose proof (Rabs_pos x). pose proof (Rabs_pos y).
  apply Rmult_le_compat; lra.
Qed.

Lemma approx_mul (a b : float) (ra rb da db Ma Mb : R) :
  approx a ra da Ma -> approx b rb db Mb ->
  (Ma + da) * (Mb + db) <= huge ->
  approx (a * b)%float (ra * rb)
    (da * (Mb + db) + Ma * db + (Ma + da) * (Mb + db) * eps + tiny)
    (Ma * Mb).
Proof.
  intros (Ha & Hda & HMa) (Hb & Hdb & HMb) Hhuge.
  assert (HA : Rabs (B2R a) <= Ma + da).
  { replace (B2R a) with ((B2R a - ra) + ra) by ring.
    eapply Rle_trans; [apply Rabs_triang | lra]. }
  assert (HB : Rabs (B2R b) <= Mb + db).
  { replace (B2R b) with ((B2R b - rb) + rb) by ring.
    eapply Rle_trans; [apply Rabs_triang | lra]. }
  pose proof (Rabs_mult_le _ _ _ _ HA HB) as HAB.
  destruct (mul_R a b Ha Hb) as [Hfin Herr]; [lra |].
  split; [exact Hfin |]. split; [| now apply Rabs_mult_le].
  pose proof eta_small as Heta. fold tiny in Heta.
  assert (Heps : 0 < eps) by (unfold eps; lra).
  assert (Rabs (B2R a * B2R b) * eps <= (Ma + da) * (Mb + db) * eps)
    by (apply Rmult_le_compat_r; lra).
  assert (Hmodel : Rabs (B2R a * B2R b - ra * rb)
                   <= da * (Mb + db) + Ma * db).
  { replace (B2R a * B2R b - ra * rb)
      with ((B2R a - ra) * B2R b + ra * (B2R b - rb)) by ring.
    eapply Rle_trans; [apply Rabs_triang |].
    pose proof (Rabs_mult_le _ _ _ _ Hda HB).
    pose proof (Rabs_mult_le _ _ _ _ HMa Hdb). lra. }
  replace (B2R (a * b)%float - ra * rb)
    with ((B2R (a * b)%float - B2R a * B2R b)
          + (B2R a * B2R b - ra * rb)) by ring.
  eapply Rle_trans; [apply Rabs_triang | lra].
Qed.

(** The way back undoes the way there, up to what the two rotations
    leave: the algebra of the round trip. *)
Lemma round_trip_x (rt x y p c s c' s' : R) :
  rt - (x + p)
  = (rt - ((x * c - y * s) * c' - (x * s + y * c) * s' + p))
    + x * (c * c' - s * s' - 1) - y * (s * c' + c * s').
Proof. ring. Qed.

Lemma round_trip_y (rt x y p c s c' s' : R) :
  rt - (y + p)
  = (rt - ((x * c - y * s) * s' + (x * s + y * c) * c' + p))
    + x * (s * c' + c * s') + y * (c * c' - s * s' - 1).
Proof. ring. Qed.

(** The value of a double whose mantissa and exponent are known. *)
Lemma bpow_neg (p : positive) : bpow (Z.neg p) = / IZR (2 ^ Z.pos p).
Proof.
  unfold bpow. change (Z.neg p) with (Z.opp (Z.pos p)).
  rewrite powerRZ_neg'. f_equal.
  rewrite <- (Z2Nat.id (Z.pos p)) at 1 by lia.
  now rewrite <- pow_powerRZ, pow_IZR, Z2Nat.id by lia.
Qed.

End RoundingError.

(* ===================================================================== *)
(** ** The transform and its inverse *)
(* ===================================================================== *)

Module RoundTrip.

Import Rdefinitions Rbasic_fun Lra.
Import RealValue RoundingError.

Local Open Scope R_scope.

Ltac numbers := unfold u, eps, tiny, huge; lra.

Lemma in_range_approx (x : double) :
  in_range x -> approx x (B2R x) 0 32768.
Proof. intros [Hf Hm]. now apply approx_exact. Qed.

Section Pose.

Context {libm : Libm}.

Variables px py psi wx wy : double.

Hypothesis Hpx : in_range px.
Hypothesis Hpy : in_range py.
Hypothesis Hwx : in_range wx.
Hypothesis Hwy : in_range wy.
Hypothesis Hacc : accurate_at psi.

Let X : R := B2R wx - B2R px.
Let Y : R := B2R wy - B2R py.
Let C : R := B2R (cos (- psi)%float).
Let S : R := B2R (sin (- psi)%float).
Let C' : R := B2R (cos psi).
Let S' : R := B2R (sin psi).

Lemma trig_approx :
  approx (cos (- psi)%float) C 0 1 /\ approx (sin (- psi)%float) S 0 1
  /\ approx (cos psi) C' 0 1 /\ approx (sin psi) S' 0 1.
Proof.
  destruct Hacc as ((F1 & F2 & F3 & F4) & (M1 & M2 & M3 & M4) & _).
  repeat split; try assumption;
    rewrite RIneq.Rminus_diag, Rabs_R0; lra.
Qed.

(** The shifted coordinates. *)
Lemma shift_approx :
  approx (wx - px)%float X (11 / 10 * u) 65536
  /\ approx (wy - py)%float Y (11 / 10 * u) 65536.
Proof.
  split.
  - eapply approx_weaken;
      [apply (approx_sub _ _ _ _ _ _ _ _
                (in_range_approx wx Hwx) (in_range_approx px Hpx))
      | numbers | numbers].
    numbers.
  - eapply approx_weaken;
      [apply (approx_sub _ _ _ _ _ _ _ _
                (in_range_approx wy Hwy) (in_range_approx py Hpy))
      | numbers | numbers].
    numbers.
Qed.

(** The coordinates in the car's frame. *)
Lemma car_approx :
  approx (fst (car_point px py psi wx wy)) (X * C - Y * S)
    (65 / 10 * u) 131072
  /\ approx (snd (car_point px py psi wx wy)) (X * S + Y * C)
       (65 / 10 * u) 131072.
Proof.
  destruct trig_approx as (Hc & Hs & _ & _).
  destruct shift_approx as (Hx & Hy).
  assert (Hxc : approx ((wx - px) * cos (- psi))%float (X * C)
                  (22 / 10 * u) 65536).
  { eapply approx_weaken;
      [apply (approx_mul _ _ _ _ _ _ _ _ Hx Hc) | numbers | numbers].
    numbers. }
  assert (Hys : approx ((wy - py) * sin (- psi))%float (Y * S)
                  (22 / 10 * u) 65536).
  { eapply approx_weaken;
      [apply (approx_mul _ _ _ _ _ _ _ _ Hy Hs) | numbers | numbers].
    numbers. }
  assert (Hxs : approx ((wx - px) * sin (- psi))%float (X * S)
                  (22 / 10 * u) 65536).
  { eapply approx_weaken;
      [apply (approx_mul _ _ _ _ _ _ _ _ Hx Hs) | numbers | numbers].
    numbers. }
  assert (Hyc : approx ((wy - py) * cos (- psi))%float (Y * C)
                  (22 / 10 * u) 65536).
  { eapply approx_weaken;
      [apply (approx_mul _ _ _ _ _ _ _ _ Hy Hc) | numbers | numbers].
    numbers. }
  unfold car_point. cbn [fst snd]. split.
  - eapply approx_weaken;
      [apply (approx_sub _ _ _ _ _ _ _ _ Hxc Hys) | numbers | numbers].
    numbers.
  - eapply approx_weaken;
      [apply (approx_add _ _ _ _ _ _ _ _ Hxs Hyc) | numbers | numbers].
    numbers.
Qed.

(** The coordinates after the way back. *)
Lemma back_approx :
  approx (fst (round_trip px py psi wx wy))
    ((X * C - Y * S) * C' - (X * S + Y * C) * S' + B2R px)
    (26 * u) 294912
  /\ approx (snd (round_trip px py psi wx wy))
       ((X * C - Y * S) * S' + (X * S + Y * C) * C' + B2R py)
       (26 * u) 294912.
Proof.
  destruct trig_approx as (_ & _ & Hc' & Hs').
  destruct car_approx as (Hcx & Hcy).
  set (cx := fst (car_point px py psi wx wy)) in *.
  set (cy := snd (car_point px py psi wx wy)) in *.
  assert (H1 : approx (cx * cos psi)%float ((X * C - Y * S) * C')
                 (86 / 10 * u) 131072).
  { eapply approx_weaken;
      [apply (approx_mul _ _ _ _ _ _ _ _ Hcx Hc') | numbers | numbers].
    numbers. }
  assert (H2 : approx (cy * sin psi)%float ((X * S + Y * C) * S')
                 (86 / 10 * u) 131072).
  { eapply approx_weaken;
      [apply (approx_mul _ _ _ _ _ _ _ _ Hcy Hs') | numbers | numbers].
    numbers. }
  assert (H3 : approx (cx * sin psi)%float ((X * C - Y * S) * S')
                 (86 / 10 * u) 131072).
  { eapply approx_weaken;
      [apply (approx_mul _ _ _ _ _ _ _ _ Hcx Hs') | numbers | numbers].
    numbers. }
  assert (H4 : approx (cy * cos psi)%float ((X * S + Y * C) * C')
                 (86 / 10 * u) 131072).
  { eapply approx_weaken;
      [apply (approx_mul _ _ _ _ _ _ _ _ Hcy Hc') | numbers | numbers].
    numbers. }
  assert (H5 : approx (cx * cos psi - cy * sin psi)%float
                 ((X * C - Y * S) * C' - (X * S + Y * C) * S')
                 (213 / 10 * u) 262144).
  { eapply approx_weaken;
      [apply (approx_sub _ _ _ _ _ _ _ _ H1 H2) | numbers | numbers].
    numbers. }
  assert (H6 : approx (cx * sin psi + cy * cos psi)%float
                 ((X * C - Y * S) * S' + (X * S + Y * C) * C')
                 (213 / 10 * u) 262144).
  { eapply approx_weaken;
      [apply (approx_add _ _ _ _ _ _ _ _ H3 H4) | numbers | numbers].
    numbers. }
  unfold round_trip, transformToWorld. cbn [fst snd]. fold cx cy. split.
  - eapply approx_weaken;
      [apply (approx_add _ _ _ _ _ _ _ _ H5 (in_range_approx px Hpx))
      | numbers | numbers].
    numbers.
  - eapply approx_weaken;
      [apply (approx_add _ _ _ _ _ _ _ _ H6 (in_range_approx py Hpy))
      | numbers | numbers].
    numbers.
Qed.

Lemma round_trip_error :
  within_R (/ 1000000000) (fst (round_trip px py psi wx wy)) wx
  /\ within_R (/ 1000000000) (snd (round_trip px py psi wx wy)) wy.
Proof.
  destruct back_approx as ((Fx & Ex & _) & (Fy & Ey & _)).
  destruct shift_approx as ((_ & _ & MX) & (_ & _ & MY)).
  destruct Hacc as (_ & _ & Hdiag & Hoff).
  fold C S C' S' in Hdiag, Hoff.
  pose proof (Rabs_mult_le _ _ _ _ MX Hdiag) as HXd.
  pose proof (Rabs_mult_le _ _ _ _ MY Hoff) as HYo.
  pose proof (Rabs_mult_le _ _ _ _ MX Hoff) as HXo.
  pose proof (Rabs_mult_le _ _ _ _ MY Hdiag) as HYd.
  apply Rabs_le_inv in Ex, Ey, HXd, HYo, HXo, HYd.
  split; (split; [assumption |]); apply Rabs_le; unfold u in *.
  - replace (B2R wx) with (X + B2R px) by (unfold X; lra).
    rewrite (round_trip_x _ X Y (B2R px) C S C' S'). lra.
  - replace (B2R wy) with (Y + B2R py) by (unfold Y; lra).
    rewrite (round_trip_y _ X Y (B2R py) C S C' S'). lra.
Qed.

End Pose.


(** C8, as far as it holds. In double arithmetic, as the program computes:
    for every pose and every point whose four coordinates are finite and at
    most 32768 in magnitude, and every heading [psi] at which [cos] and
    [sin] are accurate (see [accurate_at]), the transform to the car's
    frame (subtract [(px, py)], rotate by [-psi]) followed by the inverse
    (rotate by [psi], add [(px, py)]) gives back finite coordinates within
    [1e-9] of those of the point. *)
Theorem round_trip_within_tolerance {libm : Libm}
  (px py psi wx wy : double) :
  in_range px -> in_range py -> in_range wx -> in_range wy ->
  accurate_at psi ->
  within_R (/ 1000000000) (fst (round_trip px py psi wx wy)) wx
  /\ within_R (/ 1000000000) (snd (round_trip px py psi wx wy)) wy.
Proof. apply round_trip_error. Qed.

(** Evaluating the value of a given double. *)
Ltac value :=
  unfold B2R;
  repeat match goal with
         | |- context [Prim2SF ?x] =>
             let v := eval vm_compute in (Prim2SF x) in
             change (Prim2SF x) with v
         end;
  cbn [SF2R]; rewrite ?bpow_neg;
  repeat match goal with
         | |- context [(2 ^ Z.pos ?p)%Z] =>
             let v := eval vm_compute in (2 ^ Z.pos p)%Z in
             change (2 ^ Z.pos p)%Z with v
         end;
  apply Rabs_le; lra.

(** The point [(3, 5)] seen from the pose [(1, 2)] with heading 0. *)
Lemma round_trip_within_tolerance_witness :
  within_R (/ 1000000000)
    (fst (round_trip (libm := Sample.libm) 1 2 0 3 5)%float) 3%float
  /\ within_R (/ 1000000000)
       (snd (round_trip (libm := Sample.libm) 1 2 0 3 5)%float) 5%float.
Proof.
  apply (@round_trip_within_tolerance Sample.libm 1 2 0 3 5)%float;
    try (split; [reflexivity | value]).
  unfold accurate_at. cbv zeta.
  split; [repeat split; reflexivity |].
  split; [repeat split; value |].
  split; value.
Defined.

(** Without the bound on the coordinates the round trip can lose the
    point: the point [(1, 0)] seen from a car at [(1e17, 0)] with heading
    0 comes back as [(0, 0)], which is not within [1e-9] of it. *)
Lemma round_trip_is_off_over_doubles :
  (round_trip (libm := Sample.libm) 1e17 0 0 1 0 = (0, 0))%float
  /\ accurate_at (libm := Sample.libm) 0%float
  /\ (within 1e-9 (fst (round_trip (libm := Sample.libm) 1e17 0 0 1 0)) 1
      = false)%float
  /\ ~ within_R (/ 1000000000)
        (fst (round_trip (libm := Sample.libm) 1e17 0 0 1 0)%float) 1%float.
Proof.
  assert (E : (round_trip (libm := Sample.libm) 1e17 0 0 1 0
               = (0, 0))%float) by (vm_compute; reflexivity).
  split; [exact E |]. split; [| split; [vm_compute; reflexivity |]].
  - unfold accurate_at. cbv zeta.
    split; [repeat split; reflexivity |].
    split; [repeat split; value |].
    split; value.
  - rewrite E. cbn [fst]. intros [_ H]. revert H. unfold B2R.
    change (Prim2SF 0%float) with (S754_zero false).
    change (Prim2SF 1%float)
      with (S754_finite false 4503599627370496 (-52)).
    cbn [SF2R]. rewrite bpow_neg.
    change (2 ^ 52)%Z with 4503599627370496%Z.
    intros H. apply Rabs_le_inv in H. lra.
Qed.

End RoundTrip.

(** With any [libm], the point [(1, 0)] seen from a car at [(1e17, 0)]
    with heading 0 is [(-1e17, 0)] in the car's frame (the subtraction
    rounds the 1 away), and comes back as [(0, 0)]. *)
Lemma round_trip_loses_small_point {libm : Libm} :
  car_point 1e17%float 0%float 0%float 1%float 0%float
  = ((- 1e17)%float, 0%float)
  /\ round_trip 1e17%float 0%float 0%float 1%float 0%float
     = (0%float, 0%float).
Proof.
  unfold round_trip, transformToWorld, car_point. cbn [fst snd].
  change (- 0)%float with (-0)%float.
  rewrite cos_neg_zero, sin_neg_zero, cos_pos_zero, sin_pos_zero.
  split; reflexivity.
Qed.

(* ===================================================================== *)
(** ** What every run keeps to *)
(* ===================================================================== *)

Section RunInvariants.

Context {libm : Libm} {ext : Externals}.

(** X1. A frame that carries a payload and names an event other than
    [telemetry] is parsed and then ignored: the run returns normally, sends
    nothing, and does not touch the optimizer. *)
Theorem other_events_are_ignored (mpc : MPC) (data s ev : string) (j : json) :
  is_event_frame (sdata_of data) = true ->
  hasData (sdata_of data) = s -> s <> "" ->
  json_parse s = Some j ->
  event_name j = Ok ev -> ev <> "telemetry" ->
  onMessage mpc data = (Ok tt, mpc, [Call_parse s])
  /\ count is_send [Call_parse s] = 0%nat
  /\ count is_Solve [Call_parse s] = 0%nat.
Proof.
  intros Hg Hs Hne Hp He Hev. split; [| split; reflexivity].
  now apply (unknown_event_run mpc data s ev j).
Qed.

Lemma count_app (p : event -> bool) (l1 l2 : list event) :
  count p (l1 ++ l2)%list = (count p l1 + count p l2)%nat.
Proof. unfold count. now rewrite filter_app, length_app. Qed.

(** X2. A run sends at most one message; if it sends one, the send is its
    last step and the run returns normally; a run that does not return
    normally (an uncaught exception, a failed assertion, a fault) has sent
    nothing. *)
Theorem one_reply_at_most (mpc mpc' : MPC) (data : string)
  (r : outcome unit) (log : list event) :
  onMessage mpc data = (r, mpc', log) ->
  (count is_send log <= 1)%nat
  /\ (forall msg, In (Ws_send msg) log ->
        r = Ok tt /\ exists before,
          log = (before ++ [Ws_send msg])%list
          /\ count is_send before = 0%nat)
  /\ (forall f, r = Fail f -> count is_send log = 0%nat).
Proof.
  intros Hrun. apply run_has_shape in Hrun.
  destruct Hrun as
    [Hg | Hg Hs | s f Hg Hs Hne | s Hg Hs Hne | s t f Hdec | s t n f Hdec
     | s t n coeffs result mpc' f Hdec Hfit Hsolve
     | s t n coeffs result mpc' payload angle f Hdec Hfit Hsolve Hj
     | s t n coeffs result mpc' payload angle acc Hdec Hfit Hsolve Hj Hread];
    (split; [cbn; lia |]); split;
    try (intros f0 [=]); try reflexivity;
    try (intros msg Hin; cbn in Hin;
         repeat (destruct Hin as [Hin | Hin]; [discriminate |]);
         now destruct Hin).
  - intros msg [[= <-] | []]. split; [reflexivity |]. now exists [].
  - intros msg Hin. split; [reflexivity |]. unfold reply_log in *.
    cbn in Hin.
    repeat (destruct Hin as [Hin | Hin]; [discriminate |]).
    destruct Hin as [[= <-] | []].
    eexists [_; _; _; _; _; _; _]. split; reflexivity.
Qed.

(** X3. A run calls the optimizer at most once. If it does not, the
    optimizer object is left as it was; if it does, the object after the
    run is the one that call returned, whether or not the run then
    succeeds. *)
Theorem optimizer_called_at_most_once (mpc mpc' : MPC) (data : string)
  (r : outcome unit) (log : list event) :
  onMessage mpc data = (r, mpc', log) ->
  (count is_Solve log <= 1)%nat
  /\ (count is_Solve log = 0%nat -> mpc' = mpc)
  /\ (forall state coeffs,
        In (Call_Solve state coeffs) log ->
        mpc' = snd (Solve mpc state coeffs)).
Proof.
  intros Hrun. apply run_has_shape in Hrun.
  destruct Hrun as
    [Hg | Hg Hs | s f Hg Hs Hne | s Hg Hs Hne | s t f Hdec | s t n f Hdec
     | s t n coeffs result mpc' f Hdec Hfit Hsolve
     | s t n coeffs result mpc' payload angle f Hdec Hfit Hsolve Hj
     | s t n coeffs result mpc' payload angle acc Hdec Hfit Hsolve Hj Hread];
    (split; [cbn; lia |]); split;
    try reflexivity; try (cbn; discriminate);
    intros st c Hin; unfold reply_log in Hin; cbn in Hin;
    repeat (destruct Hin as [Hin | Hin];
            [first [discriminate
                   | injection Hin as <- <-; now rewrite Hsolve] |]);
    destruct Hin.
Qed.

(** X6. Waypoints of [ptsy] beyond the length of [ptsx] are never looked
    at: the transformed points are those of [ptsy] cut to that length. *)
Theorem surplus_ptsy_is_ignored (px py psi : double)
  (ptsx ptsy : list double) :
  car_coordinates px py psi ptsx ptsy
  = car_coordinates px py psi ptsx (firstn (List.length ptsx) ptsy).
Proof.
  unfold car_coordinates.
  destruct (Nat.le_gt_cases (List.length ptsx) (List.length ptsy))
    as [Hle | Hgt].
  - now apply car_loop_firstn.
  - rewrite firstn_all2 by lia. reflexivity.
Qed.

Lemma c_string_length (data : string) :
  (String.length (c_string data) <= String.length data)%nat.
Proof.
  induction data as [| c data IH]; cbn; [lia |].
  destruct (Ascii.eqb c Ascii.zero); cbn; lia.
Qed.

Lemma c_string_idempotent (data : string) :
  c_string (c_string data) = c_string data.
Proof.
  induction data as [| c data IH]; cbn; [reflexivity |].
  destruct (Ascii.eqb c Ascii.zero) eqn:E; cbn; [reflexivity |].
  now rewrite E, IH.
Qed.

Lemma sdata_of_c_string (data : string) :
  (Z.of_nat (String.length data) < 2 ^ 64)%Z ->
  sdata_of data = c_string data.
Proof.
  intros Hlen. pose proof (c_string_length data) as Hle.
  unfold sdata_of, substr, size_t.
  rewrite Z.mod_small by lia.
  rewrite Nat.sub_0_r, Z.min_r by lia. rewrite Nat2Z.id.
  apply substring_whole.
Qed.

(** X7. The callback reads a frame as a C string: what follows the first
    NUL byte of a frame has no effect on the run. *)
Theorem bytes_after_nul_are_ignored (mpc : MPC) (data : string) :
  (Z.of_nat (String.length data) < 2 ^ 64)%Z ->
  onMessage mpc data = onMessage mpc (c_string data).
Proof.
  intros Hlen. pose proof (c_string_length data) as Hle.
  unfold onMessage.
  rewrite (sdata_of_c_string data Hlen).
  rewrite (sdata_of_c_string (c_string data)) by lia.
  now rewrite c_string_idempotent.
Qed.

(** X8. Whatever the callback sends is itself an event frame: more than
    two characters, starting with [42]. *)
Theorem replies_are_event_frames (mpc mpc' : MPC) (data : string)
  (r : outcome unit) (log : list event) (msg : string) :
  onMessage mpc data = (r, mpc', log) ->
  In (Ws_send msg) log ->
  is_event_frame msg = true.
Proof.
  intros Hrun Hin.
  destruct (sends_inv mpc mpc' data r log msg Hrun Hin)
    as [(_ & -> & _) | (s & t & n & coeffs & result & payload & angle & acc
                        & _ & _ & _ & _ & -> & _)].
  - reflexivity.
  - reflexivity.
Qed.

End RunInvariants.

(* ===================================================================== *)
(** ** What [hasData] extracts *)
(* ===================================================================== *)

Section Extraction.

(** X9. The normal case of [hasData]: when [null] does not occur in the
    text and its first ['['] comes before its last ["}]"], the result is
    the text from that ['['] through that ["}]"]: it begins with ['['],
    ends with ["}]"], and [null] does not occur in it. *)
Theorem hasData_extracts_the_array (s : string) (b1 b2 : nat) :
  (Z.of_nat (String.length s) < 2 ^ 64)%Z ->
  ~ contains "null" s ->
  first_occurrence "[" s b1 -> last_occurrence "}]" s b2 ->
  (b1 <= b2)%nat ->
  hasData s = substring b1 (b2 + 2 - b1) s
  /\ String.length (hasData s) = (b2 + 2 - b1)%nat
  /\ substring 0 1 (hasData s) = "["
  /\ substring (b2 - b1) 2 (hasData s) = "}]"
  /\ ~ contains "null" (hasData s).
Proof.
  intros Hlen Hnull H1 H2 Hle.
  pose proof (occurs_within "}]" s b2 ltac:(discriminate) (proj1 H2)) as Hb2.
  cbn [String.length] in Hb2.
  assert (E : hasData s = substring b1 (b2 + 2 - b1) s).
  { rewrite (hasData_marks s b1 b2 Hnull H1 H2). unfold substr, size_t.
    rewrite Z.mod_small by lia. rewrite Z.min_l by lia.
    f_equal. lia. }
  rewrite E. split; [reflexivity |]. split; [apply substring_length; lia |].
  split; [| split].
  - rewrite substring_substring by lia. rewrite Nat.add_0_r. exact (proj1 H1).
  - rewrite substring_substring by lia.
    replace (b1 + (b2 - b1))%nat with b2 by lia. exact (proj1 H2).
  - intros [m Hm]. apply Hnull. exists (b1 + m)%nat. unfold occurs_at in *.
    rewrite <- Hm at 2. symmetry. apply substring_substring.
    pose proof (occurs_within "null" _ m ltac:(discriminate) Hm) as Hin.
    rewrite substring_length in Hin by lia. exact Hin.
Qed.

(** X10. The wrap-around case of [hasData]: the length [b2 - b1 + 2] is
    computed in [size_t], so when the last ["}]"] ends more than one
    character before the first ['['], the length wraps to a huge value and
    the result is the whole rest of the text from that ['['] on, not the
    empty string. *)
Theorem hasData_wraps_to_the_tail (s : string) (b1 b2 : nat) :
  (Z.of_nat (String.length s) < 2 ^ 64)%Z ->
  ~ contains "null" s ->
  first_occurrence "[" s b1 -> last_occurrence "}]" s b2 ->
  (b2 + 2 < b1)%nat ->
  hasData s = substring b1 (String.length s - b1) s
  /\ String.length (hasData s) = (String.length s - b1)%nat
  /\ hasData s <> "".
Proof.
  intros Hlen Hnull H1 H2 Hlt.
  destruct (hasData_tail s b1 b2 Hlen Hnull H1 H2 Hlt) as (E & L & Hpos).
  split; [exact E |]. split; [exact L |].
  intros H0. rewrite H0 in L. cbn in L. lia.
Qed.

(** X11. When [hasData] finds no payload. For a text shorter than 2^64
    characters the result is empty exactly when [null] occurs in the text,
    or there is no ['['] in it, or no ["}]"], or its last ["}]"] ends right
    where its first ['['] stands. *)
Theorem hasData_empty_iff (s : string) :
  (Z.of_nat (String.length s) < 2 ^ 64)%Z ->
  hasData s = "" <->
  (contains "null" s \/ ~ contains "[" s \/ ~ contains "}]" s
   \/ exists b, first_occurrence "[" s (b + 2) /\ last_occurrence "}]" s b).
Proof. exact (hasData_empty_cases s). Qed.

End Extraction.

(* ===================================================================== *)
(** ** The pure parts of the pipeline *)
(* ===================================================================== *)

Section PureParts.

Context {libm : Libm} {ext : Externals}.

Local Open Scope float_scope.

Lemma interleave_deal (n : nat) :
  forall l : list double,
    (List.length l <= n)%nat ->
    interleave (fst (deal l)) (snd (deal l)) = l
    /\ (List.length (fst (deal l)) + List.length (snd (deal l))
        = List.length l)%nat
    /\ (List.length (snd (deal l)) <= List.length (fst (deal l)))%nat
    /\ (List.length (fst (deal l)) <= S (List.length (snd (deal l))))%nat.
Proof.
  induction n as [| n IH]; intros l Hlen.
  - destruct l; [| cbn in Hlen; lia]. cbn. repeat split; lia.
  - destruct l as [| x [| y rest]]; [cbn; repeat split; lia .. |].
    destruct n as [| n]; [cbn in Hlen; lia |].
    assert (Hlen' : (List.length rest <= S n)%nat) by (cbn in Hlen; lia).
    destruct (IH rest Hlen') as (E & L & L1 & L2).
    cbn [deal fst snd interleave List.length]. rewrite E.
    repeat split; lia.
Qed.

(** X12. The loop of lines 164-171 loses and reorders nothing: taking
    [mpc_x_vals] and [mpc_y_vals] in turns gives back the answer without
    its first two elements, and [mpc_x_vals] is as long as [mpc_y_vals] or
    one longer. *)
Theorem mpc_vals_round_trip (result : list double) :
  interleave (fst (mpc_vals result)) (snd (mpc_vals result))
  = skipn 2 result
  /\ (List.length (fst (mpc_vals result))
      + List.length (snd (mpc_vals result))
      = List.length result - 2)%nat
  /\ (List.length (snd (mpc_vals result))
      <= List.length (fst (mpc_vals result))
      <= S (List.length (snd (mpc_vals result))))%nat.
Proof.
  unfold mpc_vals.
  rewrite (mpc_loop_deal (List.length (skipn 2 result)) _ 2 [] []
             (le_n _) eq_refl).
  cbn [app fst snd].
  destruct (interleave_deal _ (skipn 2 result) (le_n _)) as (E & L & L1 & L2).
  rewrite length_skipn in L. repeat split; assumption.
Qed.

(** X13. [polyfit] returns coefficients exactly when the two vectors have
    the same size [n] and [1 <= order <= n - 1]; it then returns
    [order + 1] of them, and there are at least two points. A size
    mismatch fails the first assertion, whatever the order. *)
Theorem polyfit_succeeds_iff (xvals yvals : list double) (order : Z) :
  ((exists coeffs, polyfit xvals yvals order = Ok coeffs) <->
   (List.length xvals = List.length yvals
    /\ (1 <= order <= Z.of_nat (List.length xvals) - 1)%Z))
  /\ (forall coeffs,
         polyfit xvals yvals order = Ok coeffs ->
         List.length coeffs = S (Z.to_nat order)
         /\ (2 <= List.length xvals)%nat)
  /\ (List.length xvals <> List.length yvals ->
      polyfit xvals yvals order = Fail (AssertFailed size_assertion)).
Proof.
  destruct (polyfit_spec xvals yvals order)
    as [(He & H1 & H2 & E) | [(Hne & E) | (He & H & E)]].
  - split; [| split].
    + split; [intros _; split; [exact He | lia] | intros _; eauto].
    + intros coeffs Hc. split; [now apply (polyfit_ok_size xvals yvals) | lia].
    + intros Hne. contradiction.
  - split; [| split].
    + rewrite E. split; [now intros [c [=]] | now intros [He _]].
    + rewrite E. discriminate.
    + intros _. exact E.
  - split; [| split].
    + rewrite E. split; [now intros [c [=]] | intros [_ Hr]; lia].
    + rewrite E. discriminate.
    + intros Hne. contradiction.
Qed.

(** X15. The waypoint loop works point by point: when it runs to its end,
    it yields as many points as there are [ptsx], and the [i]-th one is the
    transform of the [i]-th waypoint alone, that is of [ptsx[i]] and of
    what the read [ptsy[i]] gave, which is the [i]-th element of [ptsy]
    when there is one. *)
Theorem car_coordinates_pointwise (px py psi : double)
  (ptsx ptsy : list double) (car : list double * list double) :
  car_coordinates px py psi ptsx ptsy = Ok car ->
  List.length (fst car) = List.length ptsx
  /\ List.length (snd car) = List.length ptsx
  /\ forall i, (i < List.length ptsx)%nat ->
       exists wy,
         vector_at "ptsy[i]" ptsy i = Ok wy
         /\ ((i < List.length ptsy)%nat -> wy = nth i ptsy 0)
         /\ (nth i (fst car) 0, nth i (snd car) 0)
            = car_point px py psi (nth i ptsx 0) wy.
Proof.
  intros E. destruct (car_loop_length _ _ _ _ _ _ _ E) as [Lx Ly].
  split; [exact Lx |]. split; [exact Ly |].
  intros i Hi.
  destruct (car_loop_nth px py psi ptsx 0 ptsy car E i Hi) as (wy & Hv & Hp).
  exists wy. split; [exact Hv |]. split; [| exact Hp].
  now apply (vector_at_ok _ _ _ _ Hv).
Qed.

End PureParts.

(* ===================================================================== *)
(** ** More facts about doubles *)
(* ===================================================================== *)

Section MoreDoubleFacts.

Local Open Scope float_scope.

Lemma SFeqb_finite_refl (s : bool) (m : positive) (e : Z) :
  SFeqb (S754_finite s m e) (S754_finite s m e) = true.
Proof.
  unfold SFeqb, SFcompare.
  change (PosDef.Pos.compare_cont Eq m m) with (Pos.compare m m).
  destruct s; rewrite Z.compare_refl, Pos.compare_refl; reflexivity.
Qed.

Lemma mul_zero_any (y z : double) :
  is_finite y = true -> is_zero z = true -> is_zero (y * z) = true.
Proof.
  unfold is_finite, is_zero. rewrite mul_spec.
  destruct (Prim2SF z); try discriminate.
  destruct (Prim2SF y); try discriminate; reflexivity.
Qed.

(** Subtracting a zero from, or adding a zero to, a finite double gives a
    double that compares equal to it. *)
Lemma sub_zero_eq (x z : double) :
  is_finite x = true -> is_zero z = true -> double_eq (x - z) x = true.
Proof.
  unfold is_finite, is_zero, double_eq. rewrite eqb_spec, sub_spec.
  destruct (Prim2SF z) as [sz | | |]; try discriminate.
  destruct (Prim2SF x) as [sx | | | sx m e]; try discriminate; intros _ _.
  - now destruct sx, sz.
  - apply SFeqb_finite_refl.
Qed.

Lemma zero_add_eq (z y : double) :
  is_finite y = true -> is_zero z = true -> double_eq (z + y) y = true.
Proof.
  unfold is_finite, is_zero, double_eq. rewrite eqb_spec, add_spec.
  destruct (Prim2SF z) as [sz | | |]; try discriminate.
  destruct (Prim2SF y) as [sy | | | sy m e]; try discriminate; intros _ _.
  - now destruct sy, sz.
  - apply SFeqb_finite_refl.
Qed.

Lemma zero_cases (x : double) : is_zero x = true -> x = 0 \/ x = (- 0).
Proof.
  unfold is_zero. intros H.
  destruct (Prim2SF x) as [s | | |] eqn:E; try discriminate.
  destruct s; [right | left]; apply Prim2SF_inj; rewrite E; reflexivity.
Qed.

(** The sign of a rounded result is the sign it was given. *)
Lemma binary_round_aux_opp (s : bool) (m e : Z) (l : location) :
  binary_round_aux prec emax (negb s) m e l
  = SFopp (binary_round_aux prec emax s m e l).
Proof.
  unfold binary_round_aux.
  destruct (shr_fexp prec emax m e l) as [mrs' e'].
  destruct (shr_fexp prec emax _ e' loc_Exact) as [mrs'' e''].
  destruct (shr_m mrs''); try reflexivity.
  now destruct (e'' <=? emax - prec)%Z.
Qed.

Lemma xorb_negb_l (a b : bool) : xorb (negb a) b = negb (xorb a b).
Proof. now destruct a, b. Qed.

Lemma SF64mul_opp_l (x y : spec_float) :
  SF64mul (SFopp x) y = SFopp (SF64mul x y).
Proof.
  unfold SF64mul, SFmul.
  destruct x, y; cbn [SFopp]; rewrite ?xorb_negb_l; try reflexivity.
  apply binary_round_aux_opp.
Qed.

Lemma SF64div_opp_l (x y : spec_float) :
  SF64div (SFopp x) y = SFopp (SF64div x y).
Proof.
  unfold SF64div, SFdiv.
  destruct x, y; cbn [SFopp]; rewrite ?xorb_negb_l; try reflexivity.
  destruct (SFdiv_core_binary prec emax (Z.pos m) e (Z.pos m0) e0)
    as [[mz ez] lz].
  apply binary_round_aux_opp.
Qed.

Lemma mul_opp_l (x y : double) : (- x) * y = - (x * y).
Proof.
  apply Prim2SF_inj. rewrite opp_spec, !mul_spec, opp_spec.
  apply SF64mul_opp_l.
Qed.

Lemma div_opp_l (x y : double) : (- x) / y = - (x / y).
Proof.
  apply Prim2SF_inj. rewrite opp_spec, !div_spec, opp_spec.
  apply SF64div_opp_l.
Qed.

End MoreDoubleFacts.

(* ===================================================================== *)
(** ** The transform at heading 0, the angle conversions, the HTTP page *)
(* ===================================================================== *)

Section Heading.

Context {libm : Libm}.

Local Open Scope float_scope.

(** X16. With heading 0 ([+0.0] or [-0.0]) the transform is the shift by
    the position of the car: for every waypoint whose differences
    [wx - px] and [wy - py] are finite, the coordinates in the car's frame
    compare equal ([==]) to those differences. *)
Theorem heading_zero_is_a_shift (px py psi wx wy : double) :
  is_zero psi = true ->
  is_finite (wx - px) = true -> is_finite (wy - py) = true ->
  double_eq (fst (car_point px py psi wx wy)) (wx - px) = true
  /\ double_eq (snd (car_point px py psi wx wy)) (wy - py) = true.
Proof.
  intros Hpsi Hx Hy. unfold car_point. cbn [fst snd].
  destruct (zero_cases psi Hpsi) as [-> | ->].
  - rewrite cos_neg_zero, sin_neg_zero, !mul_one_r. split.
    + apply sub_zero_eq; [exact Hx | now apply mul_zero_any].
    + apply zero_add_eq; [exact Hy | now apply mul_zero_any].
  - change (- - 0) with 0.
    rewrite cos_pos_zero, sin_pos_zero, !mul_one_r. split.
    + apply sub_zero_eq; [exact Hx | now apply mul_zero_any].
    + apply zero_add_eq; [exact Hy | now apply mul_zero_any].
Qed.

End Heading.

Section Angles.

Local Open Scope float_scope.

(** X17. [deg2rad] and [rad2deg] are odd on all doubles: negating the
    argument negates the result, bit for bit. *)
Theorem angle_conversions_are_odd (x : double) :
  deg2rad (- x) = - deg2rad x /\ rad2deg (- x) = - rad2deg x.
Proof.
  unfold deg2rad, rad2deg. now rewrite !mul_opp_l, !div_opp_l.
Qed.

(** X18. [deg2rad] and [rad2deg] return a zero, an infinity or a NaN as
    it is (a zero keeps its sign). *)
Theorem angle_conversions_keep_special_values (x : double) :
  is_zero x = true \/ is_finite x = false ->
  deg2rad x = x /\ rad2deg x = x.
Proof.
  unfold is_zero, is_finite, deg2rad, rad2deg. intros H.
  split; apply Prim2SF_inj; rewrite div_spec, mul_spec;
    destruct (Prim2SF x) as [s | s | | s m e];
    try (destruct H; discriminate); try (now destruct s); reflexivity.
Qed.

End Angles.

Section Http.

(** X19. The HTTP callback decides by the length of the URL alone: it
    answers the 21-character page [<h1>Hello world!</h1>] for a URL of one
    character and an empty body for every other; so among the paths, which
    begin with ['/'], only the root gets the page. *)
Theorem hello_page_for_the_root_only (url path : string) :
  (onHttpRequest url = hello_page <-> String.length url = 1%nat)
  /\ (String.length url <> 1%nat -> onHttpRequest url = "")
  /\ (onHttpRequest ("/" ++ path) = hello_page <-> path = "")
  /\ String.length hello_page = 21%nat.
Proof.
  unfold onHttpRequest. split; [| split; [| split; [| reflexivity]]].
  - unfold hello_page.
    destruct (Nat.eqb_spec (String.length url) 1); split; auto;
      try discriminate; intros; contradiction.
  - intros H. now destruct (Nat.eqb_spec (String.length url) 1).
  - destruct path as [| c path].
    + split; reflexivity.
    + cbn [append String.length Nat.eqb]. unfold hello_page.
      split; discriminate.
Qed.

End Http.

(* ===================================================================== *)
(** ** Runs and values that meet the conditions above *)
(* ===================================================================== *)

Lemma other_events_are_ignored_witness :
  @onMessage Sample.libm (Sample.externals [] []) 0%nat Frames.other_event
  = (Ok tt, 0%nat, [Call_parse (hasData Frames.other_event)]).
Proof.
  refine (proj1 (@other_events_are_ignored Sample.libm
                   (Sample.externals [] []) 0%nat Frames.other_event
                   (hasData Frames.other_event) "steer"
                   (JArray [JString "steer"; JObject []])
                   eq_refl eq_refl _ eq_refl eq_refl _)); discriminate.
Defined.

Lemma one_reply_at_most_witness :
  exists msg,
    @onMessage Sample.libm
      (Sample.externals Sample.fit4 [0.1; 0.5; 10; 1; 20; 2]%float)
      0%nat Sample.frame4
    = (Ok tt, 1%nat,
       [Call_parse (hasData Sample.frame4); Loop_transform 4;
        Call_polyfit 4 3;
        Call_Solve [0; 0; 0; 12.5; 0.5; -0]%float Sample.fit4;
        Cout "Angle: " 0.1%float; Cout "Acc: " 0.5%float;
        Sleep_for 100; Ws_send msg])
    /\ (count is_send
          [Call_parse (hasData Sample.frame4); Loop_transform 4;
           Call_polyfit 4 3;
           Call_Solve [0; 0; 0; 12.5; 0.5; -0]%float Sample.fit4;
           Cout "Angle: " 0.1%float; Cout "Acc: " 0.5%float;
           Sleep_for 100; Ws_send msg] <= 1)%nat.
Proof.
  destruct frame4_run as (msg & _ & Hrun). exists msg.
  split; [exact Hrun |].
  exact (proj1 (@one_reply_at_most Sample.libm
                  (Sample.externals Sample.fit4
                     [0.1; 0.5; 10; 1; 20; 2]%float)
                  _ _ _ _ _ Hrun)).
Defined.

Lemma optimizer_called_at_most_once_witness :
  exists msg,
    @onMessage Sample.libm
      (Sample.externals Sample.fit4 [0.1; 0.5; 10; 1; 20; 2]%float)
      0%nat Sample.frame4
    = (Ok tt, 1%nat,
       [Call_parse (hasData Sample.frame4); Loop_transform 4;
        Call_polyfit 4 3;
        Call_Solve [0; 0; 0; 12.5; 0.5; -0]%float Sample.fit4;
        Cout "Angle: " 0.1%float; Cout "Acc: " 0.5%float;
        Sleep_for 100; Ws_send msg])
    /\ 1%nat
       = snd (Solve (Externals := Sample.externals Sample.fit4
                                    [0.1; 0.5; 10; 1; 20; 2]%float)
                0%nat [0; 0; 0; 12.5; 0.5; -0]%float Sample.fit4).
Proof.
  destruct frame4_run as (msg & _ & Hrun). exists msg.
  split; [exact Hrun |].
  refine (proj2 (proj2 (@optimizer_called_at_most_once Sample.libm
                          (Sample.externals Sample.fit4
                             [0.1; 0.5; 10; 1; 20; 2]%float)
                          _ _ _ _ _ Hrun)) _ _ _).
  right; right; right; left. reflexivity.
Defined.

Lemma bytes_after_nul_are_ignored_witness :
  c_string Frames.with_nul = Sample.frame4
  /\ @onMessage Sample.libm (Sample.externals Sample.fit4 [0.1; 0.5]%float)
       0%nat Frames.with_nul
     = @onMessage Sample.libm (Sample.externals Sample.fit4 [0.1; 0.5]%float)
         0%nat (c_string Frames.with_nul).
Proof.
  split; [reflexivity |].
  apply (@bytes_after_nul_are_ignored Sample.libm
           (Sample.externals Sample.fit4 [0.1; 0.5]%float) 0%nat
           Frames.with_nul).
  vm_compute. reflexivity.
Defined.

Lemma replies_are_event_frames_witness :
  exists msg,
    @onMessage Sample.libm
      (Sample.externals Sample.fit4 [0.1; 0.5; 10; 1; 20; 2]%float)
      0%nat Sample.frame4
    = (Ok tt, 1%nat,
       [Call_parse (hasData Sample.frame4); Loop_transform 4;
        Call_polyfit 4 3;
        Call_Solve [0; 0; 0; 12.5; 0.5; -0]%float Sample.fit4;
        Cout "Angle: " 0.1%float; Cout "Acc: " 0.5%float;
        Sleep_for 100; Ws_send msg])
    /\ is_event_frame msg = true.
Proof.
  destruct frame4_run as (msg & _ & Hrun). exists msg.
  split; [exact Hrun |].
  refine (@replies_are_event_frames Sample.libm
            (Sample.externals Sample.fit4 [0.1; 0.5; 10; 1; 20; 2]%float)
            _ _ _ _ _ msg Hrun _).
  do 7 right. left. reflexivity.
Defined.

Lemma hasData_extracts_the_array_witness :
  hasData Sample.frame_empty = substring 2 16 Sample.frame_empty
  /\ substring 0 1 (hasData Sample.frame_empty) = "["
  /\ substring 14 2 (hasData Sample.frame_empty) = "}]".
Proof.
  destruct (hasData_extracts_the_array Sample.frame_empty 2 16)
    as (E & _ & H1 & H2 & _).
  - vm_compute. reflexivity.
  - apply find_none_iff; [discriminate | reflexivity].
  - apply find_first; [discriminate | reflexivity].
  - apply rfind_last; [discriminate | reflexivity].
  - repeat constructor.
  - split; [exact E |]. split; [exact H1 | exact H2].
Defined.

Lemma hasData_wraps_to_the_tail_witness :
  hasData Frames.wrapped = "[abc".
Proof.
  destruct (hasData_wraps_to_the_tail Frames.wrapped 5 2) as (E & _ & _).
  - vm_compute. reflexivity.
  - apply find_none_iff; [discriminate | reflexivity].
  - apply find_first; [discriminate | reflexivity].
  - apply rfind_last; [discriminate | reflexivity].
  - repeat constructor.
  - exact E.
Defined.

Lemma hasData_empty_iff_witness : hasData Frames.adjacent = "".
Proof.
  refine (proj2 (hasData_empty_iff Frames.adjacent _) _).
  - vm_compute. reflexivity.
  - right; right; right. exists 2%nat. split.
    + apply find_first; [discriminate | reflexivity].
    + apply rfind_last; [discriminate | reflexivity].
Defined.

Lemma car_coordinates_pointwise_witness :
  car_coordinates (libm := Sample.libm) (ext := Sample.externals [] [])
    1%float 2%float 0%float [0; 1; 2]%float [5; 5; 5]%float
  = Ok ([-1; 0; 1]%float, [3; 3; 3]%float)
  /\ (0%float, 3%float)
     = car_point (libm := Sample.libm) 1%float 2%float 0%float
         1%float 5%float.
Proof.
  assert (E : car_coordinates (libm := Sample.libm)
                (ext := Sample.externals [] [])
                1%float 2%float 0%float [0; 1; 2]%float [5; 5; 5]%float
              = Ok ([-1; 0; 1]%float, [3; 3; 3]%float))
    by (vm_compute; reflexivity).
  destruct (@car_coordinates_pointwise Sample.libm (Sample.externals [] [])
              1%float 2%float 0%float _ _ _ E) as (_ & _ & Hnth).
  split; [exact E |].
  destruct (Hnth 1%nat (le_S _ _ (le_n 2))) as (wy & _ & Hwy & Hp).
  rewrite (Hwy (le_S _ _ (le_n 2))) in Hp. exact Hp.
Defined.

Lemma heading_zero_is_a_shift_witness :
  double_eq (fst (car_point (libm := Sample.libm) 1%float 2%float 0%float
                    3%float 5%float)) 2%float = true
  /\ double_eq (snd (car_point (libm := Sample.libm) 1%float 2%float 0%float
                       3%float 5%float)) 3%float = true.
Proof.
  exact (@heading_zero_is_a_shift Sample.libm 1%float 2%float 0%float
           3%float 5%float eq_refl eq_refl eq_refl).
Defined.

Lemma angle_conversions_keep_special_values_witness :
  deg2rad infinity = infinity /\ rad2deg infinity = infinity.
Proof.
  apply angle_conversions_keep_special_values. right. reflexivity.
Defined.

(* ===================================================================== *)
(** ** The guard and the unused fields *)
(* ===================================================================== *)

Section Guard.

Context {libm : Libm} {ext : Externals}.

(** X20. The guard of the callback passes exactly the texts that are [42]
    followed by at least one character, and the runs that do nothing at
    all (nothing sent, nothing logged, the optimizer left as it was) are
    exactly those on the frames that fail it. *)
Theorem frames_without_prefix_are_ignored (mpc : MPC) (data : string) :
  (is_event_frame (sdata_of data) = true
   <-> exists rest, rest <> "" /\ sdata_of data = "42" ++ rest)
  /\ (onMessage mpc data = (Ok tt, mpc, [])
      <-> is_event_frame (sdata_of data) = false).
Proof.
  split; split.
  - intros Hg. destruct (is_event_frame_inv _ Hg) as (rest & E & Hrest).
    now exists rest.
  - intros (rest & Hrest & ->). now apply is_event_frame_42.
  - intros Hrun. apply run_has_shape in Hrun. inversion Hrun; congruence.
  - apply ignored_run.
Qed.

(** X21. The callback reads [steering_angle] and [throttle] from the
    payload and then never uses them: two payloads that are read to the
    same position, heading, speed and waypoints lead to the same run from
    the same state, whatever their [steering_angle] and [throttle]. *)
Theorem actuation_fields_are_unused (j1 j2 : json) (t1 t2 : telemetry)
  (w : world) :
  read_telemetry j1 = Ok t1 -> read_telemetry j2 = Ok t2 ->
  px t1 = px t2 -> py t1 = py t2 -> psi t1 = psi t2 -> v t1 = v t2 ->
  ptsize t1 = ptsize t2 -> ptsx t1 = ptsx t2 -> ptsy t1 = ptsy t2 ->
  on_telemetry j1 w = on_telemetry j2 w.
Proof.
  intros H1 H2 Hx Hy Hpsi Hv Hn Hxs Hys.
  unfold on_telemetry, bind, lift. rewrite H1, H2.
  now rewrite Hx, Hy, Hpsi, Hv, Hn, Hxs, Hys.
Qed.

End Guard.

Lemma frames_without_prefix_are_ignored_witness :
  @onMessage Sample.libm (Sample.externals [] []) 0%nat "hello"
  = (Ok tt, 0%nat, [])
  /\ is_event_frame (sdata_of "42!") = true.
Proof.
  split.
  - exact (proj2 (proj2 (@frames_without_prefix_are_ignored Sample.libm
                           (Sample.externals [] []) 0%nat "hello"))
             eq_refl).
  - refine (proj2 (proj1 (@frames_without_prefix_are_ignored Sample.libm
                            (Sample.externals [] []) 0%nat "42!")) _).
    exists "!". split; [discriminate | reflexivity].
Defined.

Lemma actuation_fields_are_unused_witness :
  let payload (steering throttle : double) :=
    JArray
      [JString "telemetry";
       JObject
         [("psi", JNumber 0); ("ptsx", JArray [JNumber 1]);
          ("ptsy", JArray [JNumber 2]); ("speed", JNumber 12.5);
          ("steering_angle", JNumber steering);
          ("throttle", JNumber throttle); ("x", JNumber 0);
          ("y", JNumber 0)]]%float in
  on_telemetry (libm := Sample.libm) (ext := Sample.externals [] [])
    (payload 0.01 0.3)%float
    (mkWorld (ext := Sample.externals [] []) 0%nat [])
  = on_telemetry (libm := Sample.libm) (ext := Sample.externals [] [])
      (payload (-0.4) 1)%float
      (mkWorld (ext := Sample.externals [] []) 0%nat []).
Proof.
  cbv zeta.
  eapply (@actuation_fields_are_unused Sample.libm (Sample.externals [] []));
    reflexivity.
Defined.
